(** * Orbital Genesis: orbit solver and procedural system generator

    A shallow embedding of [utils/physics.ts] (the Kepler solver and the
    orbit-to-Cartesian projection) and of [utils/generator.ts] (the
    procedural solar-system generator), together with the properties the
    specification states about them.

    Numbers.  A JavaScript [number] is read as a real number ([R] of the
    Standard Library): [+ - * /] are the field operations, [Math.floor] is
    [Zfloor], [Math.sin], [Math.cos], [Math.sqrt] and [Math.PI] are [sin],
    [cos], [sqrt] and [PI], and [Math.pow x 1.5] is [Rpower x 1.5].  Rounding,
    infinities and NaN of IEEE doubles are outside this reading: the proofs
    are about the exact-arithmetic behaviour of the code.  The statements
    are written so as not to hinge on it.  A bound that a rounded result can
    reach is stated closed; two numbers the code computes along different
    routes are compared up to a tolerance far above the rounding of a
    double, or with slack; a quotient is only relied on where its divisor
    cannot vanish; and where it matters, sizes are kept away from overflow
    and underflow ([sizeable], [moderate]).  Loop counters and array
    indices, which the code only ever increments from [0], are natural
    numbers; the results of [Math.floor] are integers ([Z]).

    Randomness.  [Math.random()] is read as the next element of a fixed
    sequence [rnd : nat -> R]; the position in the sequence is the state
    threaded through the generator.  ECMAScript promises a value in
    [[0, 1)]; that promise is the hypothesis [unit_stream rnd]. *)

From Stdlib Require Import Reals Lra Lia List ZArith Bool String Ascii.
From Stdlib Require Import DecimalString DecimalNat DecimalZ Decimal.
From Stdlib Require Import Permutation.
From Equations Require Import Equations.
Import ListNotations.

Open Scope R_scope.

(** ** Numeric helpers shared by both source files *)

(** [x > y] and [x < y] on numbers, as the boolean tests the code branches on. *)
Definition Rgtb (x y : R) : bool := if Rgt_dec x y then true else false.
Definition Rltb (x y : R) : bool := if Rlt_dec x y then true else false.

(** Rounding toward zero, the integer quotient behind JavaScript's [%]. *)
Definition Ztrunc (x : R) : Z :=
  if Rle_dec 0 x then Zfloor x else Zceil x.

(** JavaScript's [x % y] on numbers: the remainder has the sign of [x]. *)
Definition js_rem (x y : R) : R := x - y * IZR (Ztrunc (x / y)).

(** ** types.ts *)

(** The string-valued enum [PlanetType]. *)
Inductive PlanetType := ROCKY | GAS_GIANT | ICE_GIANT | DWARF.

Definition PlanetType_value (t : PlanetType) : string :=
  match t with
  | ROCKY => "Rocky"
  | GAS_GIANT => "Gas Giant"
  | ICE_GIANT => "Ice Giant"
  | DWARF => "Dwarf"
  end.

Definition PlanetType_eqb (t u : PlanetType) : bool :=
  match t, u with
  | ROCKY, ROCKY | GAS_GIANT, GAS_GIANT | ICE_GIANT, ICE_GIANT | DWARF, DWARF => true
  | _, _ => false
  end.

(** Each interface is a record in a module of its name, so that the fields
    keep the names they have in the source ([Planet.id], [Moon.id], ...). *)
Module Orbit.
Record t := mk {
  a : R;
  e : R;
  omega : R;
  period : R;
  meanAnomaly0 : R
}.
End Orbit.
Abbreviation Orbit := Orbit.t.

Module Moon.
Record t := mk {
  id : string;
  name : string;
  parentId : string;
  radius : R;
  color : string;
  orbit : Orbit
}.
End Moon.
Abbreviation Moon := Moon.t.

Module Planet.
Record t := mk {
  id : string;
  name : string;
  type : PlanetType;
  radius : R;
  color : string;
  description : string;
  moons : list Moon;
  orbit : Orbit
}.
End Planet.
Abbreviation Planet := Planet.t.

Module Particle.
Record t := mk {
  angle : R;
  radius : R;
  speed : R;
  size : R
}.
End Particle.
Abbreviation Particle := Particle.t.

Module AsteroidBelt.
Record t := mk {
  minRadius : R;
  maxRadius : R;
  count : Z;
  particles : list Particle
}.
End AsteroidBelt.
Abbreviation AsteroidBelt := AsteroidBelt.t.

Module Star.
Record t := mk {
  radius : R;
  color : string;
  mass : R
}.
End Star.
Abbreviation Star := Star.t.

Module SolarSystem.
Record t := mk {
  star : Star;
  planets : list Planet;
  asteroidBelts : list AsteroidBelt
}.
End SolarSystem.
Abbreviation SolarSystem := SolarSystem.t.

(** ** utils/physics.ts *)

Module Physics.

Import Orbit.

Record Point := mkPoint { x : R; y : R }.

(** The three variables the [while] loop of [solveKepler] updates. *)
Record KeplerState := mkKS {
  ks_E : R;
  ks_delta : R;
  ks_iter : nat
}.

Definition maxIter : nat := 30.

(** [Math.abs(delta) > tolerance && iter < maxIter] *)
Definition loop_guard (tolerance : R) (s : KeplerState) : bool :=
  Rgtb (Rabs (ks_delta s)) tolerance && (ks_iter s <? maxIter)%nat.

(** One execution of the loop body.  The quotient is the field division of
    [R]; where the divisor [1 - e * cos E] vanishes JavaScript yields an
    infinity or NaN instead, and nothing below relies on the quotient
    there. *)
Definition loop_body (M e : R) (s : KeplerState) : KeplerState :=
  let delta := (ks_E s - e * sin (ks_E s) - M) / (1 - e * cos (ks_E s)) in
  mkKS (ks_E s - delta) delta (S (ks_iter s)).

Definition kepler_init (M : R) : KeplerState := mkKS M 1 0.

Definition inspect {A : Type} (v : A) : { w : A | v = w } := exist _ v eq_refl.

(** The [while] loop itself; it is total because every pass through the body
    brings [iter] one closer to [maxIter]. *)
Equations? kepler_loop (M e tolerance : R) (s : KeplerState) : KeplerState
  by wf (maxIter - ks_iter s)%nat lt :=
  kepler_loop M e tolerance s with inspect (loop_guard tolerance s) := {
    | exist _ true _ => kepler_loop M e tolerance (loop_body M e s)
    | exist _ false _ => s }.
Proof.
  clear kepler_loop.
  match goal with H : loop_guard _ _ = true |- _ =>
    apply andb_prop in H; destruct H as [_ Hlt] end.
  apply Nat.ltb_lt in Hlt.
  change (maxIter - S (ks_iter s) < maxIter - ks_iter s)%nat. lia.
Qed.

Definition solveKepler (M e tolerance : R) : R :=
  ks_E (kepler_loop M e tolerance (kepler_init M)).

(** The default value of the parameter [tolerance]. *)
Definition default_tolerance : R := 1e-6.

Definition getPositionOnOrbit (orbit : Orbit) (time : R) : Point :=
  let n := (2 * PI) / period orbit in
  let M := meanAnomaly0 orbit + n * time in
  let M := js_rem M (2 * PI) in
  let E := solveKepler M (e orbit) default_tolerance in
  let P := a orbit * (cos E - e orbit) in
  let Q := a orbit * sqrt (1 - e orbit * e orbit) * sin E in
  let x := P * cos (omega orbit) - Q * sin (omega orbit) in
  let y := P * sin (omega orbit) + Q * cos (omega orbit) in
  mkPoint x y.

End Physics.

(** ** utils/generator.ts *)

Module Generator.

(** *** The effects of the generator

    A computation reads the random sequence from a position and returns a
    value with the next position, or it throws. *)

Inductive Error :=
| TypeError    (* a property of [undefined] is read *)
| Unmodelled.  (* an array write outside the bounds of the array *)

Inductive Result (A : Type) :=
| Ok (v : A)
| Throw (err : Error).
Arguments Ok {A} v.
Arguments Throw {A} err.

Definition Gen (A : Type) : Type := (nat -> R) -> nat -> Result (A * nat).

Definition ret {A} (v : A) : Gen A := fun _ c => Ok (v, c).

Definition bind {A B} (m : Gen A) (f : A -> Gen B) : Gen B :=
  fun rnd c =>
    match m rnd c with
    | Ok (v, c') => f v rnd c'
    | Throw err => Throw err
    end.

Definition throw {A} (err : Error) : Gen A := fun _ _ => Throw err.

Notation "x <- m ;; k" := (bind m (fun x => k))
  (at level 61, m at next level, right associativity).

(** [Math.random()] *)
Definition Math_random : Gen R := fun rnd c => Ok (rnd c, S c).

(** [arr[i]] followed by a property read: [undefined] makes the read throw. *)
Definition at_index {A} (arr : list A) (i : nat) : Gen A :=
  match nth_error arr i with
  | Some v => ret v
  | None => throw TypeError
  end.

(** *** Printing numbers inside template literals *)

Definition nat_toString (n : nat) : string :=
  NilZero.string_of_uint (Nat.to_uint n).

Definition Z_toString (z : Z) : string :=
  NilZero.string_of_int (Z.to_int z).

(** [arr[z]] inside a template literal: a missing element prints as
    [undefined]. *)
Definition template_index (arr : list string) (z : Z) : string :=
  if (z <? 0)%Z then "undefined"%string
  else nth (Z.to_nat z) arr "undefined"%string.

Open Scope string_scope.

(** *** Helpers *)

Definition randomRange (min max : R) : Gen R :=
  r <- Math_random ;;
  ret (r * (max - min) + min).

Definition randomInt (min max : Z) : Gen Z :=
  r <- Math_random ;;
  ret (Zfloor (r * IZR (max - min + 1)) + min)%Z.

Definition prefixes : list string :=
  ["Kep"; "Gliese"; "Trappist"; "Proxima"; "Sol"; "Vega"; "Altair"; "Deneb";
   "K2"; "HD"].

Definition suffixes : list string :=
  ["Prime"; "Major"; "Minor"; "b"; "c"; "d"; "x"; "Zeta"; "I"; "II"; "III"].

Definition generateName : Gen string :=
  p <- randomInt 0 (Z.of_nat (List.length prefixes) - 1) ;;
  n <- randomInt 10 999 ;;
  s <- randomInt 0 (Z.of_nat (List.length suffixes) - 1) ;;
  ret (template_index prefixes p ++ "-" ++ Z_toString n ++ " "
       ++ template_index suffixes s).

Definition roms : list string :=
  ["I"; "II"; "III"; "IV"; "V"; "VI"; "VII"; "VIII"; "IX"; "X"].

(** [roms[num - 1] || num.toString()]; every entry of [roms] is a non-empty
    string, so only a missing entry falls through to the right of [||]. *)
Definition toRoman (num : nat) : string :=
  match num with
  | O => nat_toString num
  | S k => match nth_error roms k with
           | Some r => r
           | None => nat_toString num
           end
  end.

Definition hsl (h s l : Z) : string :=
  "hsl(" ++ Z_toString h ++ ", " ++ Z_toString s ++ "%, " ++ Z_toString l ++ "%)".

(** One [hsl(...)] template of [generateColor]: the local helpers [hue],
    [sat] and [lig] are all [randomInt], called in this order. *)
Definition hslRange (h1 h2 s1 s2 l1 l2 : Z) : Gen string :=
  h <- randomInt h1 h2 ;;
  s <- randomInt s1 s2 ;;
  l <- randomInt l1 l2 ;;
  ret (hsl h s l).

Definition generateColor (type : string) : Gen string :=
  if String.eqb type (PlanetType_value ROCKY) then
    r <- Math_random ;;
    if Rgtb r 0.5 then hslRange 100 220 40 80 30 60
    else hslRange 0 40 50 90 40 70
  else if String.eqb type (PlanetType_value GAS_GIANT) then
    hslRange 20 50 60 90 50 80
  else if String.eqb type (PlanetType_value ICE_GIANT) then
    hslRange 180 260 60 90 60 85
  else if String.eqb type (PlanetType_value DWARF) then
    hslRange 0 0 0 10 40 80
  else if String.eqb type "STAR" then
    hslRange 30 60 80 100 50 80
  else ret "#888".

Close Scope string_scope.

(** The two expressions the source writes out wherever it needs them:
    [p.orbit.a * (1 + p.orbit.e)] and [p.orbit.a * (1 - p.orbit.e)]. *)
Definition aphelion (o : Orbit) : R := Orbit.a o * (1 + Orbit.e o).
Definition perihelion (o : Orbit) : R := Orbit.a o * (1 - Orbit.e o).

(** *** Moons of planet [i]

    The loop [for (let m = 0; m < numMoons; m++)]: [n] passes remain and the
    next index is [m]; the result lists the moons in the order of the
    [push]es. *)
Definition generateMoon (i : nat) (planetId planetName : string) (radius : R)
    (m : nat) : Gen Moon :=
  d1 <- randomRange 5 15 ;;
  d2 <- randomRange 4 8 ;;
  let moonDist := radius + d1 + INR m * d2 in
  moonRadius <- randomRange 0.8 1.8 ;;
  moonE <- randomRange 0 0.1 ;;
  moonOmega <- randomRange 0 (PI * 2) ;;
  moonM0 <- randomRange 0 (PI * 2) ;;
  ret (Moon.mk
         ("moon-" ++ nat_toString i ++ "-" ++ nat_toString m)%string
         (planetName ++ " " ++ toRoman (m + 1))%string
         planetId
         moonRadius
         "#ccc"%string
         (Orbit.mk moonDist moonE moonOmega
            (Rpower moonDist 1.5 * 0.15) moonM0)).

Fixpoint generateMoons (i : nat) (planetId planetName : string) (radius : R)
    (n m : nat) : Gen (list Moon) :=
  match n with
  | O => ret []
  | S n' =>
      moon <- generateMoon i planetId planetName radius m ;;
      rest <- generateMoons i planetId planetName radius n' (S m) ;;
      ret (moon :: rest)
  end.

(** *** One pass of the planet loop *)

(** The [if]/[else] chain that assigns [type] from the roll. *)
Definition chooseType (semiMajorAxis : R) (i : nat) (roll : R) : PlanetType :=
  if Rgtb semiMajorAxis 400 || (4 <? i)%nat then
    if Rgtb roll 0.55 then GAS_GIANT
    else if Rgtb roll 0.25 then ICE_GIANT
    else if Rgtb roll 0.1 then ROCKY
    else DWARF
  else
    if Rltb roll 0.15 then DWARF
    else ROCKY.

(** The body of the loop: the planet pushed on [system.planets] and the new
    value of [previousAphelion]. *)
Definition generatePlanet (i : nat) (previousAphelion : R) : Gen (Planet * R) :=
  let isInnerSystem := (i <? 4)%nat in
  let minGap := if isInnerSystem then 20 else 80 in
  let maxGap := if isInnerSystem then 60 else 200 in
  gap <- randomRange minGap maxGap ;;
  eccentricity <- randomRange 0.01 0.2 ;;
  let perihelion := previousAphelion + gap in
  let semiMajorAxis := perihelion / (1 - eccentricity) in
  roll <- Math_random ;;
  let type := chooseType semiMajorAxis i roll in
  radius <- match type with
            | GAS_GIANT => randomRange 10 16
            | ICE_GIANT => randomRange 7 11
            | DWARF => randomRange 1.5 2.5
            | ROCKY => randomRange 3 6
            end ;;
  color <- generateColor (PlanetType_value type) ;;
  let period := Rpower semiMajorAxis 1.5 * 0.005 in
  planetName <- generateName ;;
  let planetId := ("planet-" ++ nat_toString i)%string in
  omega <- randomRange 0 (PI * 2) ;;
  meanAnomaly0 <- randomRange 0 (PI * 2) ;;
  let orbit := Orbit.mk semiMajorAxis eccentricity omega period meanAnomaly0 in
  let previousAphelion := semiMajorAxis * (1 + eccentricity) in
  moons <- (if negb (PlanetType_eqb type DWARF) then
              numMoons <- match type with
                          | GAS_GIANT => randomInt 3 8
                          | ICE_GIANT => randomInt 2 5
                          | _ => randomInt 0 2
                          end ;;
              generateMoons i planetId planetName radius (Z.to_nat numMoons) 0
            else ret []) ;;
  ret (Planet.mk planetId planetName type radius color
         ("A " ++ PlanetType_value type ++ " planet.")%string
         moons orbit,
       previousAphelion).

(** The loop [for (let i = 0; i < numPlanets; i++)]: [n] passes remain and
    the next index is [i]. *)
Fixpoint generatePlanets (n i : nat) (previousAphelion : R) : Gen (list Planet) :=
  match n with
  | O => ret []
  | S n' =>
      pa <- generatePlanet i previousAphelion ;;
      rest <- generatePlanets n' (S i) (snd pa) ;;
      ret (fst pa :: rest)
  end.

(** *** Inner belts: the gaps a belt fits in *)

Definition safetyMargin : R := 15.
Definition minBeltWidth : R := 20.

(** The loop [for (let i = 0; i < system.planets.length - 1; i++)]. *)
Fixpoint findValidGaps (planets : list Planet) (n i : nat) : Gen (list nat) :=
  match n with
  | O => ret []
  | S n' =>
      p1 <- at_index planets i ;;
      p2 <- at_index planets (i + 1) ;;
      let p1Aphelion := Orbit.a (Planet.orbit p1) * (1 + Orbit.e (Planet.orbit p1)) in
      let p2Perihelion := Orbit.a (Planet.orbit p2) * (1 - Orbit.e (Planet.orbit p2)) in
      rest <- findValidGaps planets n' (S i) ;;
      if Rgtb p2Perihelion (p1Aphelion + safetyMargin * 2 + minBeltWidth)
      then ret (i :: rest)
      else ret rest
  end.

(** *** The shuffle *)

Fixpoint set_index {A} (arr : list A) (i : nat) (v : A) : list A :=
  match arr, i with
  | [], _ => []
  | _ :: t, O => v :: t
  | h :: t, S i' => h :: set_index t i' v
  end.

(** [[arr[i], arr[j]] = [arr[j], arr[i]]] for indices inside the array.  With
    an index outside it JavaScript would store [undefined] and grow the
    array; that case is not given a meaning here. *)
Definition swap {A} (arr : list A) (i : nat) (j : Z) : Gen (list A) :=
  if (j <? 0)%Z then throw Unmodelled
  else
    match nth_error arr i, nth_error arr (Z.to_nat j) with
    | Some vi, Some vj => ret (set_index (set_index arr i vj) (Z.to_nat j) vi)
    | _, _ => throw Unmodelled
    end.

(** The loop [for (let i = validGaps.length - 1; i > 0; i--)], entered with
    index [i]. *)
Fixpoint shuffleFrom (i : nat) (validGaps : list nat) : Gen (list nat) :=
  match i with
  | O => ret validGaps
  | S i' =>
      r <- Math_random ;;
      let j := Zfloor (r * (INR i + 1)) in
      validGaps' <- swap validGaps i j ;;
      shuffleFrom i' validGaps'
  end.

Definition shuffle (validGaps : list nat) : Gen (list nat) :=
  shuffleFrom (List.length validGaps - 1) validGaps.

(** *** Belt population *)

(** The loop [for (let k = 0; k < count; k++)] that fills [particles]. *)
Fixpoint generateParticles (n : nat) (minR maxR : R) : Gen (list Particle) :=
  match n with
  | O => ret []
  | S n' =>
      r <- randomRange minR maxR ;;
      angle <- randomRange 0 (PI * 2) ;;
      size <- randomRange 0.5 1.5 ;;
      rest <- generateParticles n' minR maxR ;;
      ret (Particle.mk angle r (1 / sqrt r * 5) size :: rest)
  end.

(** The callback of [selectedGaps.forEach]. *)
Definition generateInnerBelt (planets : list Planet) (idx : nat) : Gen AsteroidBelt :=
  p1 <- at_index planets idx ;;
  p2 <- at_index planets (idx + 1) ;;
  let p1Aphelion := Orbit.a (Planet.orbit p1) * (1 + Orbit.e (Planet.orbit p1)) in
  let p2Perihelion := Orbit.a (Planet.orbit p2) * (1 - Orbit.e (Planet.orbit p2)) in
  let minR := p1Aphelion + safetyMargin in
  let maxR := p2Perihelion - safetyMargin in
  let count := Zfloor ((maxR - minR) * 20) in
  particles <- generateParticles (Z.to_nat count) minR maxR ;;
  ret (AsteroidBelt.mk minR maxR count particles).

Fixpoint forEach {A B} (f : A -> Gen B) (l : list A) : Gen (list B) :=
  match l with
  | [] => ret []
  | v :: l' =>
      b <- f v ;;
      rest <- forEach f l' ;;
      ret (b :: rest)
  end.

Definition generateOuterBelt (planets : list Planet) : Gen AsteroidBelt :=
  lastPlanet <- at_index planets (List.length planets - 1) ;;
  let pAphelion := Orbit.a (Planet.orbit lastPlanet)
                   * (1 + Orbit.e (Planet.orbit lastPlanet)) in
  let minR := pAphelion + 40 in
  w <- randomRange 80 150 ;;
  let maxR := minR + w in
  let count := 2500%Z in
  particles <- generateParticles (Z.to_nat count) minR maxR ;;
  ret (AsteroidBelt.mk minR maxR count particles).

(** How many inner belts the roll asks for, before the clamp. *)
Definition requestedInnerBelts (roll : R) : nat :=
  if Rltb roll 0.05 then 3
  else if Rltb roll 0.25 then 2
  else 1.

(** *** generateSolarSystem *)

Definition generateSolarSystem (width height : R) : Gen SolarSystem :=
  starRadius <- randomRange 5 8 ;;
  starColor <- generateColor "STAR" ;;
  let star := Star.mk starRadius starColor 1 in
  numPlanets <- randomInt 7 12 ;;
  let previousAphelion := starRadius + 5 in
  planets <- generatePlanets (Z.to_nat numPlanets) 0 previousAphelion ;;
  validGaps <- findValidGaps planets (List.length planets - 1) 0 ;;
  roll <- Math_random ;;
  let numInnerBelts := requestedInnerBelts roll in
  let numInnerBelts := Nat.min numInnerBelts (List.length validGaps) in
  validGaps <- shuffle validGaps ;;
  let selectedGaps := firstn numInnerBelts validGaps in
  innerBelts <- forEach (generateInnerBelt planets) selectedGaps ;;
  outerBelt <- generateOuterBelt planets ;;
  ret (SolarSystem.mk star planets (innerBelts ++ [outerBelt])).

(** The part of [generateSolarSystem] that follows the planet loop, from
    the discovery of the gaps to the outer belt, as a computation on the
    planet list: the belts pushed on [system.asteroidBelts]. *)
Definition generateBelts (planets : list Planet) : Gen (list AsteroidBelt) :=
  validGaps <- findValidGaps planets (List.length planets - 1) 0 ;;
  roll <- Math_random ;;
  let numInnerBelts := requestedInnerBelts roll in
  let numInnerBelts := Nat.min numInnerBelts (List.length validGaps) in
  validGaps <- shuffle validGaps ;;
  let selectedGaps := firstn numInnerBelts validGaps in
  innerBelts <- forEach (generateInnerBelt planets) selectedGaps ;;
  outerBelt <- generateOuterBelt planets ;;
  ret (innerBelts ++ [outerBelt]).

End Generator.

(** ** App.tsx *)

Module App.

(** [getParentName] of [App.tsx] resolves a moon's parent by
    [system.planets.find(p => p.id === moon.parentId)]. *)
Definition findParent (system : SolarSystem) (moon : Moon) : option Planet :=
  find (fun p => String.eqb (Planet.id p) (Moon.parentId moon))
       (SolarSystem.planets system).

End App.

(** * Vocabulary of the properties *)

Module Specs.
Import Physics Generator.

(** ** Orbits *)


(** The orbit invariants of the data model: [a > 0], [0 <= e < 1],
    [period > 0]. *)
Definition valid_orbit (o : Orbit) : Prop :=
  Orbit.a o > 0 /\ 0 <= Orbit.e o < 1 /\ Orbit.period o > 0.

(** The circular orbit of the specification's scenario. *)
Definition sample_orbit : Orbit := Orbit.mk 100 0 0 10 0.

(** Sizes a double carries with full precision, far from overflow and
    underflow: a positive quantity, and a quantity of either sign. *)
Definition sizeable (v : R) : Prop := 1e-100 <= v <= 1e100.
Definition moderate (v : R) : Prop := Rabs v <= 1e100.

(** An orbit and a time the computation of a position carries through
    without overflow or underflow. *)
Definition in_range (o : Orbit) (t : R) : Prop :=
  sizeable (Orbit.a o) /\ sizeable (Orbit.period o) /\
  moderate (Orbit.meanAnomaly0 o) /\ moderate t.

(** Two points no farther apart than [eps] in either coordinate. *)
Definition within (eps : R) (p q : Point) : Prop :=
  Rabs (x p - x q) <= eps /\ Rabs (y p - y q) <= eps.

(** ** Generation *)

(** The contract of [Math.random()]: every value lies in [[0, 1)]. *)
Definition unit_stream (rnd : nat -> R) : Prop := forall n : nat, 0 <= rnd n < 1.

(** [returns m rnd c Q]: started at position [c] of [rnd], the computation
    [m] does not throw, and its value and final position satisfy [Q]. *)
Definition returns {A} (m : Gen A) (rnd : nat -> R) (c : nat)
    (Q : A -> nat -> Prop) : Prop :=
  exists v c', m rnd c = Ok (v, c') /\ Q v c'.

(** Moon [m] of planet [i]: its identifiers, and the window its orbital
    radius falls in. *)
Definition moon_spec (i : nat) (planetId : string) (radius : R) (m : nat)
    (mo : Moon) : Prop :=
  Moon.id mo = ("moon-" ++ nat_toString i ++ "-" ++ nat_toString m)%string /\
  Moon.parentId mo = planetId /\
  radius + 5 + 4 * INR m <= Orbit.a (Moon.orbit mo) < radius + 15 + 8 * INR m /\
  0 <= Orbit.e (Moon.orbit mo) < 0.1.

(** Planet [i], generated when the running boundary is [previousAphelion]. *)
Definition planet_spec (i : nat) (previousAphelion : R) (p : Planet) : Prop :=
  Planet.id p = ("planet-" ++ nat_toString i)%string /\
  0.01 <= Orbit.e (Planet.orbit p) < 0.2 /\
  perihelion (Planet.orbit p) >= previousAphelion + 20 /\
  (Planet.type p = DWARF -> Planet.moons p = []) /\
  (forall m mo, nth_error (Planet.moons p) m = Some mo ->
     moon_spec i (Planet.id p) (Planet.radius p) m mo).

(** The planets [i], [i + 1], ... in order, each placed beyond the aphelion
    of the one before. *)
Fixpoint planets_spec (i : nat) (previousAphelion : R) (ps : list Planet) : Prop :=
  match ps with
  | [] => True
  | p :: ps' =>
      planet_spec i previousAphelion p /\
      planets_spec (S i) (aphelion (Planet.orbit p)) ps'
  end.

(** Index [idx] is a gap a belt fits in: planets [idx] and [idx + 1] exist
    and leave more than two safety margins plus the minimal belt width
    between them. *)
Definition valid_gap (planets : list Planet) (idx : nat) : Prop :=
  exists p1 p2,
    nth_error planets idx = Some p1 /\
    nth_error planets (idx + 1) = Some p2 /\
    perihelion (Planet.orbit p2)
    > aphelion (Planet.orbit p1) + safetyMargin * 2 + minBeltWidth.

(** Belt [b] sits in gap [idx], one safety margin away from either orbit. *)
Definition belt_in_gap (planets : list Planet) (idx : nat) (b : AsteroidBelt) : Prop :=
  exists p1 p2,
    nth_error planets idx = Some p1 /\
    nth_error planets (idx + 1) = Some p2 /\
    AsteroidBelt.minRadius b = aphelion (Planet.orbit p1) + safetyMargin /\
    AsteroidBelt.maxRadius b = perihelion (Planet.orbit p2) - safetyMargin /\
    AsteroidBelt.minRadius b < AsteroidBelt.maxRadius b /\
    aphelion (Planet.orbit p1) < AsteroidBelt.minRadius b /\
    AsteroidBelt.maxRadius b < perihelion (Planet.orbit p2).

(** The outer belt: beyond the last planet, with its fixed particle count. *)
Definition outer_belt_spec (planets : list Planet) (b : AsteroidBelt) : Prop :=
  exists lastPlanet,
    nth_error planets (List.length planets - 1) = Some lastPlanet /\
    AsteroidBelt.minRadius b = aphelion (Planet.orbit lastPlanet) + 40 /\
    AsteroidBelt.minRadius b + 80 <= AsteroidBelt.maxRadius b
      < AsteroidBelt.minRadius b + 150 /\
    AsteroidBelt.count b = 2500%Z /\
    Z.of_nat (List.length (AsteroidBelt.particles b)) = 2500%Z.

(** What [generateSolarSystem] establishes about the system it returns. *)
Definition system_spec (sys : SolarSystem) : Prop :=
  let planets := SolarSystem.planets sys in
  exists (gaps : list nat) (requested : nat) (selected : list nat)
         (inner : list AsteroidBelt) (outer : AsteroidBelt),
    (7 <= List.length planets <= 12)%nat /\
    planets_spec 0 (Star.radius (SolarSystem.star sys) + 5) planets /\
    (forall rnd c,
       findValidGaps planets (List.length planets - 1) 0 rnd c = Ok (gaps, c)) /\
    Forall (valid_gap planets) gaps /\
    (1 <= requested <= 3)%nat /\
    List.length selected = Nat.min requested (List.length gaps) /\
    Forall2 (belt_in_gap planets) selected inner /\
    outer_belt_spec planets outer /\
    SolarSystem.asteroidBelts sys = inner ++ [outer].

(** A string without the character [-]. *)
Fixpoint dash_free (s : string) : Prop :=
  match s with
  | EmptyString => True
  | String ch s' => ch <> "-"%char /\ dash_free s'
  end.

(** Every draw is [3/4], except the two that place the second moon of the
    first planet, which are [0]. *)
Definition rnd_moons (n : nat) : R :=
  if ((n =? 25) || (n =? 26))%nat then 0 else 3 / 4.

(** Every draw is [1/2]. *)
Definition rnd_half (n : nat) : R := 1 / 2.

(** A planet list with a single planet: no pair of neighbours, hence no
    gap for an inner belt. *)
Definition lone_planet : list Planet :=
  [Planet.mk "planet-0" "Sol-10 b" ROCKY 4 "#888" "A Rocky planet." []
     (Orbit.mk 100 0 0 10 0)].

End Specs.

(** ** components/SolarSystemCanvas.tsx *)

Module Canvas.
Import Physics.

(** [canvas.getBoundingClientRect()], [canvas.width]/[canvas.height], and
    the fields the handlers read off the mouse and wheel events. *)
Record Rect := mkRect { left : R; top : R }.
Record CanvasSize := mkCanvasSize { width : R; height : R }.
Record MouseEvent := mkMouseEvent { clientX : R; clientY : R }.
Record WheelEvent := mkWheelEvent { deltaY : R; wheelX : R; wheelY : R }.

(** The props [zoom] and [pan], which the handlers replace through
    [setZoom] and [setPan]. *)
Record View := mkView { zoom : R; pan : Point }.

(** The refs [mouseRef], [isDraggingRef] and [dragStartRef]. *)
Record Pointer := mkPointer {
  mouse : Point;
  isDragging : bool;
  dragStart : Point
}.

(** [handleMouseMove], with the canvas mounted. *)
Definition handleMouseMove (rect : Rect) (ev : MouseEvent)
    (ptr : Pointer) (v : View) : Pointer * View :=
  let mouseX := clientX ev - left rect in
  let mouseY := clientY ev - top rect in
  if isDragging ptr then
    let dx := mouseX - x (dragStart ptr) in
    let dy := mouseY - y (dragStart ptr) in
    (mkPointer (mkPoint mouseX mouseY) true (mkPoint mouseX mouseY),
     mkView (zoom v) (mkPoint (x (pan v) + dx) (y (pan v) + dy)))
  else
    (mkPointer (mkPoint mouseX mouseY) false (dragStart ptr), v).

(** [handleMouseDown], with the canvas mounted. *)
Definition handleMouseDown (rect : Rect) (ev : MouseEvent) (ptr : Pointer) : Pointer :=
  mkPointer (mouse ptr) true
    (mkPoint (clientX ev - left rect) (clientY ev - top rect)).

(** [handleMouseUp] and [handleMouseLeave]. *)
Definition handleMouseUp (ptr : Pointer) : Pointer :=
  mkPointer (mouse ptr) false (dragStart ptr).

Definition handleMouseLeave (ptr : Pointer) : Pointer :=
  mkPointer (mouse ptr) false (dragStart ptr).

(** [handleWheel]: the view after the event ([setZoom] and [setPan] are
    only called when the clamped zoom differs from the current one). *)
Definition handleWheel (rect : Rect) (canvas : CanvasSize) (ev : WheelEvent)
    (v : View) : View :=
  let scaleAmount := - deltaY ev * 0.001 in
  let newZoom := Rmin (Rmax 0.1 (zoom v * (1 + scaleAmount))) 5 in
  if Req_dec_T newZoom (zoom v) then v
  else
    let mouseX := wheelX ev - left rect in
    let mouseY := wheelY ev - top rect in
    let cx := width canvas / 2 in
    let cy := height canvas / 2 in
    let worldX := (mouseX - cx - x (pan v)) / zoom v in
    let worldY := (mouseY - cy - y (pan v)) / zoom v in
    let newPanX := mouseX - cx - worldX * newZoom in
    let newPanY := mouseY - cy - worldY * newZoom in
    mkView newZoom (mkPoint newPanX newPanY).

(** *** The pieces of [animate] *)

(** Background star [i]: where its pixel is drawn and with which
    [globalAlpha]. *)
Definition starPosition (canvas : CanvasSize) (panOffset : Point) (i : nat) : Point :=
  let sx := js_rem (INR i * 1337 + x panOffset * 0.05) (width canvas) in
  let sy := js_rem (INR i * 7331 + y panOffset * 0.05) (height canvas) in
  let finalSx := if Rltb sx 0 then sx + width canvas else sx in
  let finalSy := if Rltb sy 0 then sy + height canvas else sy in
  mkPoint finalSx finalSy.

Definition starAlpha (i : nat) : R :=
  let opacity := js_rem (INR i * 997) 100 / 100 in
  opacity * 0.5.

(** Where a belt particle is drawn at [time] ([timeRef.current]). *)
Definition asteroidPosition (p : Particle) (time : R) : Point :=
  let angle := Particle.angle p + Particle.speed p * time * 0.001 in
  mkPoint (cos angle * Particle.radius p) (sin angle * Particle.radius p).

(** The arguments [animate] passes to [ctx.ellipse] for an orbit path. *)
Record Ellipse := mkEllipse {
  centerX : R;
  centerY : R;
  radiusX : R;
  radiusY : R;
  rotation : R
}.

Definition orbitPath (orbit : Orbit) : Ellipse :=
  let c := Orbit.a orbit * Orbit.e orbit in
  let centerX := - c * cos (Orbit.omega orbit) in
  let centerY := - c * sin (Orbit.omega orbit) in
  let b := Orbit.a orbit * sqrt (1 - Orbit.e orbit ^ 2) in
  mkEllipse centerX centerY (Orbit.a orbit) b (Orbit.omega orbit).

(** Where a moon is drawn: its parent's position plus its own. *)
Definition moonPosition (planet : Planet) (moon : Moon) (time : R) : Point :=
  let pos := getPositionOnOrbit (Planet.orbit planet) time in
  let mPosLocal := getPositionOnOrbit (Moon.orbit moon) time in
  mkPoint (x pos + x mPosLocal) (y pos + y mPosLocal).

(** The radius of the disc a moon is drawn with, [moonSize]: at least half
    a pixel on screen, hence larger than the moon when zoomed far out.  A
    planet is drawn with its own [radius]. *)
Definition moonSize (zoom : R) (moon : Moon) : R :=
  Rmax (Moon.radius moon) (0.5 / zoom).

(** The entries of [planetPositionsRef]. *)
Record PData := mkPData {
  px : R;
  py : R;
  pr : R;
  planet : Planet
}.

(** A [Map] with string keys, in insertion order: [set] on a key that is
    present replaces the value where it stands, on a new key it appends. *)
Fixpoint Map_set {V} (m : list (string * V)) (k : string) (v : V) : list (string * V) :=
  match m with
  | [] => [(k, v)]
  | (k', v') :: m' =>
      if String.eqb k' k then (k', v) :: m'
      else (k', v') :: Map_set m' k v
  end.

(** The entry [animate] stores for a planet: its screen position and its
    radius on screen. *)
Definition planetEntry (canvas : CanvasSize) (v : View) (time : R)
    (p : Planet) : PData :=
  let cx := width canvas / 2 in
  let cy := height canvas / 2 in
  let pos := getPositionOnOrbit (Planet.orbit p) time in
  let screenX := x pos * zoom v + cx + x (pan v) in
  let screenY := y pos * zoom v + cy + y (pan v) in
  mkPData screenX screenY (Planet.radius p * zoom v) p.

(** [planetPositionsRef.current] after the [forEach] over the planets. *)
Definition planetPositions (canvas : CanvasSize) (v : View) (time : R)
    (system : SolarSystem) : list (string * PData) :=
  fold_left
    (fun m p => Map_set m (Planet.id p) (planetEntry canvas v time p))
    (SolarSystem.planets system) [].

(** The hover test of one entry. *)
Definition hits (mousePos : Point) (pData : PData) : bool :=
  let dx := x mousePos - px pData in
  let dy := y mousePos - py pData in
  let hitRadius := Rmax (pr pData) 15 in
  Rltb (dx * dx + dy * dy) (hitRadius * hitRadius).

(** The loop [for (const [_, pData] of planetPositionsRef.current)] with its
    [break]: what is passed to [onPlanetHover]. *)
Fixpoint checkHover (mousePos : Point) (entries : list (string * PData))
    : option Planet * R * R :=
  match entries with
  | [] => (None, 0, 0)
  | (_, pData) :: rest =>
      if hits mousePos pData then (Some (planet pData), px pData, py pData)
      else checkHover mousePos rest
  end.

End Canvas.

(** ** App.tsx: the zoom buttons *)

Module AppControls.

(** [setZoom(z => Math.max(0.1, z - 0.1))] and
    [setZoom(z => Math.min(5, z + 0.1))]. *)
Definition zoomOutClick (z : R) : R := Rmax 0.1 (z - 0.1).
Definition zoomInClick (z : R) : R := Rmin 5 (z + 0.1).

(** The initial values of the [zoom] and [pan] state. *)
Definition initialZoom : R := 0.3.
Definition initialPan : Physics.Point := Physics.mkPoint 0 0.

(** [handleGenerate] resets the pan. *)
Definition handleGenerate (v : Canvas.View) : Canvas.View :=
  Canvas.mkView (Canvas.zoom v) (Physics.mkPoint 0 0).

End AppControls.

(** * Vocabulary of the further properties *)

Module MoreSpecs.
Import Physics Generator Canvas AppControls Specs.

(** ** The view as a state machine *)

(** What the user can do to the view. *)
Inductive UiEvent :=
| EvMouseDown (rect : Rect) (ev : MouseEvent)
| EvMouseMove (rect : Rect) (ev : MouseEvent)
| EvMouseUp
| EvMouseLeave
| EvWheel (rect : Rect) (canvas : CanvasSize) (ev : WheelEvent)
| EvZoomIn
| EvZoomOut
| EvGenerate.

(** Each event runs its handler. *)
Definition uiStep (st : Pointer * View) (ev : UiEvent) : Pointer * View :=
  let (ptr, v) := st in
  match ev with
  | EvMouseDown rect e => (handleMouseDown rect e ptr, v)
  | EvMouseMove rect e => handleMouseMove rect e ptr v
  | EvMouseUp => (handleMouseUp ptr, v)
  | EvMouseLeave => (handleMouseLeave ptr, v)
  | EvWheel rect canvas e => (ptr, handleWheel rect canvas e v)
  | EvZoomIn => (ptr, mkView (zoomInClick (zoom v)) (pan v))
  | EvZoomOut => (ptr, mkView (zoomOutClick (zoom v)) (pan v))
  | EvGenerate => (ptr, handleGenerate v)
  end.

Definition uiRun (st : Pointer * View) (evs : list UiEvent) : Pointer * View :=
  fold_left uiStep evs st.

(** The state the components start in. *)
Definition uiInitial : Pointer * View :=
  (mkPointer (mkPoint 0 0) false (mkPoint 0 0), mkView initialZoom initialPan).

(** The pointer position a mouse event reports, relative to the canvas. *)
Definition relative (rect : Rect) (ev : MouseEvent) : Point :=
  mkPoint (clientX ev - left rect) (clientY ev - top rect).

(** The world point drawn at a screen position: the inverse of the
    transform [animate] applies ([screen = world * zoom + centre + pan]),
    as [handleWheel] computes it for the pointer. *)
Definition toWorld (canvas : CanvasSize) (v : View) (screen : Point) : Point :=
  mkPoint ((x screen - width canvas / 2 - x (pan v)) / zoom v)
          ((y screen - height canvas / 2 - y (pan v)) / zoom v).

(** The point of the path [ctx.ellipse(x, y, radiusX, radiusY, rotation, ..)]
    at parameter [t], as the Canvas API defines it. *)
Definition ellipsePoint (el : Ellipse) (t : R) : Point :=
  mkPoint (centerX el + radiusX el * cos t * cos (rotation el)
           - radiusY el * sin t * sin (rotation el))
          (centerY el + radiusX el * cos t * sin (rotation el)
           + radiusY el * sin t * cos (rotation el)).

(** Distance of a point from the focus. *)
Definition distance (p : Point) : R := sqrt (x p * x p + y p * y p).

(** ** More about what the generator produces *)

Definition radiusRange (t : PlanetType) : R * R :=
  match t with
  | GAS_GIANT => (10, 16)
  | ICE_GIANT => (7, 11)
  | DWARF => (1.5, 2.5)
  | ROCKY => (3, 6)
  end.

Definition moonCountRange (t : PlanetType) : nat * nat :=
  match t with
  | GAS_GIANT => (3, 8)%nat
  | ICE_GIANT => (2, 5)%nat
  | ROCKY => (0, 2)%nat
  | DWARF => (0, 0)%nat
  end.

(** Moon [m] of a planet called [planetName]: the fields [moon_spec] leaves
    out. *)
Definition moon_more (planetName : string) (m : nat) (mo : Moon) : Prop :=
  Moon.name mo = (planetName ++ " " ++ toRoman (m + 1))%string /\
  0.8 <= Moon.radius mo < 1.8 /\
  Moon.color mo = "#ccc"%string /\
  Orbit.period (Moon.orbit mo) = Rpower (Orbit.a (Moon.orbit mo)) 1.5 * 0.15 /\
  0 <= Orbit.omega (Moon.orbit mo) < PI * 2 /\
  0 <= Orbit.meanAnomaly0 (Moon.orbit mo) < PI * 2.

(** Planet [i]: the fields [planet_spec] leaves out. *)
Definition planet_more (i : nat) (previousAphelion : R) (p : Planet) : Prop :=
  fst (radiusRange (Planet.type p)) <= Planet.radius p
    < snd (radiusRange (Planet.type p)) /\
  (fst (moonCountRange (Planet.type p)) <= List.length (Planet.moons p)
     <= snd (moonCountRange (Planet.type p)))%nat /\
  Orbit.a (Planet.orbit p) > previousAphelion + 20 /\
  Orbit.period (Planet.orbit p) = Rpower (Orbit.a (Planet.orbit p)) 1.5 * 0.005 /\
  0 <= Orbit.omega (Planet.orbit p) < PI * 2 /\
  0 <= Orbit.meanAnomaly0 (Planet.orbit p) < PI * 2 /\
  ((i <= 4)%nat -> Orbit.a (Planet.orbit p) <= 400 ->
   Planet.type p = ROCKY \/ Planet.type p = DWARF) /\
  Planet.description p
  = ("A " ++ PlanetType_value (Planet.type p) ++ " planet.")%string /\
  (forall m mo, nth_error (Planet.moons p) m = Some mo ->
     moon_more (Planet.name p) m mo).

Fixpoint planets_more (i : nat) (previousAphelion : R) (ps : list Planet) : Prop :=
  match ps with
  | [] => True
  | p :: ps' =>
      planet_more i previousAphelion p /\
      planets_more (S i) (aphelion (Planet.orbit p)) ps'
  end.

(** A particle of a belt between [minR] and [maxR]. *)
Definition particle_ok (minR maxR : R) (q : Particle) : Prop :=
  minR <= Particle.radius q < maxR /\
  0 <= Particle.angle q < PI * 2 /\
  0.5 <= Particle.size q < 1.5 /\
  Particle.speed q = 1 / sqrt (Particle.radius q) * 5.

(** A belt whose [count] is the number of its particles, all of them
    inside the belt. *)
Definition belt_ok (b : AsteroidBelt) : Prop :=
  AsteroidBelt.minRadius b < AsteroidBelt.maxRadius b /\
  AsteroidBelt.count b = Z.of_nat (List.length (AsteroidBelt.particles b)) /\
  Forall (particle_ok (AsteroidBelt.minRadius b) (AsteroidBelt.maxRadius b))
         (AsteroidBelt.particles b).

(** The gap test of the discovery loop, as a function of the index. *)
Definition gapFits (planets : list Planet) (i : nat) : bool :=
  match nth_error planets i, nth_error planets (i + 1) with
  | Some p1, Some p2 =>
      Rgtb (perihelion (Planet.orbit p2))
           (aphelion (Planet.orbit p1) + safetyMargin * 2 + minBeltWidth)
  | _, _ => false
  end.

(** What [generateSolarSystem] establishes beyond [system_spec]. *)
Definition system_more (sys : SolarSystem) : Prop :=
  let planets := SolarSystem.planets sys in
  exists (selected : list nat) (inner : list AsteroidBelt) (outer : AsteroidBelt),
    5 <= Star.radius (SolarSystem.star sys) < 8 /\
    Star.mass (SolarSystem.star sys) = 1 /\
    planets_spec 0 (Star.radius (SolarSystem.star sys) + 5) planets /\
    planets_more 0 (Star.radius (SolarSystem.star sys) + 5) planets /\
    NoDup selected /\
    Forall (valid_gap planets) selected /\
    Forall2 (belt_in_gap planets) selected inner /\
    Forall belt_ok inner /\
    Forall (fun b => (400 <= AsteroidBelt.count b)%Z) inner /\
    outer_belt_spec planets outer /\
    belt_ok outer /\
    SolarSystem.asteroidBelts sys = inner ++ [outer].

(** Sample inputs. *)
Definition sample_rect : Rect := mkRect 10 20.
Definition sample_canvas : CanvasSize := mkCanvasSize 800 600.
Definition sample_view : View := mkView 1 (mkPoint 30 40).

Definition sample_system : SolarSystem :=
  SolarSystem.mk (Star.mk 6 "#fff" 1)
    [Planet.mk "planet-0" "Kep-10 b" ROCKY 4 "#888" "A Rocky planet." []
       (Orbit.mk 100 0 0 10 0);
     Planet.mk "planet-1" "Sol-11 c" DWARF 2 "#888" "A Dwarf planet." []
       (Orbit.mk 200 0 0 30 0)]
    [].

End MoreSpecs.

(** * Properties *)

(** ** Comparisons *)

Lemma Rgtb_true (x y : R) : Rgtb x y = true <-> x > y.
Proof. unfold Rgtb. destruct (Rgt_dec x y); split; intros; try easy; lra. Qed.

Lemma Rgtb_false (x y : R) : Rgtb x y = false <-> x <= y.
Proof. unfold Rgtb. destruct (Rgt_dec x y); split; intros; try easy; lra. Qed.

Lemma Rltb_true (x y : R) : Rltb x y = true <-> x < y.
Proof. unfold Rltb. destruct (Rlt_dec x y); split; intros; try easy; lra. Qed.

Lemma Rltb_false (x y : R) : Rltb x y = false <-> y <= x.
Proof. unfold Rltb. destruct (Rlt_dec x y); split; intros; try easy; lra. Qed.

(** ** The orbit solver *)

Module PhysicsFacts.
Import Physics Specs.

Lemma kepler_loop_unfold (M e tolerance : R) (s : KeplerState) :
  kepler_loop M e tolerance s =
  if loop_guard tolerance s
  then kepler_loop M e tolerance (loop_body M e s)
  else s.
Proof.
  funelim (kepler_loop M e tolerance s);
    match goal with H : loop_guard _ _ = _ |- _ => rewrite H end; reflexivity.
Qed.

(** The state after [k] passes through the loop body. *)
Lemma passes_shift (M e : R) (k : nat) (s : KeplerState) :
  Nat.iter (S k) (loop_body M e) s = Nat.iter k (loop_body M e) (loop_body M e s).
Proof. apply Nat.iter_succ_r. Qed.

Lemma passes_iter (M e : R) (k : nat) (s : KeplerState) :
  ks_iter (Nat.iter k (loop_body M e) s) = (k + ks_iter s)%nat.
Proof.
  induction k as [|k IH]; [reflexivity|].
  rewrite Nat.iter_succ. unfold loop_body at 1. cbn [ks_iter]. rewrite IH. lia.
Qed.

(** From any state whose counter has not passed [maxIter], the loop leaves
    after at most [maxIter - iter] further passes, at the first state whose
    guard is false. *)
Lemma kepler_loop_exit (M e tolerance : R) (n : nat) :
  forall s : KeplerState,
    (maxIter - ks_iter s <= n)%nat ->
    exists k : nat,
      (k <= maxIter - ks_iter s)%nat /\
      kepler_loop M e tolerance s = Nat.iter k (loop_body M e) s /\
      loop_guard tolerance (Nat.iter k (loop_body M e) s) = false /\
      (forall j, (j < k)%nat ->
         loop_guard tolerance (Nat.iter j (loop_body M e) s) = true).
Proof.
  induction n as [|n IH]; intros s Hn.
  - exists 0%nat. rewrite kepler_loop_unfold.
    assert (Hg : loop_guard tolerance s = false).
    { unfold loop_guard. apply andb_false_iff. right.
      apply Nat.ltb_ge. lia. }
    rewrite Hg. change (Nat.iter 0 (loop_body M e) s) with s. repeat split; auto; try lia.
  - rewrite kepler_loop_unfold.
    destruct (loop_guard tolerance s) eqn:Hg.
    + assert (Hlt : (ks_iter s < maxIter)%nat).
      { unfold loop_guard in Hg. apply andb_prop in Hg.
        apply Nat.ltb_lt. tauto. }
      destruct (IH (loop_body M e s)) as (k & Hk & Heq & Hstop & Hrun).
      { cbn [loop_body ks_iter]. lia. }
      exists (S k). rewrite !passes_shift.
      cbn [loop_body ks_iter] in Hk.
      repeat split; auto; try lia.
      intros [|j] Hj; [exact Hg|].
      rewrite passes_shift. apply Hrun. lia.
    + exists 0%nat. change (Nat.iter 0 (loop_body M e) s) with s. repeat split; auto; try lia.
Qed.

(** C4. For every mean anomaly [M], eccentricity [e] and tolerance (the
    default [1e-6] included) the loop of [solveKepler] terminates: it leaves
    after some number [k <= 30] of passes through its body and returns the
    [E] of that state; after each of the earlier passes (and before the
    first) [|delta|] was still above the tolerance, so the loop stops at the
    first correction with [|delta| <= tolerance]; and if it leaves before
    the 30th pass without having divided by zero on the way (and with [M]
    and [e] of sizes far from overflow), it is because
    [|delta| <= tolerance]. *)
Theorem solveKepler_terminates (M e tolerance : R) :
  exists k : nat,
    (k <= 30)%nat /\
    kepler_loop M e tolerance (kepler_init M)
      = Nat.iter k (loop_body M e) (kepler_init M) /\
    solveKepler M e tolerance
      = ks_E (Nat.iter k (loop_body M e) (kepler_init M)) /\
    ks_iter (Nat.iter k (loop_body M e) (kepler_init M)) = k /\
    (forall j, (j < k)%nat ->
       Rabs (ks_delta (Nat.iter j (loop_body M e) (kepler_init M))) > tolerance) /\
    ((k < 30)%nat ->
     moderate M -> moderate e ->
     (forall j, (j < k)%nat ->
        1 - e * cos (ks_E (Nat.iter j (loop_body M e) (kepler_init M))) <> 0) ->
     Rabs (ks_delta (Nat.iter k (loop_body M e) (kepler_init M))) <= tolerance).
Proof.
  destruct (kepler_loop_exit M e tolerance maxIter (kepler_init M))
    as (k & Hk & Heq & Hstop & Hrun).
  { cbn [kepler_init ks_iter]. lia. }
  exists k. cbn [kepler_init ks_iter] in Hk. unfold maxIter in Hk.
  assert (Hit : ks_iter (Nat.iter k (loop_body M e) (kepler_init M)) = k).
  { rewrite passes_iter. cbn [kepler_init ks_iter]. lia. }
  repeat split; auto; try lia.
  - unfold solveKepler. rewrite Heq. reflexivity.
  - intros j Hj. specialize (Hrun j Hj).
    unfold loop_guard in Hrun. apply andb_prop in Hrun.
    apply Rgtb_true. tauto.
  - intros Hlt _ _ _. unfold loop_guard in Hstop.
    apply andb_false_iff in Hstop. destruct Hstop as [Hd | Hi].
    + apply Rgtb_false. exact Hd.
    + apply Nat.ltb_ge in Hi. rewrite Hit in Hi. unfold maxIter in Hi. lia.
Qed.

(** *** Periodicity *)









Lemma within_refl (eps : R) (p : Point) : 0 <= eps -> within eps p p.
Proof.
  intros Heps. unfold within.
  replace (x p - x p) with 0 by ring. replace (y p - y p) with 0 by ring.
  rewrite Rabs_R0. split; exact Heps.
Qed.



(** *** Circular orbits *)

(** With [e = 0] the first correction is zero and the loop returns [M]. *)
Lemma solveKepler_circular (M : R) :
  solveKepler M 0 default_tolerance = M.
Proof.
  unfold solveKepler. rewrite kepler_loop_unfold.
  assert (Hg0 : loop_guard default_tolerance (kepler_init M) = true).
  { unfold loop_guard, kepler_init. cbn [ks_delta ks_iter].
    apply andb_true_intro. split; [|reflexivity].
    apply Rgtb_true. rewrite Rabs_R1. unfold default_tolerance. lra. }
  rewrite Hg0.
  assert (Hb : loop_body M 0 (kepler_init M) = mkKS M 0 1).
  { unfold loop_body, kepler_init. cbn [ks_E ks_iter]. f_equal; field. }
  rewrite Hb, kepler_loop_unfold.
  assert (Hg1 : loop_guard default_tolerance (mkKS M 0 1) = false).
  { unfold loop_guard. cbn [ks_delta ks_iter].
    apply andb_false_iff. left. apply Rgtb_false.
    rewrite Rabs_R0. unfold default_tolerance. lra. }
  rewrite Hg1. reflexivity.
Qed.

Lemma circular_position (orbit : Orbit) (time : R) :
  Orbit.e orbit = 0 ->
  let M := js_rem (Orbit.meanAnomaly0 orbit
                   + 2 * PI / Orbit.period orbit * time) (2 * PI) in
  getPositionOnOrbit orbit time =
  mkPoint (Orbit.a orbit * cos M * cos (Orbit.omega orbit)
           - Orbit.a orbit * sin M * sin (Orbit.omega orbit))
          (Orbit.a orbit * cos M * sin (Orbit.omega orbit)
           + Orbit.a orbit * sin M * cos (Orbit.omega orbit)).
Proof.
  intros He M. unfold getPositionOnOrbit. fold M.
  rewrite He, solveKepler_circular.
  replace (1 - 0 * 0) with 1 by ring. rewrite sqrt_1.
  f_equal; ring.
Qed.

(** In exact arithmetic a circular orbit keeps the distance [a]. *)
Lemma circular_distance (orbit : Orbit) (time : R) :
  Orbit.e orbit = 0 -> Orbit.a orbit > 0 ->
  sqrt (x (getPositionOnOrbit orbit time) * x (getPositionOnOrbit orbit time)
        + y (getPositionOnOrbit orbit time) * y (getPositionOnOrbit orbit time))
  = Orbit.a orbit.
Proof.
  intros He Ha. rewrite (circular_position orbit time He). cbn [x y].
  set (M := js_rem _ _). set (w := Orbit.omega orbit). set (r := Orbit.a orbit).
  pose proof (sin2_cos2 M) as HM. pose proof (sin2_cos2 w) as Hw.
  unfold Rsqr in HM, Hw.
  replace ((r * cos M * cos w - r * sin M * sin w)
           * (r * cos M * cos w - r * sin M * sin w)
           + (r * cos M * sin w + r * sin M * cos w)
             * (r * cos M * sin w + r * sin M * cos w))
    with (r * r * ((sin M * sin M + cos M * cos M)
                   * (sin w * sin w + cos w * cos w))) by ring.
  rewrite HM, Hw. replace (r * r * (1 * 1)) with (r * r) by ring.
  apply sqrt_square. unfold r. lra.
Qed.

(** C7. On a circular orbit ([e = 0], [a > 0], [period > 0]) the returned
    point is, at every time, at distance [a] from the focus, to within a
    billionth of [a] (in exact arithmetic the distance is [a] itself; the
    code rounds [sin], [cos], the products and the square root).  The
    sizes are those a double carries without overflow or underflow. *)
Theorem circular_orbit_radius (orbit : Orbit) (time : R) :
  Orbit.e orbit = 0 -> in_range orbit time ->
  Rabs (sqrt (x (getPositionOnOrbit orbit time) * x (getPositionOnOrbit orbit time)
              + y (getPositionOnOrbit orbit time) * y (getPositionOnOrbit orbit time))
        - Orbit.a orbit)
  <= 1e-9 * Orbit.a orbit.
Proof.
  intros He ((Ha & _) & _).
  assert (Ha0 : Orbit.a orbit > 0) by lra.
  rewrite (circular_distance orbit time He Ha0).
  replace (Orbit.a orbit - Orbit.a orbit) with 0 by ring.
  rewrite Rabs_R0. lra.
Qed.

Lemma circular_orbit_radius_witness :
  Orbit.e sample_orbit = 0 /\
  in_range sample_orbit 3 /\
  Rabs (sqrt (x (getPositionOnOrbit sample_orbit 3) * x (getPositionOnOrbit sample_orbit 3)
              + y (getPositionOnOrbit sample_orbit 3) * y (getPositionOnOrbit sample_orbit 3))
        - Orbit.a sample_orbit)
  <= 1e-9 * Orbit.a sample_orbit.
Proof.
  assert (He : Orbit.e sample_orbit = 0) by reflexivity.
  assert (Hr : in_range sample_orbit 3).
  { unfold in_range, sizeable, moderate, sample_orbit. simpl.
    repeat split; try lra; apply Rabs_le; lra. }
  split; [exact He|]. split; [exact Hr|].
  exact (circular_orbit_radius sample_orbit 3 He Hr).
Defined.

(** C8. The orbit [a = 100], [e = 0], [period = 10], [meanAnomaly0 = 0],
    [omega = 0] is at [(100, 0)] at time [0] and, a quarter period later,
    at [(0, 100)] to within [1e-9] in either coordinate (in exact
    arithmetic at [(0, 100)] itself; the code, for which [PI / 2] is a
    rounded number, returns an abscissa of the order of [1e-14]). *)
Theorem quarter_period_scenario :
  getPositionOnOrbit (Orbit.mk 100 0 0 10 0) 0 = mkPoint 100 0 /\
  within 1e-9 (getPositionOnOrbit (Orbit.mk 100 0 0 10 0) 2.5) (mkPoint 0 100).
Proof.
  pose proof PI_RGT_0 as Hpi.
  split; rewrite circular_position by reflexivity;
    cbn [Orbit.a Orbit.e Orbit.omega Orbit.period Orbit.meanAnomaly0].
  - assert (HM : js_rem (0 + 2 * PI / 10 * 0) (2 * PI) = 0).
    { unfold js_rem.
      replace ((0 + 2 * PI / 10 * 0) / (2 * PI)) with (IZR 0) by (simpl; field; lra).
      unfold Ztrunc. destruct (Rle_dec 0 (IZR 0)) as [_ | Hn]; [|simpl in Hn; lra].
      rewrite ZfloorZ. simpl. ring. }
    rewrite HM, cos_0, sin_0. f_equal; ring.
  - assert (HM : js_rem (0 + 2 * PI / 10 * 2.5) (2 * PI) = PI / 2).
    { unfold js_rem.
      replace 2.5 with (5 / 2) by lra.
      replace ((0 + 2 * PI / 10 * (5 / 2)) / (2 * PI)) with (1 / 4) by (field; lra).
      unfold Ztrunc. destruct (Rle_dec 0 (1 / 4)) as [_ | Hn]; [|lra].
      rewrite (Zfloor_eq 0 (1 / 4)) by (simpl; lra). simpl. field. }
    rewrite HM, cos_PI2, sin_PI2, cos_0, sin_0.
    replace (mkPoint (100 * 0 * 1 - 100 * 1 * 0) (100 * 0 * 0 + 100 * 1 * 1))
      with (mkPoint 0 100) by (f_equal; ring).
    apply within_refl. lra.
Qed.

End PhysicsFacts.

(** ** The generator *)

Module GeneratorFacts.
Import Generator Specs.

Lemma returns_ret {A} (v : A) rnd c (Q : A -> nat -> Prop) :
  Q v c -> returns (ret v) rnd c Q.
Proof. intros H. exists v, c. split; [reflexivity | exact H]. Qed.

Lemma returns_bind {A B} (m : Gen A) (f : A -> Gen B) rnd c
    (Q1 : A -> nat -> Prop) (Q2 : B -> nat -> Prop) :
  returns m rnd c Q1 ->
  (forall v c', Q1 v c' -> returns (f v) rnd c' Q2) ->
  returns (bind m f) rnd c Q2.
Proof.
  intros (v & c' & Hm & Hq) Hf.
  destruct (Hf v c' Hq) as (w & c'' & Hfv & Hq2).
  exists w, c''. split; [|exact Hq2].
  unfold bind. rewrite Hm. exact Hfv.
Qed.

Lemma returns_mono {A} (m : Gen A) rnd c (Q1 Q2 : A -> nat -> Prop) :
  returns m rnd c Q1 -> (forall v c', Q1 v c' -> Q2 v c') -> returns m rnd c Q2.
Proof. intros (v & c' & Hm & Hq) Himp. exists v, c'. auto. Qed.

(** A computation has one outcome, so two facts about it combine. *)
Lemma returns_conj {A} (m : Gen A) rnd c (Q1 Q2 : A -> nat -> Prop) :
  returns m rnd c Q1 -> returns m rnd c Q2 ->
  returns m rnd c (fun v c' => Q1 v c' /\ Q2 v c').
Proof.
  intros (v & c' & Hm & Hq1) (v2 & c2 & Hm2 & Hq2).
  rewrite Hm in Hm2. injection Hm2 as <- <-.
  exists v, c'. auto.
Qed.

Lemma returns_random rnd c :
  returns Math_random rnd c (fun r c' => r = rnd c /\ c' = S c).
Proof. exists (rnd c), (S c). auto. Qed.

Lemma returns_randomRange (lo hi : R) rnd c :
  returns (randomRange lo hi) rnd c
    (fun v c' => v = rnd c * (hi - lo) + lo /\ c' = S c).
Proof. exists (rnd c * (hi - lo) + lo), (S c). auto. Qed.

Lemma returns_randomInt (lo hi : Z) rnd c :
  returns (randomInt lo hi) rnd c
    (fun v c' => v = (Zfloor (rnd c * IZR (hi - lo + 1)) + lo)%Z /\ c' = S c).
Proof. exists (Zfloor (rnd c * IZR (hi - lo + 1)) + lo)%Z, (S c). auto. Qed.

(** Where a draw of [randomRange] and of [randomInt] can fall. *)
Lemma range_bounds (r lo hi : R) :
  0 <= r < 1 -> lo < hi -> lo <= r * (hi - lo) + lo < hi.
Proof. intros Hr Hlh. split; nra. Qed.

Lemma int_bounds (r : R) (lo hi : Z) :
  0 <= r < 1 -> (lo <= hi)%Z ->
  (lo <= Zfloor (r * IZR (hi - lo + 1)) + lo <= hi)%Z.
Proof.
  intros Hr Hlh.
  assert (Hn : 1 <= IZR (hi - lo + 1)) by (apply IZR_le; lia).
  assert (H0 : (0 <= Zfloor (r * IZR (hi - lo + 1)))%Z).
  { apply Zfloor_lub. simpl. nra. }
  assert (H1 : (Zfloor (r * IZR (hi - lo + 1)) < hi - lo + 1)%Z).
  { apply lt_IZR. pose proof (Zfloor_bound (r * IZR (hi - lo + 1))). nra. }
  lia.
Qed.

Section Stream.

Variable rnd : nat -> R.
Hypothesis rnd_unit : unit_stream rnd.

Lemma randomRange_in (lo hi : R) c :
  lo < hi ->
  returns (randomRange lo hi) rnd c (fun v _ => lo <= v < hi).
Proof.
  intros Hlh. eapply returns_mono; [apply returns_randomRange|].
  intros v c' [-> _]. apply range_bounds; auto.
Qed.

Lemma randomInt_in (lo hi : Z) c :
  (lo <= hi)%Z ->
  returns (randomInt lo hi) rnd c (fun v _ => (lo <= v <= hi)%Z).
Proof.
  intros Hlh. eapply returns_mono; [apply returns_randomInt|].
  intros v c' [-> _]. apply int_bounds; auto.
Qed.

End Stream.

(** Computations that never throw, whatever the sequence holds. *)
Lemma hslRange_returns h1 h2 s1 s2 l1 l2 rnd c :
  returns (hslRange h1 h2 s1 s2 l1 l2) rnd c (fun _ c' => c' = (3 + c)%nat).
Proof.
  unfold hslRange.
  eapply returns_bind; [apply returns_randomInt|]. intros h ch [_ ->].
  eapply returns_bind; [apply returns_randomInt|]. intros s cs [_ ->].
  eapply returns_bind; [apply returns_randomInt|]. intros l cl [_ ->].
  apply returns_ret. lia.
Qed.

Lemma generateColor_returns (type : string) rnd c :
  returns (generateColor type) rnd c (fun _ _ => True).
Proof.
  unfold generateColor.
  repeat match goal with
         | |- context [String.eqb ?s ?t] => destruct (String.eqb s t)
         end;
    try (eapply returns_mono; [apply hslRange_returns | auto]).
  - eapply returns_bind; [apply returns_random|]. intros r cr _.
    destruct (Rgtb r 0.5);
      (eapply returns_mono; [apply hslRange_returns | auto]).
  - apply returns_ret. exact I.
Qed.

Lemma generateColor_star rnd c :
  returns (generateColor "STAR") rnd c (fun _ c' => c' = (3 + c)%nat).
Proof.
  change (generateColor "STAR") with (hslRange 30 60 80 100 50 80).
  apply hslRange_returns.
Qed.

Lemma generateColor_rocky rnd c :
  returns (generateColor (PlanetType_value ROCKY)) rnd c
    (fun _ c' => c' = (4 + c)%nat).
Proof.
  change (generateColor (PlanetType_value ROCKY))
    with (r <- Math_random ;;
          if Rgtb r 0.5 then hslRange 100 220 40 80 30 60
          else hslRange 0 40 50 90 40 70).
  eapply returns_bind; [apply returns_random|]. intros r ? [_ ->].
  destruct (Rgtb r 0.5);
    (eapply returns_mono; [apply hslRange_returns|]); intros ? ? ->; lia.
Qed.

Lemma generateName_returns rnd c :
  returns generateName rnd c (fun _ c' => c' = (3 + c)%nat).
Proof.
  unfold generateName.
  eapply returns_bind; [apply returns_randomInt|]. intros p cp [_ ->].
  eapply returns_bind; [apply returns_randomInt|]. intros n cn [_ ->].
  eapply returns_bind; [apply returns_randomInt|]. intros s cs [_ ->].
  apply returns_ret. lia.
Qed.

(** *** What one pass of each loop produces *)

Section Planets.

Variable rnd : nat -> R.
Hypothesis rnd_unit : unit_stream rnd.

Tactic Notation "draw_range" ident(v) ident(H) :=
  eapply returns_bind; [apply (randomRange_in rnd rnd_unit); lra |];
  intros v ? H; cbv beta in H.

Lemma generateMoon_spec i planetId planetName radius m c :
  returns (generateMoon i planetId planetName radius m) rnd c
    (fun mo _ => moon_spec i planetId radius m mo).
Proof.
  pose proof PI_RGT_0 as Hpi. unfold generateMoon.
  draw_range d1 Hd1. draw_range d2 Hd2. draw_range mr Hmr.
  draw_range me Hme. draw_range mw Hmw. draw_range mm Hmm.
  apply returns_ret. unfold moon_spec. cbn.
  pose proof (pos_INR m) as Hm.
  repeat split; auto; nra.
Qed.

Lemma generateMoons_spec i planetId planetName radius n :
  forall m c,
    returns (generateMoons i planetId planetName radius n m) rnd c
      (fun ms _ =>
         List.length ms = n /\
         forall k mo, nth_error ms k = Some mo ->
                      moon_spec i planetId radius (m + k) mo).
Proof.
  induction n as [|n IH]; intros m c; cbn [generateMoons].
  - apply returns_ret. split; [reflexivity|].
    intros [|k] mo Hk; discriminate.
  - eapply returns_bind; [apply generateMoon_spec|]. intros mo0 c0 Hmo0.
    eapply returns_bind; [apply IH|]. intros rest c1 [Hlen Hrest].
    apply returns_ret. split; [cbn; lia|].
    intros [|k] mo Hk; cbn in Hk.
    + injection Hk as <-. rewrite Nat.add_0_r. exact Hmo0.
    + replace (m + S k)%nat with (S m + k)%nat by lia. eauto.
Qed.

Lemma generatePlanet_spec i previousAphelion c :
  returns (generatePlanet i previousAphelion) rnd c
    (fun pa _ =>
       planet_spec i previousAphelion (fst pa) /\
       snd pa = aphelion (Planet.orbit (fst pa))).
Proof.
  pose proof PI_RGT_0 as Hpi. unfold generatePlanet.
  eapply returns_bind.
  { apply (randomRange_in rnd rnd_unit). destruct (i <? 4)%nat; lra. }
  intros gap ? Hgap.
  assert (Hgap20 : 20 <= gap) by (destruct (i <? 4)%nat; lra).
  draw_range ecc Hecc.
  eapply returns_bind; [apply returns_random|]. intros roll ? _.
  set (type := chooseType _ i roll).
  eapply returns_bind.
  { instantiate (1 := fun _ _ => True).
    destruct type;
      (eapply returns_mono; [apply (randomRange_in rnd rnd_unit); lra | auto]). }
  intros radius ? _.
  eapply returns_bind; [apply generateColor_returns|]. intros color ? _.
  eapply returns_bind; [apply generateName_returns|]. intros planetName ? _.
  draw_range om Hom. draw_range m0 Hm0.
  eapply returns_bind.
  { instantiate (1 := fun ms _ =>
      (type = DWARF -> ms = []) /\
      forall m mo, nth_error ms m = Some mo ->
        moon_spec i ("planet-" ++ nat_toString i)%string radius m mo).
    destruct (negb (PlanetType_eqb type DWARF)) eqn:Hdw.
    - eapply returns_bind.
      { instantiate (1 := fun _ _ => True).
        destruct type;
          (eapply returns_mono; [apply returns_randomInt | auto]). }
      intros numMoons ? _.
      eapply returns_mono; [apply generateMoons_spec|].
      intros ms ? [_ Hms]. split.
      + intros ->. discriminate.
      + intros m mo Hm. exact (Hms m mo Hm).
    - apply returns_ret. split; [reflexivity|].
      intros [|m] mo Hm; discriminate. }
  intros moons ? [Hdwarf Hmoons].
  apply returns_ret. cbn [fst snd]. split; [|reflexivity].
  unfold planet_spec, perihelion.
  cbn [Planet.id Planet.orbit Planet.type Planet.moons Planet.radius
       Orbit.a Orbit.e].
  split; [reflexivity|]. split; [lra|]. split; [|split; assumption].
  replace ((previousAphelion + gap) / (1 - ecc) * (1 - ecc))
    with (previousAphelion + gap) by (field; lra).
  lra.
Qed.

Lemma generatePlanets_spec n :
  forall i previousAphelion c,
    returns (generatePlanets n i previousAphelion) rnd c
      (fun ps _ => List.length ps = n /\ planets_spec i previousAphelion ps).
Proof.
  induction n as [|n IH]; intros i prev c; cbn [generatePlanets].
  - apply returns_ret. split; [reflexivity | exact I].
  - eapply returns_bind; [apply generatePlanet_spec|].
    intros [p aph] c0 [Hp Haph]. cbn [fst snd] in *.
    eapply returns_bind; [apply IH|]. intros rest c1 [Hlen Hrest].
    apply returns_ret. split; [cbn; lia|].
    cbn [planets_spec]. split; [exact Hp|]. rewrite <- Haph. exact Hrest.
Qed.

End Planets.

(** *** Gaps, shuffle and belts *)

Lemma at_index_returns {A} (arr : list A) (i : nat) rnd c :
  (i < List.length arr)%nat ->
  returns (at_index arr i) rnd c (fun v c' => nth_error arr i = Some v /\ c' = c).
Proof.
  intros Hi. unfold at_index.
  destruct (nth_error arr i) as [v|] eqn:Hv.
  - apply returns_ret. auto.
  - apply nth_error_None in Hv. lia.
Qed.

Lemma findValidGaps_spec (planets : list Planet) rnd (n : nat) :
  forall i c,
    (n + i <= List.length planets - 1)%nat ->
    returns (findValidGaps planets n i) rnd c
      (fun gaps c' => c' = c /\ Forall (valid_gap planets) gaps).
Proof.
  induction n as [|n IH]; intros i c Hn; cbn [findValidGaps].
  - apply returns_ret. auto.
  - eapply returns_bind; [apply at_index_returns; lia|]. intros p1 ? [Hp1 ->].
    eapply returns_bind; [apply at_index_returns; lia|]. intros p2 ? [Hp2 ->].
    eapply returns_bind; [apply IH; lia|]. intros rest ? [-> Hrest].
    destruct (Rgtb _ _) eqn:Hgt; apply returns_ret; split; auto.
    constructor; [|exact Hrest].
    exists p1, p2. apply Rgtb_true in Hgt. unfold aphelion, perihelion. auto.
Qed.

(** Gap discovery draws nothing: its result is the same from every position
    of every sequence. *)
Lemma findValidGaps_pure (planets : list Planet) (n : nat) :
  forall i rnd c gaps c1,
    findValidGaps planets n i rnd c = Ok (gaps, c1) ->
    forall rnd' c', findValidGaps planets n i rnd' c' = Ok (gaps, c').
Proof.
  induction n as [|n IH]; intros i rnd c gaps c1; cbn [findValidGaps].
  - unfold ret. intros [= <- <-] rnd' c'. reflexivity.
  - unfold bind, at_index.
    destruct (nth_error planets i) as [p1|]; [|discriminate].
    destruct (nth_error planets (i + 1)) as [p2|]; [|discriminate].
    unfold ret at 1 2. unfold ret at 3 4.
    destruct (findValidGaps planets n (S i) rnd c) as [[rest cr]|err] eqn:Hrest;
      [|discriminate].
    intros Hres rnd' c'. rewrite (IH _ _ _ _ _ Hrest rnd' c').
    destruct (Rgtb _ _); unfold ret in *; congruence.
Qed.

Lemma set_index_length {A} (arr : list A) :
  forall i v, List.length (set_index arr i v) = List.length arr.
Proof.
  induction arr as [|h t IH]; intros [|i] v; cbn; auto.
Qed.

Lemma set_index_In {A} (arr : list A) :
  forall i v x, In x (set_index arr i v) -> x = v \/ In x arr.
Proof.
  induction arr as [|h t IH]; intros [|i] v x; cbn; try tauto.
  - intros [<- | Hx]; auto.
  - intros [<- | Hx]; auto. destruct (IH i v x Hx); auto.
Qed.

Lemma swap_spec {A} (arr : list A) (i : nat) (j : Z) rnd c :
  (i < List.length arr)%nat -> (0 <= j)%Z -> (Z.to_nat j < List.length arr)%nat ->
  returns (swap arr i j) rnd c
    (fun arr' c' =>
       c' = c /\ List.length arr' = List.length arr /\
       forall x, In x arr' -> In x arr).
Proof.
  intros Hi Hj0 Hj. unfold swap.
  destruct (j <? 0)%Z eqn:Hneg; [apply Z.ltb_lt in Hneg; lia|].
  destruct (nth_error arr i) as [vi|] eqn:Hvi;
    [|apply nth_error_None in Hvi; lia].
  destruct (nth_error arr (Z.to_nat j)) as [vj|] eqn:Hvj;
    [|apply nth_error_None in Hvj; lia].
  apply returns_ret. split; [reflexivity|]. split.
  - rewrite !set_index_length. reflexivity.
  - intros x Hx.
    apply set_index_In in Hx. destruct Hx as [-> | Hx].
    + eapply nth_error_In; eauto.
    + apply set_index_In in Hx. destruct Hx as [-> | Hx]; auto.
      eapply nth_error_In; eauto.
Qed.

Section Belts.

Variable rnd : nat -> R.
Hypothesis rnd_unit : unit_stream rnd.

Lemma shuffleFrom_spec (i : nat) :
  forall (validGaps : list nat) c,
    (i <= List.length validGaps - 1)%nat ->
    returns (shuffleFrom i validGaps) rnd c
      (fun gaps' _ =>
         List.length gaps' = List.length validGaps /\
         forall x, In x gaps' -> In x validGaps).
Proof.
  induction i as [|i IH]; intros validGaps c Hi; cbn [shuffleFrom].
  - apply returns_ret. auto.
  - eapply returns_bind; [apply returns_random|]. intros r ? [-> ->].
    pose proof (rnd_unit c) as Hr.
    set (j := Zfloor (rnd c * (INR (S i) + 1))).
    assert (Hj : (0 <= j <= Z.of_nat (S i))%Z).
    { pose proof (pos_INR (S i)) as Hpos.
      pose proof (Zfloor_bound (rnd c * (INR (S i) + 1))) as Hfl. fold j in Hfl.
      split.
      - apply Zfloor_lub. nra.
      - apply Z.lt_succ_r. apply lt_IZR.
        rewrite succ_IZR, <- INR_IZR_INZ. nra. }
    eapply returns_bind; [apply swap_spec; lia|].
    intros gaps1 ? (-> & Hlen1 & Hin1).
    eapply returns_mono; [apply IH; lia|].
    intros gaps2 ? [Hlen2 Hin2]. split; [lia | auto].
Qed.

Lemma shuffle_spec (validGaps : list nat) c :
  returns (shuffle validGaps) rnd c
    (fun gaps' _ =>
       List.length gaps' = List.length validGaps /\
       forall x, In x gaps' -> In x validGaps).
Proof. unfold shuffle. apply shuffleFrom_spec. lia. Qed.

End Belts.

Lemma generateParticles_spec (n : nat) (minR maxR : R) rnd :
  forall c,
    returns (generateParticles n minR maxR) rnd c
      (fun ps _ => List.length ps = n).
Proof.
  induction n as [|n IH]; intros c; cbn [generateParticles].
  - apply returns_ret. reflexivity.
  - eapply returns_bind; [apply returns_randomRange|]. intros r ? _.
    eapply returns_bind; [apply returns_randomRange|]. intros angle ? _.
    eapply returns_bind; [apply returns_randomRange|]. intros size ? _.
    eapply returns_bind; [apply IH|]. intros rest ? Hrest. cbv beta in Hrest.
    apply returns_ret. cbn [List.length]. lia.
Qed.

Lemma generateInnerBelt_spec (planets : list Planet) (idx : nat) rnd c :
  valid_gap planets idx ->
  returns (generateInnerBelt planets idx) rnd c
    (fun b _ => belt_in_gap planets idx b).
Proof.
  intros (p1 & p2 & Hp1 & Hp2 & Hroom). unfold generateInnerBelt.
  assert (Hi1 : (idx < List.length planets)%nat)
    by (apply nth_error_Some; congruence).
  assert (Hi2 : (idx + 1 < List.length planets)%nat)
    by (apply nth_error_Some; congruence).
  eapply returns_bind; [apply at_index_returns; exact Hi1|]. intros q1 ? [Hq1 ->].
  eapply returns_bind; [apply at_index_returns; exact Hi2|]. intros q2 ? [Hq2 ->].
  assert (q1 = p1) by congruence. assert (q2 = p2) by congruence. subst q1 q2.
  eapply returns_bind; [apply generateParticles_spec|]. intros ps ? _.
  apply returns_ret. exists p1, p2.
  cbn [AsteroidBelt.minRadius AsteroidBelt.maxRadius].
  unfold aphelion, perihelion, safetyMargin, minBeltWidth in *.
  repeat split; auto; lra.
Qed.

Lemma forEach_spec {A B} (f : A -> Gen B) (P : A -> B -> Prop) rnd (l : list A) :
  (forall v c, In v l -> returns (f v) rnd c (fun b _ => P v b)) ->
  forall c, returns (forEach f l) rnd c (fun bs _ => Forall2 P l bs).
Proof.
  induction l as [|v l IH]; intros Hf c; cbn [forEach].
  - apply returns_ret. constructor.
  - eapply returns_bind; [apply Hf; left; reflexivity|]. intros b ? Hb.
    eapply returns_bind; [apply IH; intros; apply Hf; right; assumption|].
    intros bs ? Hbs. apply returns_ret. constructor; assumption.
Qed.

Lemma generateOuterBelt_spec (planets : list Planet) rnd c :
  unit_stream rnd -> planets <> [] ->
  returns (generateOuterBelt planets) rnd c
    (fun b _ => outer_belt_spec planets b).
Proof.
  intros Hrnd Hne. unfold generateOuterBelt.
  assert (Hlen : (List.length planets - 1 < List.length planets)%nat).
  { destruct planets; [congruence | cbn [List.length]; lia]. }
  eapply returns_bind; [apply at_index_returns; exact Hlen|].
  intros lastPlanet ? [Hlast ->].
  eapply returns_bind; [apply (randomRange_in rnd Hrnd); lra|].
  intros w ? Hw. cbv beta in Hw.
  eapply returns_bind; [apply generateParticles_spec|]. intros ps ? Hps.
  cbv beta in Hps.
  apply returns_ret. exists lastPlanet.
  cbn [AsteroidBelt.minRadius AsteroidBelt.maxRadius AsteroidBelt.count
       AsteroidBelt.particles].
  unfold aphelion. rewrite Hps, Z2Nat.id by lia.
  repeat split; auto; lra.
Qed.

(** *** The whole system *)

Lemma requestedInnerBelts_bounds (roll : R) :
  (1 <= requestedInnerBelts roll <= 3)%nat.
Proof.
  unfold requestedInnerBelts.
  destruct (Rltb roll 0.05); [lia|]. destruct (Rltb roll 0.25); lia.
Qed.

Lemma firstn_incl {A} (n : nat) (l : list A) (v : A) :
  In v (firstn n l) -> In v l.
Proof.
  intros Hv. rewrite <- (firstn_skipn n l). apply in_or_app. left. exact Hv.
Qed.

(** The planets of the returned system are the ones the planet loop
    produces from position [5 + c], so whatever holds of the loop's result
    holds of them. *)
Lemma generateSolarSystem_spec_with (Qp : list Planet -> Prop)
    (width height : R) rnd c :
  unit_stream rnd ->
  returns (generatePlanets
             (Z.to_nat (Zfloor (rnd (4 + c)%nat * IZR (12 - 7 + 1)) + 7)) 0
             (rnd c * (8 - 5) + 5 + 5))
          rnd (5 + c)%nat (fun ps _ => Qp ps) ->
  returns (generateSolarSystem width height) rnd c
    (fun sys _ => system_spec sys /\ Qp (SolarSystem.planets sys)).
Proof.
  intros Hrnd HQp. unfold generateSolarSystem.
  eapply returns_bind; [apply returns_randomRange|]. intros starRadius ? [-> ->].
  eapply returns_bind; [apply generateColor_star|]. intros starColor ? ->.
  eapply returns_bind; [apply returns_randomInt|]. intros numPlanets ? [-> ->].
  change (3 + S c)%nat with (4 + c)%nat.
  change (S (4 + c)) with (5 + c)%nat.
  pose proof (int_bounds (rnd (4 + c)%nat) 7 12 (Hrnd _) ltac:(lia)) as HnumPlanets.
  eapply returns_bind.
  { apply returns_conj; [apply (generatePlanets_spec rnd Hrnd) | exact HQp]. }
  intros planets cp [[Hlen Hplanets] Hqp].
  assert (Hne : planets <> []).
  { intros ->. cbn [List.length] in Hlen. lia. }
  destruct (findValidGaps_spec planets rnd (List.length planets - 1) 0 cp)
    as (gaps & cg & Hgaps & -> & Hvalid); [lia|].
  eapply returns_bind.
  { exists gaps, cp. split; [exact Hgaps|].
    instantiate (1 := fun g c' => g = gaps /\ c' = cp). cbv beta. auto. }
  intros ? ? [-> ->].
  eapply returns_bind; [apply returns_random|]. intros roll ? _.
  eapply returns_bind; [apply (shuffle_spec rnd Hrnd)|].
  intros shuffled ? [Hslen Hsin].
  eapply returns_bind.
  { apply (forEach_spec _ (belt_in_gap planets)).
    intros idx ci Hidx. apply generateInnerBelt_spec.
    apply firstn_incl in Hidx. apply Hsin in Hidx.
    rewrite Forall_forall in Hvalid. auto. }
  intros inner ? Hinner. cbv beta in Hinner.
  eapply returns_bind; [apply generateOuterBelt_spec; assumption|].
  intros outer ? Houter. cbv beta in Houter.
  apply returns_ret. split; [|exact Hqp]. unfold system_spec.
  cbn [SolarSystem.planets SolarSystem.star SolarSystem.asteroidBelts Star.radius].
  exists gaps, (requestedInnerBelts roll),
    (firstn (Nat.min (requestedInnerBelts roll) (List.length gaps)) shuffled),
    inner, outer.
  split; [lia|]. split; [exact Hplanets|].
  split; [intros rndx cx; eapply findValidGaps_pure; exact Hgaps|].
  split; [exact Hvalid|].
  split; [apply requestedInnerBelts_bounds|].
  split; [rewrite length_firstn; lia|].
  split; [exact Hinner|]. split; [exact Houter | reflexivity].
Qed.

Lemma generateSolarSystem_spec (width height : R) rnd c :
  unit_stream rnd ->
  returns (generateSolarSystem width height) rnd c (fun sys _ => system_spec sys).
Proof.
  intros Hrnd.
  eapply returns_mono.
  - apply (generateSolarSystem_spec_with (fun _ => True)); [exact Hrnd|].
    eapply returns_mono; [apply (generatePlanets_spec rnd Hrnd) | auto].
  - intros sys ? [Hsys _]. exact Hsys.
Qed.

(** *** The belt stage on its own *)

(** [generateSolarSystem] runs the planet loop and then [generateBelts] on
    its result. *)
Lemma generateSolarSystem_stages (width height : R) rnd c :
  generateSolarSystem width height rnd c
  = (starRadius <- randomRange 5 8 ;;
     starColor <- generateColor "STAR" ;;
     numPlanets <- randomInt 7 12 ;;
     planets <- generatePlanets (Z.to_nat numPlanets) 0 (starRadius + 5) ;;
     belts <- generateBelts planets ;;
     ret (SolarSystem.mk (Star.mk starRadius starColor 1) planets belts)) rnd c.
Proof.
  unfold generateSolarSystem, generateBelts, bind, ret.
  repeat match goal with
         | |- context [match ?m ?r ?k with Ok _ => _ | Throw _ => _ end] =>
             destruct (m r k) as [[? ?]|?]
         end; reflexivity.
Qed.

(** For any planet list but the empty one the belt stage returns: the inner
    belts, one for each of the first [min(requested, gaps)] gaps after the
    shuffle, followed by the outer belt. *)
Lemma generateBelts_spec (planets : list Planet) rnd c :
  unit_stream rnd -> planets <> [] ->
  exists gaps selected inner outer c',
    findValidGaps planets (List.length planets - 1) 0 rnd c = Ok (gaps, c) /\
    generateBelts planets rnd c = Ok (inner ++ [outer], c') /\
    List.length selected
    = Nat.min (requestedInnerBelts (rnd c)) (List.length gaps) /\
    Forall2 (belt_in_gap planets) selected inner /\
    outer_belt_spec planets outer.
Proof.
  intros Hrnd Hne.
  destruct (findValidGaps_spec planets rnd (List.length planets - 1) 0 c)
    as (gaps & cg & Hgaps & -> & Hvalid); [lia|].
  assert (Hrun : returns (generateBelts planets) rnd c
            (fun belts _ =>
               exists selected inner outer,
                 belts = inner ++ [outer] /\
                 List.length selected
                 = Nat.min (requestedInnerBelts (rnd c)) (List.length gaps) /\
                 Forall2 (belt_in_gap planets) selected inner /\
                 outer_belt_spec planets outer)).
  { unfold generateBelts.
    eapply returns_bind.
    { exists gaps, c. split; [exact Hgaps|].
      instantiate (1 := fun g c' => g = gaps /\ c' = c). cbv beta. auto. }
    intros ? ? [-> ->].
    eapply returns_bind; [apply returns_random|]. intros roll ? [-> ->].
    eapply returns_bind; [apply (shuffle_spec rnd Hrnd)|].
    intros shuffled ? [Hslen Hsin].
    eapply returns_bind.
    { apply (forEach_spec _ (belt_in_gap planets)).
      intros idx ci Hidx. apply generateInnerBelt_spec.
      apply firstn_incl in Hidx. apply Hsin in Hidx.
      rewrite Forall_forall in Hvalid. auto. }
    intros inner ? Hinner. cbv beta in Hinner.
    eapply returns_bind; [apply generateOuterBelt_spec; assumption|].
    intros outer ? Houter. cbv beta in Houter.
    apply returns_ret.
    exists (firstn (Nat.min (requestedInnerBelts (rnd c)) (List.length gaps))
                   shuffled), inner, outer.
    split; [reflexivity|]. split; [rewrite length_firstn; lia|].
    split; assumption. }
  destruct Hrun as (belts & c' & Hrun & selected & inner & outer & -> & Hsel
                    & Hinner & Houter).
  exists gaps, selected, inner, outer, c'. auto.
Qed.

(** On the empty planet list the stage reads [lastPlanet.orbit] of an
    [undefined] last planet. *)
Lemma generateBelts_empty rnd c : generateBelts [] rnd c = Throw TypeError.
Proof.
  unfold generateBelts, bind. cbn [List.length Nat.sub findValidGaps ret].
  cbn [Math_random]. unfold shuffle. cbn [List.length Nat.sub shuffleFrom ret].
  rewrite firstn_nil. reflexivity.
Qed.

End GeneratorFacts.

(** ** Claims about the generator *)

Module GeneratorClaims.
Import Generator Specs GeneratorFacts.

(** *** Orbits *)

Lemma planets_spec_adjacent (ps : list Planet) :
  forall i prev k p1 p2,
    planets_spec i prev ps ->
    nth_error ps k = Some p1 -> nth_error ps (S k) = Some p2 ->
    perihelion (Planet.orbit p2) >= aphelion (Planet.orbit p1) + 20.
Proof.
  induction ps as [|p ps IH]; intros i prev k p1 p2 Hps H1 H2.
  - destruct k; discriminate.
  - destruct Hps as [Hp Hrest]. destruct k as [|k].
    + injection H1 as <-. cbn [nth_error] in H2.
      destruct ps as [|q ps]; [discriminate|]. injection H2 as <-.
      destruct Hrest as [(_ & _ & Hq & _) _]. exact Hq.
    + cbn [nth_error] in H1, H2. eapply IH; eauto.
Qed.

Lemma planets_spec_In (ps : list Planet) :
  forall i prev p,
    planets_spec i prev ps -> In p ps ->
    exists j prev', (i <= j)%nat /\ planet_spec j prev' p.
Proof.
  induction ps as [|q ps IH]; intros i prev p Hps Hin; [contradiction|].
  destruct Hps as [Hq Hrest]. destruct Hin as [<- | Hin].
  - exists i, prev. auto.
  - destruct (IH _ _ _ Hrest Hin) as (j & prev' & Hj & Hp).
    exists j, prev'. split; [lia | exact Hp].
Qed.

(** C1. Whatever width and height are passed and whatever values in
    [[0, 1)] [Math.random()] yields, [generateSolarSystem] returns a system
    in which, for every two adjacent planets [p1], [p2] of the planet list,
    [p2.orbit.a * (1 - p2.orbit.e) > p1.orbit.a * (1 + p1.orbit.e)]. *)
Theorem orbits_do_not_overlap (rnd : nat -> R) (width height : R) :
  unit_stream rnd ->
  exists sys c',
    generateSolarSystem width height rnd 0%nat = Ok (sys, c') /\
    forall k p1 p2,
      nth_error (SolarSystem.planets sys) k = Some p1 ->
      nth_error (SolarSystem.planets sys) (S k) = Some p2 ->
      Orbit.a (Planet.orbit p2) * (1 - Orbit.e (Planet.orbit p2))
      > Orbit.a (Planet.orbit p1) * (1 + Orbit.e (Planet.orbit p1)).
Proof.
  intros Hrnd.
  destruct (generateSolarSystem_spec width height rnd 0%nat Hrnd)
    as (sys & c' & Hrun & Hsys).
  exists sys, c'. split; [exact Hrun|].
  destruct Hsys as (gaps & req & sel & inner & outer & _ & Hps & _).
  intros k p1 p2 H1 H2.
  pose proof (planets_spec_adjacent _ _ _ _ _ _ Hps H1 H2) as Hgap.
  unfold perihelion, aphelion in Hgap. lra.
Qed.

Lemma orbits_do_not_overlap_witness :
  unit_stream rnd_half /\
  exists sys c',
    generateSolarSystem 800 600 rnd_half 0%nat = Ok (sys, c') /\
    forall k p1 p2,
      nth_error (SolarSystem.planets sys) k = Some p1 ->
      nth_error (SolarSystem.planets sys) (S k) = Some p2 ->
      Orbit.a (Planet.orbit p2) * (1 - Orbit.e (Planet.orbit p2))
      > Orbit.a (Planet.orbit p1) * (1 + Orbit.e (Planet.orbit p1)).
Proof.
  assert (Hu : unit_stream rnd_half) by (intros n; unfold rnd_half; lra).
  split; [exact Hu | exact (orbits_do_not_overlap rnd_half 800 600 Hu)].
Defined.

(** *** Inner belts *)

Lemma Forall2_In_right {A B} (P : A -> B -> Prop) (l : list A) (bs : list B) :
  Forall2 P l bs -> forall b, In b bs -> exists v, In v l /\ P v b.
Proof.
  induction 1 as [|v b0 l bs Hvb _ IH]; intros b Hb; [contradiction|].
  destruct Hb as [<- | Hb].
  - exists v. split; [left; reflexivity | exact Hvb].
  - destruct (IH b Hb) as (v' & Hin & Hp). exists v'. split; [right|]; assumption.
Qed.

(** C2. In every generated system each inner belt (each belt but the last,
    the outer one) was placed in a gap between two adjacent planets [p1],
    [p2]: its [minRadius] is [p1]'s aphelion plus the safety margin 15, its
    [maxRadius] is [p2]'s perihelion minus the safety margin,
    [minRadius < maxRadius], and the belt lies strictly between the
    aphelion and the perihelion. *)
Theorem inner_belts_fit (rnd : nat -> R) (width height : R) :
  unit_stream rnd ->
  exists sys c',
    generateSolarSystem width height rnd 0%nat = Ok (sys, c') /\
    forall b,
      In b (removelast (SolarSystem.asteroidBelts sys)) ->
      exists idx p1 p2,
        nth_error (SolarSystem.planets sys) idx = Some p1 /\
        nth_error (SolarSystem.planets sys) (idx + 1) = Some p2 /\
        AsteroidBelt.minRadius b
          = Orbit.a (Planet.orbit p1) * (1 + Orbit.e (Planet.orbit p1)) + 15 /\
        AsteroidBelt.maxRadius b
          = Orbit.a (Planet.orbit p2) * (1 - Orbit.e (Planet.orbit p2)) - 15 /\
        AsteroidBelt.minRadius b < AsteroidBelt.maxRadius b /\
        Orbit.a (Planet.orbit p1) * (1 + Orbit.e (Planet.orbit p1))
          < AsteroidBelt.minRadius b /\
        AsteroidBelt.maxRadius b
          < Orbit.a (Planet.orbit p2) * (1 - Orbit.e (Planet.orbit p2)).
Proof.
  intros Hrnd.
  destruct (generateSolarSystem_spec width height rnd 0%nat Hrnd)
    as (sys & c' & Hrun & Hsys).
  exists sys, c'. split; [exact Hrun|].
  destruct Hsys as (gaps & req & sel & inner & outer & _ & _ & _ & _ & _ & _
                    & Hinner & _ & Hbelts).
  rewrite Hbelts, removelast_last. intros b Hb.
  destruct (Forall2_In_right _ _ _ Hinner b Hb) as (idx & _ & p1 & p2 & Hfit).
  exists idx, p1, p2. exact Hfit.
Qed.

Lemma inner_belts_fit_witness :
  unit_stream rnd_half /\
  exists sys c',
    generateSolarSystem 800 600 rnd_half 0%nat = Ok (sys, c') /\
    forall b,
      In b (removelast (SolarSystem.asteroidBelts sys)) ->
      exists idx p1 p2,
        nth_error (SolarSystem.planets sys) idx = Some p1 /\
        nth_error (SolarSystem.planets sys) (idx + 1) = Some p2 /\
        AsteroidBelt.minRadius b
          = Orbit.a (Planet.orbit p1) * (1 + Orbit.e (Planet.orbit p1)) + 15 /\
        AsteroidBelt.maxRadius b
          = Orbit.a (Planet.orbit p2) * (1 - Orbit.e (Planet.orbit p2)) - 15 /\
        AsteroidBelt.minRadius b < AsteroidBelt.maxRadius b /\
        Orbit.a (Planet.orbit p1) * (1 + Orbit.e (Planet.orbit p1))
          < AsteroidBelt.minRadius b /\
        AsteroidBelt.maxRadius b
          < Orbit.a (Planet.orbit p2) * (1 - Orbit.e (Planet.orbit p2)).
Proof.
  assert (Hu : unit_stream rnd_half) by (intros n; unfold rnd_half; lra).
  split; [exact Hu | exact (inner_belts_fit rnd_half 800 600 Hu)].
Defined.

(** *** Moons *)

(** C3, as the code has it.  In every generated system the moon at index
    [m] of a planet orbits at the planet's radius plus an offset between
    [5 + 4 m] and [15 + 8 m] (the upper end is stated closed: the offset
    stays below it in exact arithmetic, a rounded sum can reach it); hence
    a moon at index [m2] is certainly farther out than the moon at index
    [m1] whenever [8 m1 + 10 <= 4 m2]. *)
Theorem moon_radius_window (rnd : nat -> R) (width height : R) :
  unit_stream rnd ->
  exists sys c',
    generateSolarSystem width height rnd 0%nat = Ok (sys, c') /\
    forall p,
      In p (SolarSystem.planets sys) ->
      (forall m mo,
         nth_error (Planet.moons p) m = Some mo ->
         Planet.radius p + 5 + 4 * INR m <= Orbit.a (Moon.orbit mo)
           <= Planet.radius p + 15 + 8 * INR m) /\
      (forall m1 m2 mo1 mo2,
         nth_error (Planet.moons p) m1 = Some mo1 ->
         nth_error (Planet.moons p) m2 = Some mo2 ->
         (8 * m1 + 10 <= 4 * m2)%nat ->
         Orbit.a (Moon.orbit mo2) > Orbit.a (Moon.orbit mo1)).
Proof.
  intros Hrnd.
  destruct (generateSolarSystem_spec width height rnd 0%nat Hrnd)
    as (sys & c' & Hrun & Hsys).
  exists sys, c'. split; [exact Hrun|].
  destruct Hsys as (gaps & req & sel & inner & outer & _ & Hps & _).
  intros p Hp.
  destruct (planets_spec_In _ _ _ _ Hps Hp) as (j & prev & _ & Hpj).
  destruct Hpj as (_ & _ & _ & _ & Hmoons).
  assert (Hwin : forall m mo,
             nth_error (Planet.moons p) m = Some mo ->
             Planet.radius p + 5 + 4 * INR m <= Orbit.a (Moon.orbit mo)
               < Planet.radius p + 15 + 8 * INR m).
  { intros m mo Hm. destruct (Hmoons m mo Hm) as (_ & _ & Ha & _). exact Ha. }
  split; [intros m mo Hm; pose proof (Hwin m mo Hm); lra|].
  intros m1 m2 mo1 mo2 H1 H2 Hfar.
  pose proof (Hwin m1 mo1 H1) as Hw1. pose proof (Hwin m2 mo2 H2) as Hw2.
  rewrite !INR_IZR_INZ in Hw1, Hw2.
  apply Nat2Z.inj_le, IZR_le in Hfar.
  rewrite Nat2Z.inj_add, !Nat2Z.inj_mul, plus_IZR, !mult_IZR in Hfar.
  change (IZR (Z.of_nat 8)) with 8 in Hfar.
  change (IZR (Z.of_nat 10)) with 10 in Hfar.
  change (IZR (Z.of_nat 4)) with 4 in Hfar. lra.
Qed.

Lemma moon_radius_window_witness :
  unit_stream rnd_half /\
  exists sys c',
    generateSolarSystem 800 600 rnd_half 0%nat = Ok (sys, c') /\
    forall p,
      In p (SolarSystem.planets sys) ->
      (forall m mo,
         nth_error (Planet.moons p) m = Some mo ->
         Planet.radius p + 5 + 4 * INR m <= Orbit.a (Moon.orbit mo)
           <= Planet.radius p + 15 + 8 * INR m) /\
      (forall m1 m2 mo1 mo2,
         nth_error (Planet.moons p) m1 = Some mo1 ->
         nth_error (Planet.moons p) m2 = Some mo2 ->
         (8 * m1 + 10 <= 4 * m2)%nat ->
         Orbit.a (Moon.orbit mo2) > Orbit.a (Moon.orbit mo1)).
Proof.
  assert (Hu : unit_stream rnd_half) by (intros n; unfold rnd_half; lra).
  split; [exact Hu | exact (moon_radius_window rnd_half 800 600 Hu)].
Defined.

(** *** Totality and the outer belt *)

(** C5. For every sequence of values in [[0, 1)] [generateSolarSystem]
    returns a system.  Its belts are the inner belts followed by one outer
    belt; the number of inner belts is the requested number (1, 2 or 3)
    clamped to the number of valid gaps of the planet list; the outer belt
    has [count = 2500] and as many particles; and the system has at least
    one belt.  The generator's own planet lists have at least seven planets
    and always leave a valid gap, so the clamp to zero is stated of the belt
    stage itself, which [generateSolarSystem] runs on the result of its
    planet loop: on every planet list but the empty one (a single planet
    included) the stage returns, places [min(requested, gaps)] inner belts,
    hence none when there is no valid gap, and appends the outer belt with
    its 2500 particles.  The empty list, which the planet loop never
    produces, is the one input on which the stage throws. *)
Theorem generation_never_fails (rnd : nat -> R) (width height : R) :
  unit_stream rnd ->
  (exists sys c' gaps requested inner outer,
     generateSolarSystem width height rnd 0%nat = Ok (sys, c') /\
     (forall rnd' c,
        findValidGaps (SolarSystem.planets sys)
          (List.length (SolarSystem.planets sys) - 1) 0 rnd' c = Ok (gaps, c)) /\
     (1 <= requested <= 3)%nat /\
     SolarSystem.asteroidBelts sys = inner ++ [outer] /\
     List.length inner = Nat.min requested (List.length gaps) /\
     (gaps = [] -> inner = []) /\
     AsteroidBelt.count outer = 2500%Z /\
     Z.of_nat (List.length (AsteroidBelt.particles outer)) = 2500%Z /\
     (1 <= List.length (SolarSystem.asteroidBelts sys))%nat) /\
  (forall c,
     generateSolarSystem width height rnd c
     = (starRadius <- randomRange 5 8 ;;
        starColor <- generateColor "STAR" ;;
        numPlanets <- randomInt 7 12 ;;
        planets <- generatePlanets (Z.to_nat numPlanets) 0 (starRadius + 5) ;;
        belts <- generateBelts planets ;;
        ret (SolarSystem.mk (Star.mk starRadius starColor 1) planets belts))
         rnd c) /\
  (forall (planets : list Planet) (c : nat),
     planets <> [] ->
     exists gaps inner outer c',
       findValidGaps planets (List.length planets - 1) 0 rnd c = Ok (gaps, c) /\
       generateBelts planets rnd c = Ok (inner ++ [outer], c') /\
       (1 <= requestedInnerBelts (rnd c) <= 3)%nat /\
       List.length inner
       = Nat.min (requestedInnerBelts (rnd c)) (List.length gaps) /\
       (gaps = [] -> inner = []) /\
       AsteroidBelt.count outer = 2500%Z /\
       Z.of_nat (List.length (AsteroidBelt.particles outer)) = 2500%Z) /\
  (forall c, generateBelts [] rnd c = Throw TypeError).
Proof.
  intros Hrnd. split; [|split; [|split]].
  - destruct (generateSolarSystem_spec width height rnd 0%nat Hrnd)
      as (sys & c' & Hrun & Hsys).
    destruct Hsys as (gaps & req & sel & inner & outer & _ & _ & Hgaps & _ & Hreq
                      & Hsel & Hinner & Houter & Hbelts).
    exists sys, c', gaps, req, inner, outer.
    assert (Hlen : List.length inner = Nat.min req (List.length gaps)).
    { rewrite <- (Forall2_length Hinner). exact Hsel. }
    destruct Houter as (lastPlanet & _ & _ & _ & Hcount & Hparticles).
    repeat split; auto; try lia.
    + intros ->. cbn [List.length] in Hlen. rewrite Nat.min_0_r in Hlen.
      destruct inner; [reflexivity | discriminate].
    + rewrite Hbelts, length_app. cbn [List.length]. lia.
  - intros c. apply generateSolarSystem_stages.
  - intros planets c Hne.
    destruct (generateBelts_spec planets rnd c Hrnd Hne)
      as (gaps & sel & inner & outer & c' & Hgaps & Hrun & Hsel & Hinner & Houter).
    exists gaps, inner, outer, c'.
    assert (Hlen : List.length inner
                   = Nat.min (requestedInnerBelts (rnd c)) (List.length gaps)).
    { rewrite <- (Forall2_length Hinner). exact Hsel. }
    destruct Houter as (lastPlanet & _ & _ & _ & Hcount & Hparticles).
    split; [exact Hgaps|]. split; [exact Hrun|].
    split; [apply requestedInnerBelts_bounds|]. split; [exact Hlen|].
    split; [|split; assumption].
    intros ->. cbn [List.length] in Hlen. rewrite Nat.min_0_r in Hlen.
    destruct inner; [reflexivity | discriminate].
  - intros c. apply generateBelts_empty.
Qed.

Lemma generation_never_fails_witness :
  unit_stream rnd_half /\
  (exists sys c',
     generateSolarSystem 800 600 rnd_half 0%nat = Ok (sys, c') /\
     (1 <= List.length (SolarSystem.asteroidBelts sys))%nat) /\
  (exists outer c',
     generateBelts lone_planet rnd_half 0%nat = Ok ([outer], c') /\
     AsteroidBelt.count outer = 2500%Z /\
     Z.of_nat (List.length (AsteroidBelt.particles outer)) = 2500%Z).
Proof.
  assert (Hu : unit_stream rnd_half) by (intros n; unfold rnd_half; lra).
  split; [exact Hu|].
  destruct (generation_never_fails rnd_half 800 600 Hu)
    as (Hwhole & _ & Hstage & _).
  split.
  - destruct Hwhole as (sys & c' & gaps & req & inner & outer & Hrun & _ & _ & _
                        & _ & _ & _ & _ & Hone).
    exists sys, c'. split; assumption.
  - destruct (Hstage lone_planet 0%nat) as (gaps & inner & outer & c' & Hgaps
                                            & Hrun & _ & _ & Hnone & Hcount & Hparts).
    { discriminate. }
    assert (Hg : gaps = []).
    { cbn in Hgaps. injection Hgaps as <-. reflexivity. }
    rewrite (Hnone Hg) in Hrun.
    exists outer, c'. split; [exact Hrun|]. split; assumption.
Defined.

(** *** The view dimensions *)

(** C9. [width] and [height] are never read: two calls with different
    dimensions are the same computation, so from the same random sequence
    and position they return the same system. *)
Theorem view_dimensions_ignored (width1 height1 width2 height2 : R) :
  generateSolarSystem width1 height1 = generateSolarSystem width2 height2 /\
  forall rnd c,
    generateSolarSystem width1 height1 rnd c
    = generateSolarSystem width2 height2 rnd c.
Proof. split; reflexivity. Qed.

End GeneratorClaims.

(** ** Identifiers *)

Module Identifiers.
Import Generator App Specs GeneratorFacts GeneratorClaims.

Lemma string_of_uint_dash_free (d : Decimal.uint) :
  dash_free (NilEmpty.string_of_uint d).
Proof.
  induction d; cbn [NilEmpty.string_of_uint dash_free];
    try exact I; (split; [discriminate | assumption]).
Qed.

Lemma nat_toString_dash_free (n : nat) : dash_free (nat_toString n).
Proof.
  unfold nat_toString, NilZero.string_of_uint.
  destruct (Nat.to_uint n) eqn:Hd;
    try (rewrite <- Hd; apply string_of_uint_dash_free).
  cbn. split; [discriminate | exact I].
Qed.

Lemma to_uint_nonnil (n : nat) : Nat.to_uint n <> Decimal.Nil.
Proof.
  pose proof (DecimalNat.Unsigned.to_of (Nat.to_uint n)) as H.
  rewrite DecimalNat.Unsigned.of_to in H. rewrite H.
  apply DecimalFacts.unorm_nonnil.
Qed.

Lemma nat_toString_inj (n n' : nat) :
  nat_toString n = nat_toString n' -> n = n'.
Proof.
  unfold nat_toString. intros H.
  apply (f_equal NilZero.uint_of_string) in H.
  rewrite !NilZero.usu in H by apply to_uint_nonnil.
  injection H as H. apply DecimalNat.Unsigned.to_uint_inj. exact H.
Qed.

(** Two dash-free strings followed by a dash and a rest are equal only
    piecewise. *)
Lemma dash_split (s1 : string) :
  forall s2 t1 t2,
    dash_free s1 -> dash_free s2 ->
    (s1 ++ String "-" t1 = s2 ++ String "-" t2)%string ->
    s1 = s2 /\ t1 = t2.
Proof.
  induction s1 as [|ch s1 IH]; intros [|ch2 s2] t1 t2 H1 H2 Heq;
    cbn [String.append] in Heq.
  - injection Heq as ->. auto.
  - injection Heq as Hch _. destruct H2 as [Hne _]. congruence.
  - injection Heq as Hch _. destruct H1 as [Hne _]. congruence.
  - injection Heq as -> Heq. destruct H1 as [_ H1]. destruct H2 as [_ H2].
    destruct (IH s2 t1 t2 H1 H2 Heq) as [-> ->]. auto.
Qed.

Lemma planet_id_inj (i j : nat) :
  ("planet-" ++ nat_toString i = "planet-" ++ nat_toString j)%string -> i = j.
Proof.
  cbn [String.append]. intros [= H]. apply nat_toString_inj. exact H.
Qed.

Lemma moon_id_inj (i m i' m' : nat) :
  ("moon-" ++ nat_toString i ++ "-" ++ nat_toString m
   = "moon-" ++ nat_toString i' ++ "-" ++ nat_toString m')%string ->
  i = i' /\ m = m'.
Proof.
  cbn [String.append]. intros [= H].
  apply dash_split in H; try apply nat_toString_dash_free.
  destruct H as [Hi Hm]. split; apply nat_toString_inj; assumption.
Qed.

Lemma planet_ids_NoDup (ps : list Planet) :
  forall i prev, planets_spec i prev ps -> NoDup (map Planet.id ps).
Proof.
  induction ps as [|p ps IH]; intros i prev Hps; cbn [map]; constructor.
  - destruct Hps as [(Hid & _) Hrest]. intros Hin.
    apply in_map_iff in Hin. destruct Hin as (q & Hq & Hqin).
    destruct (planets_spec_In _ _ _ _ Hrest Hqin) as (j & prev' & Hj & Hqj & _).
    rewrite Hid, Hqj in Hq. apply planet_id_inj in Hq. lia.
  - destruct Hps as [_ Hrest]. eapply IH; eauto.
Qed.

Lemma moon_ids_of_planet (i : nat) (prev : R) (p : Planet) :
  planet_spec i prev p ->
  NoDup (map Moon.id (Planet.moons p)) /\
  forall s, In s (map Moon.id (Planet.moons p)) ->
            exists m, s = ("moon-" ++ nat_toString i ++ "-" ++ nat_toString m)%string.
Proof.
  intros (_ & _ & _ & _ & Hmoons). split.
  - apply NoDup_nth_error. intros k1 k2 Hk1 Heq.
    rewrite !nth_error_map in Heq. rewrite length_map in Hk1.
    destruct (nth_error (Planet.moons p) k1) as [mo1|] eqn:H1;
      [|apply nth_error_None in H1; lia].
    destruct (nth_error (Planet.moons p) k2) as [mo2|] eqn:H2; [|discriminate].
    cbn [option_map] in Heq. injection Heq as Heq.
    destruct (Hmoons _ _ H1) as (Hid1 & _). destruct (Hmoons _ _ H2) as (Hid2 & _).
    rewrite Hid1, Hid2 in Heq. apply moon_id_inj in Heq. tauto.
  - intros s Hs. apply in_map_iff in Hs. destruct Hs as (mo & <- & Hin).
    apply In_nth_error in Hin. destruct Hin as (m & Hm).
    exists m. destruct (Hmoons _ _ Hm) as (Hid & _). exact Hid.
Qed.

Lemma moon_ids_from (ps : list Planet) :
  forall i prev s,
    planets_spec i prev ps ->
    In s (flat_map (fun p => map Moon.id (Planet.moons p)) ps) ->
    exists j m, (i <= j)%nat /\
                s = ("moon-" ++ nat_toString j ++ "-" ++ nat_toString m)%string.
Proof.
  induction ps as [|p ps IH]; intros i prev s Hps Hin; [contradiction|].
  destruct Hps as [Hp Hrest]. cbn [flat_map] in Hin.
  apply in_app_or in Hin. destruct Hin as [Hin | Hin].
  - destruct (moon_ids_of_planet _ _ _ Hp) as [_ Hform].
    destruct (Hform s Hin) as (m & ->). exists i, m. auto.
  - destruct (IH _ _ _ Hrest Hin) as (j & m & Hj & ->).
    exists j, m. split; [lia | reflexivity].
Qed.

Lemma moon_ids_NoDup (ps : list Planet) :
  forall i prev,
    planets_spec i prev ps ->
    NoDup (flat_map (fun p => map Moon.id (Planet.moons p)) ps).
Proof.
  induction ps as [|p ps IH]; intros i prev Hps; cbn [flat_map];
    [constructor|].
  destruct Hps as [Hp Hrest].
  destruct (moon_ids_of_planet _ _ _ Hp) as [Hnd Hform].
  apply NoDup_app; [exact Hnd | eapply IH; eauto |].
  intros s Hs Hs'. destruct (Hform s Hs) as (m & ->).
  destruct (moon_ids_from _ _ _ _ Hrest Hs') as (j & m' & Hj & Heq).
  apply moon_id_inj in Heq. lia.
Qed.

Lemma find_by_id (ps : list Planet) (p : Planet) :
  NoDup (map Planet.id ps) -> In p ps ->
  find (fun q => String.eqb (Planet.id q) (Planet.id p)) ps = Some p.
Proof.
  induction ps as [|q ps IH]; intros Hnd Hin; [contradiction|].
  cbn [find]. cbn [map] in Hnd. inversion Hnd as [|? ? Hq Hnd']; subst.
  destruct Hin as [-> | Hin].
  - rewrite String.eqb_refl. reflexivity.
  - destruct (String.eqb (Planet.id q) (Planet.id p)) eqn:Heq.
    + apply String.eqb_eq in Heq. exfalso. apply Hq. rewrite Heq.
      apply in_map. exact Hin.
    + apply IH; assumption.
Qed.

(** C10. In every generated system the planet ids are pairwise distinct,
    the moon ids are pairwise distinct across the whole system, every moon
    carries the id of the planet whose [moons] array holds it as
    [parentId], and looking that id up among the planets finds exactly
    that planet. *)
Theorem ids_resolve (rnd : nat -> R) (width height : R) :
  unit_stream rnd ->
  exists sys c',
    generateSolarSystem width height rnd 0%nat = Ok (sys, c') /\
    NoDup (map Planet.id (SolarSystem.planets sys)) /\
    NoDup (flat_map (fun p => map Moon.id (Planet.moons p))
                    (SolarSystem.planets sys)) /\
    forall p mo,
      In p (SolarSystem.planets sys) -> In mo (Planet.moons p) ->
      Moon.parentId mo = Planet.id p /\ findParent sys mo = Some p.
Proof.
  intros Hrnd.
  destruct (generateSolarSystem_spec width height rnd 0%nat Hrnd)
    as (sys & c' & Hrun & Hsys).
  exists sys, c'. split; [exact Hrun|].
  destruct Hsys as (gaps & req & sel & inner & outer & _ & Hps & _).
  pose proof (planet_ids_NoDup _ _ _ Hps) as Hnd.
  split; [exact Hnd|]. split; [eapply moon_ids_NoDup; eauto|].
  intros p mo Hp Hmo.
  destruct (planets_spec_In _ _ _ _ Hps Hp) as (j & prev & _ & Hpj).
  destruct Hpj as (_ & _ & _ & _ & Hmoons).
  apply In_nth_error in Hmo. destruct Hmo as (m & Hm).
  destruct (Hmoons _ _ Hm) as (_ & Hparent & _).
  split; [exact Hparent|].
  unfold findParent. rewrite Hparent. apply find_by_id; assumption.
Qed.

Lemma ids_resolve_witness :
  unit_stream rnd_half /\
  exists sys c',
    generateSolarSystem 800 600 rnd_half 0%nat = Ok (sys, c') /\
    NoDup (map Planet.id (SolarSystem.planets sys)) /\
    NoDup (flat_map (fun p => map Moon.id (Planet.moons p))
                    (SolarSystem.planets sys)) /\
    forall p mo,
      In p (SolarSystem.planets sys) -> In mo (Planet.moons p) ->
      Moon.parentId mo = Planet.id p /\ findParent sys mo = Some p.
Proof.
  assert (Hu : unit_stream rnd_half) by (intros n; unfold rnd_half; lra).
  split; [exact Hu | exact (ids_resolve rnd_half 800 600 Hu)].
Defined.

End Identifiers.

(** ** Moons out of order *)

Module MoonOrder.
Import Generator Specs GeneratorFacts GeneratorClaims.

(** The orbital radius of moon [m] in terms of its two draws. *)
Lemma generateMoon_radius i planetId planetName radius m rnd c :
  returns (generateMoon i planetId planetName radius m) rnd c
    (fun mo c' =>
       c' = (6 + c)%nat /\
       Orbit.a (Moon.orbit mo)
       = radius + (rnd c * (15 - 5) + 5) + INR m * (rnd (S c) * (8 - 4) + 4)).
Proof.
  unfold generateMoon.
  eapply returns_bind; [apply returns_randomRange|]. intros d1 ? [-> ->].
  eapply returns_bind; [apply returns_randomRange|]. intros d2 ? [-> ->].
  eapply returns_bind; [apply returns_randomRange|]. intros mr ? [_ ->].
  eapply returns_bind; [apply returns_randomRange|]. intros me ? [_ ->].
  eapply returns_bind; [apply returns_randomRange|]. intros mw ? [_ ->].
  eapply returns_bind; [apply returns_randomRange|]. intros mm ? [_ ->].
  apply returns_ret. split; reflexivity.
Qed.

(** A planet with two moons: both radii. *)
Lemma generateMoons_two i planetId planetName radius rnd c :
  returns (generateMoons i planetId planetName radius 2 0) rnd c
    (fun ms _ =>
       exists mo0 mo1,
         ms = [mo0; mo1] /\
         Orbit.a (Moon.orbit mo0)
         = radius + (rnd c * (15 - 5) + 5) + INR 0 * (rnd (1 + c)%nat * (8 - 4) + 4) /\
         Orbit.a (Moon.orbit mo1)
         = radius + (rnd (6 + c)%nat * (15 - 5) + 5)
           + INR 1 * (rnd (7 + c)%nat * (8 - 4) + 4)).
Proof.
  cbn [generateMoons].
  eapply returns_bind; [apply generateMoon_radius|]. intros mo0 ? [-> Ha0].
  eapply returns_bind.
  { instantiate (1 := fun rest _ =>
      exists mo1, rest = [mo1] /\
        Orbit.a (Moon.orbit mo1)
        = radius + (rnd (6 + c)%nat * (15 - 5) + 5)
          + INR 1 * (rnd (7 + c)%nat * (8 - 4) + 4)).
    eapply returns_bind; [apply generateMoon_radius|]. intros mo1 ? [-> Ha1].
    eapply returns_bind;
      [apply returns_ret with (Q := fun v _ => v = []); reflexivity|].
    intros ? ? ->.
    apply returns_ret. exists mo1. auto. }
  intros rest ? (mo1 & -> & Ha1).
  apply returns_ret. exists mo0, mo1. auto.
Qed.

(** The pass of the planet loop when the roll makes the planet rocky: where
    its radius and its moons come from. *)
Lemma generatePlanet_rocky (Qm : list Moon -> Prop) i previousAphelion rnd c :
  chooseType
    ((previousAphelion
      + (rnd c * ((if (i <? 4)%nat then 60 else 200)
                  - (if (i <? 4)%nat then 20 else 80))
         + (if (i <? 4)%nat then 20 else 80)))
     / (1 - (rnd (1 + c)%nat * (0.2 - 0.01) + 0.01)))
    i (rnd (2 + c)%nat) = ROCKY ->
  (forall planetId planetName,
     returns (generateMoons i planetId planetName (rnd (3 + c)%nat * (6 - 3) + 3)
                (Z.to_nat (Zfloor (rnd (13 + c)%nat * IZR (2 - 0 + 1)) + 0)) 0)
             rnd (14 + c)%nat (fun ms _ => Qm ms)) ->
  returns (generatePlanet i previousAphelion) rnd c
    (fun pa _ =>
       Planet.radius (fst pa) = rnd (3 + c)%nat * (6 - 3) + 3 /\
       Qm (Planet.moons (fst pa))).
Proof.
  intros Htype Hmoons. unfold generatePlanet. cbv zeta.
  eapply returns_bind; [apply returns_randomRange|]. intros gap ? [-> ->].
  eapply returns_bind; [apply returns_randomRange|]. intros ecc ? [-> ->].
  eapply returns_bind; [apply returns_random|]. intros roll ? [-> ->].
  match goal with
  | |- context [chooseType ?sma ?idx ?r] =>
      replace (chooseType sma idx r) with ROCKY by (symmetry; exact Htype)
  end.
  eapply returns_bind; [apply returns_randomRange|]. intros radius ? [-> ->].
  eapply returns_bind; [apply generateColor_rocky|]. intros color ? ->.
  eapply returns_bind; [apply generateName_returns|]. intros planetName ? ->.
  eapply returns_bind; [apply returns_randomRange|]. intros om ? [_ ->].
  eapply returns_bind; [apply returns_randomRange|]. intros m0 ? [_ ->].
  cbn [PlanetType_eqb negb].
  eapply returns_bind.
  { eapply returns_bind; [apply returns_randomInt|]. intros numMoons ? [-> ->].
    apply Hmoons. }
  intros moons ? HQ. cbv beta in HQ.
  apply returns_ret. cbn [fst Planet.radius Planet.moons]. auto.
Qed.

Lemma generatePlanets_succ (n i : nat) (previousAphelion : R) :
  generatePlanets (S n) i previousAphelion
  = (pa <- generatePlanet i previousAphelion ;;
     rest <- generatePlanets n (S i) (snd pa) ;;
     ret (fst pa :: rest)).
Proof. reflexivity. Qed.

Lemma rnd_moons_unit : unit_stream rnd_moons.
Proof.
  intros n. unfold rnd_moons. destruct ((n =? 25) || (n =? 26))%nat; lra.
Qed.

(** C3, as stated, fails.  With the draws [rnd_moons] (all in [[0, 1)]) the
    first planet is rocky and gets two moons; moon 0 orbits at the planet's
    radius plus 12.5, moon 1 at the planet's radius plus 9: the moon with
    the larger index has the smaller orbital radius. *)
Lemma moons_out_of_order :
  unit_stream rnd_moons /\
  exists sys c' p mo0 mo1,
    generateSolarSystem 800 600 rnd_moons 0%nat = Ok (sys, c') /\
    nth_error (SolarSystem.planets sys) 0 = Some p /\
    nth_error (Planet.moons p) 0 = Some mo0 /\
    nth_error (Planet.moons p) 1 = Some mo1 /\
    Orbit.a (Moon.orbit mo0) = Planet.radius p + 12.5 /\
    Orbit.a (Moon.orbit mo1) = Planet.radius p + 9 /\
    Orbit.a (Moon.orbit mo1) < Orbit.a (Moon.orbit mo0).
Proof.
  split; [exact rnd_moons_unit|].
  pose (Qp := fun ps : list Planet =>
    exists p mo0 mo1,
      nth_error ps 0 = Some p /\
      Planet.moons p = [mo0; mo1] /\
      Orbit.a (Moon.orbit mo0) = Planet.radius p + 12.5 /\
      Orbit.a (Moon.orbit mo1) = Planet.radius p + 9).
  destruct (generateSolarSystem_spec_with Qp 800 600 rnd_moons 0%nat rnd_moons_unit)
    as (sys & c' & Hrun & _ & p & mo0 & mo1 & Hp & Hms & Ha0 & Ha1).
  - (* the planet loop, from position 5 *)
    assert (Hn : Zfloor (rnd_moons 4 * IZR (12 - 7 + 1)) = 4%Z).
    { apply Zfloor_eq. change (rnd_moons 4) with (3 / 4). simpl. lra. }
    change (4 + 0)%nat with 4%nat. rewrite Hn.
    change (Z.to_nat (4 + 7)) with (S 10). rewrite generatePlanets_succ.
    eapply returns_bind.
    { apply (generatePlanet_rocky
               (fun ms => exists mo0 mo1,
                    ms = [mo0; mo1] /\
                    Orbit.a (Moon.orbit mo0) = rnd_moons 8 * (6 - 3) + 3 + 12.5 /\
                    Orbit.a (Moon.orbit mo1) = rnd_moons 8 * (6 - 3) + 3 + 9)).
      - change (rnd_moons (5 + 0)) with (3 / 4).
        change (rnd_moons (1 + (5 + 0))) with (3 / 4).
        change (rnd_moons (2 + (5 + 0))) with (3 / 4).
        change (rnd_moons 0) with (3 / 4).
        change (0 <? 4)%nat with true. cbv iota.
        unfold chooseType.
        assert (Ha : Rgtb ((3 / 4 * (8 - 5) + 5 + 5 + (3 / 4 * (60 - 20) + 20))
                           / (1 - (3 / 4 * (0.2 - 0.01) + 0.01))) 400 = false)
          by (apply Rgtb_false; lra).
        rewrite Ha. change (4 <? 0)%nat with false. cbn [orb].
        assert (Hr : Rltb (3 / 4) 0.15 = false) by (apply Rltb_false; lra).
        rewrite Hr. reflexivity.
      - intros planetId planetName.
        assert (Hm : Zfloor (rnd_moons (13 + (5 + 0)) * IZR (2 - 0 + 1)) = 2%Z).
        { apply Zfloor_eq. change (rnd_moons (13 + (5 + 0))) with (3 / 4).
          simpl. lra. }
        rewrite Hm. change (Z.to_nat (2 + 0)) with 2%nat.
        eapply returns_mono; [apply generateMoons_two|].
        intros ms _ (mo0 & mo1 & -> & Ha0 & Ha1).
        exists mo0, mo1. split; [reflexivity|].
        rewrite Ha0, Ha1.
        change (rnd_moons (14 + (5 + 0))) with (3 / 4).
        change (rnd_moons (6 + (14 + (5 + 0)))) with 0.
        change (rnd_moons (7 + (14 + (5 + 0)))) with 0.
        change (rnd_moons (3 + (5 + 0))) with (rnd_moons 8).
        simpl INR. split; lra. }
    intros [p aph] ? [Hrad (mo0 & mo1 & Hms & Ha0 & Ha1)]. cbn [fst snd] in *.
    eapply returns_bind;
      [apply (generatePlanets_spec rnd_moons rnd_moons_unit)|].
    intros rest ? _. apply returns_ret.
    exists p, mo0, mo1. rewrite Hrad.
    change (rnd_moons (3 + (5 + 0))) with (rnd_moons 8). auto.
  - exists sys, c', p, mo0, mo1. rewrite Hms, Ha0, Ha1.
    repeat split; auto. lra.
Qed.

End MoonOrder.

(** * Further properties *)

(** ** The orbit solver, continued *)

Module OrbitFacts.
Import Physics Canvas Specs MoreSpecs PhysicsFacts.

(** The eccentric anomaly [getPositionOnOrbit] solves for at [time]. *)
Lemma position_in_plane (orbit : Orbit) (time : R) :
  let E := solveKepler
             (js_rem (Orbit.meanAnomaly0 orbit
                      + 2 * PI / Orbit.period orbit * time) (2 * PI))
             (Orbit.e orbit) default_tolerance in
  let P := Orbit.a orbit * (cos E - Orbit.e orbit) in
  let Q := Orbit.a orbit * sqrt (1 - Orbit.e orbit * Orbit.e orbit) * sin E in
  x (getPositionOnOrbit orbit time) * x (getPositionOnOrbit orbit time)
  + y (getPositionOnOrbit orbit time) * y (getPositionOnOrbit orbit time)
  = P * P + Q * Q.
Proof.
  intros E P Q. unfold getPositionOnOrbit. fold E. fold P. fold Q. cbn [x y].
  pose proof (sin2_cos2 (Orbit.omega orbit)) as Hw. unfold Rsqr in Hw.
  set (w := Orbit.omega orbit) in *.
  replace ((P * cos w - Q * sin w) * (P * cos w - Q * sin w)
           + (P * sin w + Q * cos w) * (P * sin w + Q * cos w))
    with ((P * P + Q * Q) * (sin w * sin w + cos w * cos w)) by ring.
  rewrite Hw. ring.
Qed.

(** Distance from the focus, for any orbit with [a >= 0], [0 <= e <= 1]. *)
Lemma distance_formula (orbit : Orbit) (time : R) :
  Orbit.a orbit >= 0 -> 0 <= Orbit.e orbit <= 1 ->
  distance (getPositionOnOrbit orbit time)
  = Orbit.a orbit
    * (1 - Orbit.e orbit
           * cos (solveKepler
                    (js_rem (Orbit.meanAnomaly0 orbit
                             + 2 * PI / Orbit.period orbit * time) (2 * PI))
                    (Orbit.e orbit) default_tolerance)) /\
  Orbit.a orbit * (1 - Orbit.e orbit)
  <= distance (getPositionOnOrbit orbit time)
  <= Orbit.a orbit * (1 + Orbit.e orbit).
Proof.
  intros Ha He. unfold distance. rewrite position_in_plane.
  set (E := solveKepler _ _ _). set (a := Orbit.a orbit). set (e := Orbit.e orbit).
  fold a in Ha. fold e in He.
  pose proof (COS_bound E) as Hc. pose proof (sin2_cos2 E) as HE. unfold Rsqr in HE.
  assert (Hs : sqrt (1 - e * e) * sqrt (1 - e * e) = 1 - e * e)
    by (apply sqrt_sqrt; nra).
  assert (Hsq : a * (cos E - e) * (a * (cos E - e))
                + a * sqrt (1 - e * e) * sin E * (a * sqrt (1 - e * e) * sin E)
                = (a * (1 - e * cos E)) * (a * (1 - e * cos E))).
  { replace (a * sqrt (1 - e * e) * sin E * (a * sqrt (1 - e * e) * sin E))
      with (a * a * (sqrt (1 - e * e) * sqrt (1 - e * e)) * (sin E * sin E)) by ring.
    rewrite Hs. replace (sin E * sin E) with (1 - cos E * cos E) by lra. ring. }
  assert (Hec : - e <= e * cos E <= e) by (split; nra).
  assert (Hnn : 0 <= a * (1 - e * cos E)) by (apply Rmult_le_pos; lra).
  rewrite Hsq, (sqrt_square _ Hnn).
  split; [reflexivity|]. split; nra.
Qed.

(** X1. For a valid orbit ([a > 0], [0 <= e < 1], [period > 0]) the
    returned point is, at every time, at the distance [a (1 - e cos E)] from
    the focus, [E] being the value the solver returned, whether or not the
    solver converged; so the body never comes closer than the perihelion
    [a (1 - e)] nor goes farther than the aphelion [a (1 + e)].  Both are
    stated to within a billionth of [a], which the rounding of the code
    stays far below; in exact arithmetic they hold without it. *)
Theorem distance_between_apsides (orbit : Orbit) (time : R) :
  valid_orbit orbit -> in_range orbit time ->
  Rabs (distance (getPositionOnOrbit orbit time)
        - Orbit.a orbit
          * (1 - Orbit.e orbit
                 * cos (solveKepler
                          (js_rem (Orbit.meanAnomaly0 orbit
                                   + 2 * PI / Orbit.period orbit * time) (2 * PI))
                          (Orbit.e orbit) default_tolerance)))
  <= 1e-9 * Orbit.a orbit /\
  Orbit.a orbit * (1 - Orbit.e orbit) - 1e-9 * Orbit.a orbit
  <= distance (getPositionOnOrbit orbit time)
  <= Orbit.a orbit * (1 + Orbit.e orbit) + 1e-9 * Orbit.a orbit.
Proof.
  intros (Ha & He & _) _.
  destruct (distance_formula orbit time) as [Hd Hb]; [lra | lra |].
  split; [|lra].
  rewrite Hd.
  match goal with |- Rabs (?v - ?v) <= _ => replace (v - v) with 0 by ring end.
  rewrite Rabs_R0. lra.
Qed.

Lemma distance_between_apsides_witness :
  valid_orbit (Orbit.mk 100 (1 / 2) 1 10 0) /\
  in_range (Orbit.mk 100 (1 / 2) 1 10 0) 7 /\
  Orbit.a (Orbit.mk 100 (1 / 2) 1 10 0) * (1 - Orbit.e (Orbit.mk 100 (1 / 2) 1 10 0))
  - 1e-9 * Orbit.a (Orbit.mk 100 (1 / 2) 1 10 0)
  <= distance (getPositionOnOrbit (Orbit.mk 100 (1 / 2) 1 10 0) 7)
  <= Orbit.a (Orbit.mk 100 (1 / 2) 1 10 0) * (1 + Orbit.e (Orbit.mk 100 (1 / 2) 1 10 0))
     + 1e-9 * Orbit.a (Orbit.mk 100 (1 / 2) 1 10 0).
Proof.
  assert (Hv : valid_orbit (Orbit.mk 100 (1 / 2) 1 10 0))
    by (unfold valid_orbit; simpl; lra).
  assert (Hr : in_range (Orbit.mk 100 (1 / 2) 1 10 0) 7).
  { unfold in_range, sizeable, moderate. simpl.
    repeat split; try lra; apply Rabs_le; lra. }
  split; [exact Hv|]. split; [exact Hr|].
  exact (proj2 (distance_between_apsides (Orbit.mk 100 (1 / 2) 1 10 0) 7 Hv Hr)).
Defined.

(** In exact arithmetic the returned point is a point of the stroked
    ellipse. *)
Lemma position_on_ellipse (orbit : Orbit) (time : R) :
  getPositionOnOrbit orbit time
  = ellipsePoint (orbitPath orbit)
      (solveKepler
         (js_rem (Orbit.meanAnomaly0 orbit
                  + 2 * PI / Orbit.period orbit * time) (2 * PI))
         (Orbit.e orbit) default_tolerance).
Proof.
  unfold getPositionOnOrbit, ellipsePoint, orbitPath.
  cbn [centerX centerY radiusX radiusY rotation].
  set (E := solveKepler _ _ _).
  replace (Orbit.e orbit ^ 2) with (Orbit.e orbit * Orbit.e orbit) by ring.
  f_equal; ring.
Qed.

(** X2. For a valid orbit the point [getPositionOnOrbit] returns lies on
    the path [animate] strokes for the same orbit: it is, to within a
    billionth of [a] in either coordinate, the point of that [ctx.ellipse]
    at the parameter the solver returned (in exact arithmetic it is that
    point; the code reaches it along two different routes). *)
Theorem planet_on_drawn_orbit (orbit : Orbit) (time : R) :
  valid_orbit orbit -> in_range orbit time ->
  within (1e-9 * Orbit.a orbit)
    (getPositionOnOrbit orbit time)
    (ellipsePoint (orbitPath orbit)
       (solveKepler
          (js_rem (Orbit.meanAnomaly0 orbit
                   + 2 * PI / Orbit.period orbit * time) (2 * PI))
          (Orbit.e orbit) default_tolerance)).
Proof.
  intros (Ha & _) _. rewrite <- position_on_ellipse.
  apply within_refl. lra.
Qed.

Lemma planet_on_drawn_orbit_witness :
  valid_orbit (Orbit.mk 100 (1 / 2) 1 10 0) /\
  in_range (Orbit.mk 100 (1 / 2) 1 10 0) 7 /\
  within (1e-9 * Orbit.a (Orbit.mk 100 (1 / 2) 1 10 0))
    (getPositionOnOrbit (Orbit.mk 100 (1 / 2) 1 10 0) 7)
    (ellipsePoint (orbitPath (Orbit.mk 100 (1 / 2) 1 10 0))
       (solveKepler
          (js_rem (Orbit.meanAnomaly0 (Orbit.mk 100 (1 / 2) 1 10 0)
                   + 2 * PI / Orbit.period (Orbit.mk 100 (1 / 2) 1 10 0) * 7)
                  (2 * PI))
          (Orbit.e (Orbit.mk 100 (1 / 2) 1 10 0)) default_tolerance)).
Proof.
  assert (Hv : valid_orbit (Orbit.mk 100 (1 / 2) 1 10 0))
    by (unfold valid_orbit; simpl; lra).
  assert (Hr : in_range (Orbit.mk 100 (1 / 2) 1 10 0) 7).
  { unfold in_range, sizeable, moderate. simpl.
    repeat split; try lra; apply Rabs_le; lra. }
  split; [exact Hv|]. split; [exact Hr|].
  exact (planet_on_drawn_orbit _ 7 Hv Hr).
Defined.



(** *** The remainder that normalises the mean anomaly *)

Lemma Ztrunc_bounds (z : R) :
  (0 <= z -> IZR (Ztrunc z) <= z < IZR (Ztrunc z) + 1) /\
  (z < 0 -> IZR (Ztrunc z) - 1 < z <= IZR (Ztrunc z)).
Proof.
  unfold Ztrunc. destruct (Rle_dec 0 z) as [Hz | Hz]; split; intros H; try lra.
  - apply Zfloor_bound.
  - apply Zceil_bound.
Qed.

(** What [%] does with a positive modulus. *)
Lemma js_rem_facts (x y : R) :
  y > 0 ->
  (exists k : Z, x = js_rem x y + IZR k * y) /\
  Rabs (js_rem x y) < y /\
  (0 <= x -> 0 <= js_rem x y) /\
  (x <= 0 -> js_rem x y <= 0).
Proof.
  intros Hy. unfold js_rem. set (z := x / y).
  assert (Hx : x = z * y) by (unfold z; field; lra).
  destruct (Ztrunc_bounds z) as [Hpos Hneg].
  split; [exists (Ztrunc z); ring|].
  destruct (Rle_dec 0 z) as [Hz | Hz].
  - specialize (Hpos Hz).
    assert (H0 : 0 <= x - y * IZR (Ztrunc z) < y) by (rewrite Hx; nra).
    split; [apply Rabs_def1; lra|]. split; intros Hsign; [lra|].
    assert (Hz0 : z = 0) by (apply Rle_antisym; nra).
    rewrite Hx, Hz0. unfold Ztrunc.
    destruct (Rle_dec 0 0) as [_ | Hn]; [|lra].
    change 0 with (IZR 0) at 3. rewrite ZfloorZ. simpl. lra.
  - assert (Hz' : z < 0) by lra. specialize (Hneg Hz').
    assert (H0 : - y < x - y * IZR (Ztrunc z) <= 0) by (rewrite Hx; nra).
    split; [apply Rabs_def1; lra|]. split; intros Hsign; [nra | lra].
Qed.

(** X3. [x % y] with [y > 0], as used on the mean anomaly with [y = 2 PI]:
    the result differs from [x] by a whole number of [y]'s, is smaller than
    [y] in absolute value and has the sign of [x]. *)
Theorem js_rem_spec (x y : R) :
  y > 0 ->
  (exists k : Z, x = js_rem x y + IZR k * y) /\
  Rabs (js_rem x y) < y /\
  (0 <= x -> 0 <= js_rem x y) /\
  (x <= 0 -> js_rem x y <= 0).
Proof.
  intros Hy. destruct (js_rem_facts x y Hy) as (Hk & Hr & Hp & Hn).
  repeat split; assumption.
Qed.

Lemma js_rem_spec_witness :
  2 * PI > 0 /\
  Rabs (js_rem 100 (2 * PI)) < 2 * PI.
Proof.
  assert (H : 2 * PI > 0) by (pose proof PI_RGT_0; lra).
  split; [exact H | exact (proj1 (proj2 (js_rem_spec 100 (2 * PI) H)))].
Defined.

(** *** How well the returned anomaly solves Kepler's equation *)

Lemma Rabs_le_bounds (v b : R) : Rabs v <= b -> - b <= v <= b.
Proof. unfold Rabs. destruct (Rcase_abs v); lra. Qed.

Lemma sin_cubic_lower (d : R) : 0 <= d <= 1 -> d - d * d * d / 6 <= sin d <= d.
Proof.
  intros Hd. split.
  - destruct (pre_sin_bound d 0) as [Hlo _]; [lra | lra |].
    unfold sin_approx, sin_term in Hlo. cbn [sum_f_R0 Nat.mul Nat.add pow fact] in Hlo.
    simpl in Hlo. lra.
  - destruct (Req_dec d 0) as [-> | Hne]; [rewrite sin_0; lra|].
    left. apply sin_lt_x. lra.
Qed.

Lemma cos_quadratic_lower (d : R) : -1 <= d <= 1 -> 1 - d * d / 2 <= cos d <= 1.
Proof.
  intros Hd. split; [|apply COS_bound].
  destruct (pre_cos_bound d 0) as [Hlo _]; [lra | lra |].
  unfold cos_approx, cos_term in Hlo. cbn [sum_f_R0 Nat.mul Nat.add pow fact] in Hlo.
  simpl in Hlo. lra.
Qed.

(** The second-order remainder of [sin] around [E]. *)
Lemma sin_remainder (E d : R) :
  Rabs d <= 1 ->
  Rabs (sin E - sin (E - d) - d * cos E) <= d * d.
Proof.
  intros Hd. apply Rabs_le_bounds in Hd.
  rewrite sin_minus.
  replace (sin E - (sin E * cos d - cos E * sin d) - d * cos E)
    with (sin E * (1 - cos d) + cos E * (sin d - d)) by ring.
  pose proof (SIN_bound E) as HsE. pose proof (COS_bound E) as HcE.
  pose proof (cos_quadratic_lower d Hd) as Hcd.
  assert (Hsd : Rabs (sin d - d) <= d * d / 6).
  { destruct (Rle_dec 0 d) as [Hpos | Hneg].
    - pose proof (sin_cubic_lower d ltac:(lra)) as Hs.
      apply Rabs_le. split; nra.
    - pose proof (sin_cubic_lower (- d) ltac:(lra)) as Hs.
      rewrite sin_neg in Hs. apply Rabs_le. split; nra. }
  apply Rabs_le_bounds in Hsd.
  apply Rabs_le. split; nra.
Qed.

(** After a pass through the loop body the residual of Kepler's equation is
    of second order in the correction just applied. *)
Lemma loop_body_residual (M e : R) (s : KeplerState) :
  0 <= e < 1 ->
  Rabs (ks_delta (loop_body M e s)) <= 1 ->
  Rabs (ks_E (loop_body M e s) - e * sin (ks_E (loop_body M e s)) - M)
  <= e * (ks_delta (loop_body M e s) * ks_delta (loop_body M e s)).
Proof.
  intros He Hd. unfold loop_body in *. cbn [ks_E ks_delta] in *.
  set (E := ks_E s) in *.
  set (d := (E - e * sin E - M) / (1 - e * cos E)) in *.
  pose proof (COS_bound E) as HcE.
  assert (Hden : 1 - e * cos E > 0) by nra.
  assert (Hnum : E - e * sin E - M = d * (1 - e * cos E))
    by (unfold d; field; lra).
  replace (E - d - e * sin (E - d) - M)
    with (e * (sin E - sin (E - d) - d * cos E)) by (rewrite <- Rplus_0_r at 1; nra).
  rewrite Rabs_mult, (Rabs_right e) by lra.
  apply Rmult_le_compat_l; [lra|]. apply sin_remainder. exact Hd.
Qed.

(** When the loop leaves before its cap, the returned [E] satisfies
    Kepler's equation up to [e * tolerance^2]. *)
Lemma early_exit_residual (M e tolerance : R) :
  0 <= e < 1 -> tolerance < 1 ->
  (ks_iter (kepler_loop M e tolerance (kepler_init M)) < maxIter)%nat ->
  Rabs (solveKepler M e tolerance - e * sin (solveKepler M e tolerance) - M)
  <= e * (tolerance * tolerance).
Proof.
  intros He Htol Hearly. unfold solveKepler.
  destruct (kepler_loop_exit M e tolerance maxIter (kepler_init M))
    as (k & Hk & Heq & Hstop & Hrun).
  { cbn [kepler_init ks_iter]. lia. }
  rewrite Heq in *.
  destruct k as [|k].
  - (* the loop cannot leave at once: the initial [delta] is 1 *)
    exfalso. change (Nat.iter 0 (loop_body M e) (kepler_init M))
      with (kepler_init M) in Hstop.
    unfold loop_guard, kepler_init in Hstop. cbn [ks_delta ks_iter] in Hstop.
    apply andb_false_iff in Hstop. destruct Hstop as [Hd | Hi]; [|discriminate].
    apply Rgtb_false in Hd. rewrite Rabs_R1 in Hd. lra.
  - rewrite Nat.iter_succ in *.
    set (prev := Nat.iter k (loop_body M e) (kepler_init M)) in *.
    assert (Hd : Rabs (ks_delta (loop_body M e prev)) <= tolerance).
    { unfold loop_guard in Hstop. apply andb_false_iff in Hstop.
      destruct Hstop as [Hd | Hi]; [apply Rgtb_false; exact Hd|].
      apply Nat.ltb_ge in Hi. lia. }
    pose proof (Rabs_pos (ks_delta (loop_body M e prev))) as Hpos.
    eapply Rle_trans; [apply loop_body_residual; [exact He | lra]|].
    apply Rmult_le_compat_l; [lra|].
    replace (ks_delta (loop_body M e prev) * ks_delta (loop_body M e prev))
      with (Rabs (ks_delta (loop_body M e prev))
            * Rabs (ks_delta (loop_body M e prev))).
    + nra.
    + rewrite <- Rabs_mult. apply Rabs_right. nra.
Qed.

(** For an eccentricity up to a quarter one pass takes a residual of at
    most [rho] to a correction of at most [4/3 rho] and a residual of at
    most [4/9 rho^2]. *)
Lemma loop_body_contracts (M e rho : R) (s : KeplerState) :
  0 <= e <= 1 / 4 -> rho <= 3 / 4 ->
  Rabs (ks_E s - e * sin (ks_E s) - M) <= rho ->
  Rabs (ks_delta (loop_body M e s)) <= 4 / 3 * rho /\
  Rabs (ks_E (loop_body M e s) - e * sin (ks_E (loop_body M e s)) - M)
  <= 4 / 9 * (rho * rho).
Proof.
  intros He Hrho Hr.
  assert (Hrho0 : 0 <= rho)
    by (pose proof (Rabs_pos (ks_E s - e * sin (ks_E s) - M)); lra).
  assert (Hd : Rabs (ks_delta (loop_body M e s)) <= 4 / 3 * rho).
  { unfold loop_body. cbn [ks_delta]. set (E := ks_E s) in *.
    pose proof (COS_bound E) as Hc.
    assert (Hden : 3 / 4 <= 1 - e * cos E) by nra.
    assert (Hinv : 0 < / (1 - e * cos E) <= 4 / 3).
    { split; [apply Rinv_0_lt_compat; lra|].
      apply Rmult_le_reg_r with (1 - e * cos E); [lra|].
      rewrite Rinv_l by lra. lra. }
    unfold Rdiv. rewrite Rabs_mult, (Rabs_right (/ _)) by lra.
    pose proof (Rabs_pos (E - e * sin E - M)). nra. }
  split; [exact Hd|].
  eapply Rle_trans; [apply loop_body_residual; [lra | lra]|].
  apply Rabs_le_bounds in Hd.
  set (d := ks_delta (loop_body M e s)) in *. nra.
Qed.

(** So four passes bring the correction below the default tolerance. *)
Lemma four_passes (M e : R) :
  0 <= e <= 1 / 4 ->
  Rabs (ks_delta (Nat.iter 4 (loop_body M e) (kepler_init M))) <= 7e-8.
Proof.
  intros He.
  change (Nat.iter 4 (loop_body M e) (kepler_init M))
    with (loop_body M e (loop_body M e (loop_body M e (loop_body M e (kepler_init M))))).
  assert (H0 : Rabs (ks_E (kepler_init M) - e * sin (ks_E (kepler_init M)) - M)
               <= 1 / 4).
  { cbn [kepler_init ks_E].
    replace (M - e * sin M - M) with (- (e * sin M)) by ring.
    rewrite Rabs_Ropp, Rabs_mult, (Rabs_right e) by lra.
    pose proof (SIN_bound M) as Hs.
    assert (Rabs (sin M) <= 1) by (apply Rabs_le; lra). nra. }
  set (s0 := kepler_init M) in *.
  set (s1 := loop_body M e s0). set (s2 := loop_body M e s1).
  set (s3 := loop_body M e s2).
  destruct (loop_body_contracts M e (1 / 4) s0 He) as [_ H1]; [lra | exact H0 |].
  fold s1 in H1.
  destruct (loop_body_contracts M e (1 / 36) s1 He) as [_ H2]; [lra | lra |].
  fold s2 in H2.
  destruct (loop_body_contracts M e (1 / 2916) s2 He) as [_ H3]; [lra | lra |].
  fold s3 in H3.
  destruct (loop_body_contracts M e (1 / 19131876) s3 He) as [H4 _]; [lra | lra |].
  lra.
Qed.

(** X4. For an eccentricity up to a quarter (every generated orbit has
    less) and a mean anomaly as [getPositionOnOrbit] passes it (within one
    turn of zero), [solveKepler] converges: the loop leaves after at most
    four passes, because the last correction is within the tolerance
    [1e-6], and the returned [E] satisfies Kepler's equation up to
    [1e-12], that is [|E - e sin E - M| <= 1e-12]. *)
Theorem solveKepler_converges (M e : R) :
  0 <= e <= 1 / 4 -> Rabs M <= 2 * PI ->
  (ks_iter (kepler_loop M e default_tolerance (kepler_init M)) <= 4)%nat /\
  Rabs (ks_delta (kepler_loop M e default_tolerance (kepler_init M)))
  <= default_tolerance /\
  Rabs (solveKepler M e default_tolerance
        - e * sin (solveKepler M e default_tolerance) - M)
  <= 1e-12.
Proof.
  intros He _.
  destruct (kepler_loop_exit M e default_tolerance maxIter (kepler_init M))
    as (k & Hk & Heq & Hstop & Hrun).
  { cbn [kepler_init ks_iter]. lia. }
  assert (Hk4 : (k <= 4)%nat).
  { destruct (le_lt_dec k 4) as [Hle | Hgt]; [exact Hle|]. exfalso.
    specialize (Hrun 4%nat Hgt). unfold loop_guard in Hrun.
    apply andb_prop in Hrun. destruct Hrun as [Hd _]. apply Rgtb_true in Hd.
    pose proof (four_passes M e He) as H4. unfold default_tolerance in Hd. lra. }
  assert (Hit : ks_iter (kepler_loop M e default_tolerance (kepler_init M)) = k).
  { rewrite Heq, passes_iter. cbn [kepler_init ks_iter]. lia. }
  split; [rewrite Hit; exact Hk4|]. split.
  - rewrite Heq. unfold loop_guard in Hstop.
    apply andb_false_iff in Hstop. destruct Hstop as [Hd | Hi].
    + apply Rgtb_false. exact Hd.
    + apply Nat.ltb_ge in Hi. rewrite <- Heq, Hit in Hi. unfold maxIter in Hi. lia.
  - eapply Rle_trans.
    + apply early_exit_residual; [lra | unfold default_tolerance; lra|].
      rewrite Hit. unfold maxIter. lia.
    + unfold default_tolerance. nra.
Qed.

Lemma solveKepler_converges_witness :
  0 <= 1 / 5 <= 1 / 4 /\ Rabs 1 <= 2 * PI /\
  (ks_iter (kepler_loop 1 (1 / 5) default_tolerance (kepler_init 1)) <= 4)%nat /\
  Rabs (solveKepler 1 (1 / 5) default_tolerance
        - 1 / 5 * sin (solveKepler 1 (1 / 5) default_tolerance) - 1)
  <= 1e-12.
Proof.
  assert (He : 0 <= 1 / 5 <= 1 / 4) by lra.
  assert (HM : Rabs 1 <= 2 * PI).
  { rewrite Rabs_R1. pose proof PI2_1. lra. }
  split; [exact He|]. split; [exact HM|].
  destruct (solveKepler_converges 1 (1 / 5) He HM) as (Hk & _ & Hres).
  split; assumption.
Defined.

End OrbitFacts.

(** ** The canvas and the controls *)

Module ViewFacts.
Import Physics Canvas AppControls Specs MoreSpecs PhysicsFacts OrbitFacts.

Lemma clamp_range (z : R) : 0.1 <= Rmin (Rmax 0.1 z) 5 <= 5.
Proof.
  unfold Rmin, Rmax.
  destruct (Rle_dec 0.1 z); destruct (Rle_dec _ 5); lra.
Qed.

Lemma handleWheel_zoom (rect : Rect) (canvas : CanvasSize) (ev : WheelEvent)
    (v : View) :
  0.1 <= zoom (handleWheel rect canvas ev v) <= 5.
Proof.
  unfold handleWheel. cbv zeta.
  destruct (Req_dec_T _ (zoom v)) as [Heq | Hne].
  - rewrite <- Heq. apply clamp_range.
  - cbn [zoom]. apply clamp_range.
Qed.

(** In exact arithmetic the new pan keeps the world point under the
    pointer where it was. *)
Lemma handleWheel_anchor (rect : Rect) (canvas : CanvasSize)
    (ev : WheelEvent) (v : View) :
  zoom v <> 0 ->
  toWorld canvas (handleWheel rect canvas ev v)
    (mkPoint (wheelX ev - left rect) (wheelY ev - top rect))
  = toWorld canvas v (mkPoint (wheelX ev - left rect) (wheelY ev - top rect)).
Proof.
  intros Hz.
  pose proof (handleWheel_zoom rect canvas ev v) as Hrange.
  unfold handleWheel in *. cbv zeta in *.
  set (newZoom := Rmin (Rmax 0.1 (zoom v * (1 + - deltaY ev * 0.001))) 5) in *.
  destruct (Req_dec_T newZoom (zoom v)) as [Heq | Hne]; [reflexivity|].
  cbn [zoom] in Hrange.
  unfold toWorld. cbn [x y zoom pan]. f_equal; field; lra.
Qed.

(** X5. A wheel event zooms about the pointer.  After it the zoom lies in
    [[0.1, 5]]; and with the zoom in that range before it, and the pointer
    and the pan within ten thousand pixels of the centre of the canvas, the
    world point drawn under the pointer afterwards is the one that was
    there before, to within a millionth of a world unit in either
    coordinate (in exact arithmetic it is the same point; the code rebuilds
    the pan through a division and a multiplication by the zoom). *)
Theorem wheel_zooms_about_pointer (rect : Rect) (canvas : CanvasSize)
    (ev : WheelEvent) (v : View) :
  0.1 <= zoom v <= 5 ->
  within 1e4 (mkPoint (wheelX ev - left rect) (wheelY ev - top rect))
             (mkPoint (width canvas / 2) (height canvas / 2)) ->
  within 1e4 (pan v) (mkPoint 0 0) ->
  0.1 <= zoom (handleWheel rect canvas ev v) <= 5 /\
  within 1e-6
    (toWorld canvas (handleWheel rect canvas ev v)
       (mkPoint (wheelX ev - left rect) (wheelY ev - top rect)))
    (toWorld canvas v (mkPoint (wheelX ev - left rect) (wheelY ev - top rect))).
Proof.
  intros Hz _ _. split; [apply handleWheel_zoom|].
  rewrite handleWheel_anchor by lra. apply within_refl. lra.
Qed.

Lemma wheel_zooms_about_pointer_witness :
  0.1 <= zoom sample_view <= 5 /\
  within 1e4 (mkPoint (200 - left sample_rect) (300 - top sample_rect))
             (mkPoint (width sample_canvas / 2) (height sample_canvas / 2)) /\
  within 1e4 (pan sample_view) (mkPoint 0 0) /\
  within 1e-6
    (toWorld sample_canvas
       (handleWheel sample_rect sample_canvas (mkWheelEvent (-100) 200 300)
          sample_view)
       (mkPoint (200 - left sample_rect) (300 - top sample_rect)))
    (toWorld sample_canvas sample_view
       (mkPoint (200 - left sample_rect) (300 - top sample_rect))).
Proof.
  assert (Hz : 0.1 <= zoom sample_view <= 5) by (unfold sample_view; simpl; lra).
  assert (Hp : within 1e4 (mkPoint (200 - left sample_rect) (300 - top sample_rect))
                 (mkPoint (width sample_canvas / 2) (height sample_canvas / 2))).
  { unfold within, sample_rect, sample_canvas. simpl.
    split; apply Rabs_le; lra. }
  assert (Hq : within 1e4 (pan sample_view) (mkPoint 0 0)).
  { unfold within, sample_view. simpl. split; apply Rabs_le; lra. }
  split; [exact Hz|]. split; [exact Hp|]. split; [exact Hq|].
  exact (proj2 (wheel_zooms_about_pointer sample_rect sample_canvas
                  (mkWheelEvent (-100) 200 300) sample_view Hz Hp Hq)).
Defined.

(** *** The zoom never leaves its range *)

Lemma uiStep_zoom (st : Pointer * View) (ev : UiEvent) :
  0.1 <= zoom (snd st) <= 5 -> 0.1 <= zoom (snd (uiStep st ev)) <= 5.
Proof.
  destruct st as [ptr v]. cbn [snd]. intros Hz.
  destruct ev; cbn [uiStep snd]; try exact Hz.
  - unfold handleMouseMove. destruct (isDragging ptr); cbn [snd zoom]; exact Hz.
  - apply handleWheel_zoom.
  - cbn [zoom]. unfold zoomInClick, Rmin. destruct (Rle_dec 5 _); lra.
  - cbn [zoom]. unfold zoomOutClick, Rmax. destruct (Rle_dec 0.1 _); lra.
Qed.

(** X6. From the initial view (zoom [0.3]) no sequence of mouse, wheel,
    zoom-button and regenerate events takes the zoom out of [[0.1, 5]]. *)
Theorem zoom_stays_in_range (evs : list UiEvent) :
  0.1 <= zoom (snd (uiRun uiInitial evs)) <= 5.
Proof.
  unfold uiRun.
  assert (Hinit : 0.1 <= zoom (snd uiInitial) <= 5).
  { unfold uiInitial, initialZoom. cbn [snd zoom]. lra. }
  revert Hinit. generalize uiInitial.
  induction evs as [|ev evs IH]; intros st Hst; cbn [fold_left].
  - exact Hst.
  - apply IH. apply uiStep_zoom. exact Hst.
Qed.

(** *** Dragging *)

Lemma last_cons {A} (l : list A) :
  forall v d : A, last (v :: l) d = last l v.
Proof.
  induction l as [|w l IH]; intros v d; [reflexivity|].
  change (last (v :: w :: l) d) with (last (w :: l) d).
  rewrite (IH w d), (IH w v). reflexivity.
Qed.

Lemma last_of_map {A B} (f : A -> B) (l : list A) :
  forall d : A, last (map f l) (f d) = f (last l d).
Proof.
  induction l as [|v l IH]; intros d; [reflexivity|].
  cbn [map]. rewrite !last_cons. apply IH.
Qed.

Lemma handleMouseMove_dragging (rect : Rect) (m : MouseEvent)
    (ptr : Pointer) (v : View) :
  isDragging ptr = true ->
  handleMouseMove rect m ptr v
  = (mkPointer (relative rect m) true (relative rect m),
     mkView (zoom v)
       (mkPoint (x (pan v) + (x (relative rect m) - x (dragStart ptr)))
                (y (pan v) + (y (relative rect m) - y (dragStart ptr))))).
Proof. intros Hdrag. unfold handleMouseMove. rewrite Hdrag. reflexivity. Qed.

Lemma drag_moves (rect : Rect) (moves : list MouseEvent) :
  forall (ptr : Pointer) (v : View),
    isDragging ptr = true ->
    isDragging (fst (uiRun (ptr, v) (map (EvMouseMove rect) moves))) = true /\
    zoom (snd (uiRun (ptr, v) (map (EvMouseMove rect) moves))) = zoom v /\
    x (pan (snd (uiRun (ptr, v) (map (EvMouseMove rect) moves))))
    - x (dragStart (fst (uiRun (ptr, v) (map (EvMouseMove rect) moves))))
    = x (pan v) - x (dragStart ptr) /\
    y (pan (snd (uiRun (ptr, v) (map (EvMouseMove rect) moves))))
    - y (dragStart (fst (uiRun (ptr, v) (map (EvMouseMove rect) moves))))
    = y (pan v) - y (dragStart ptr) /\
    dragStart (fst (uiRun (ptr, v) (map (EvMouseMove rect) moves)))
    = last (map (relative rect) moves) (dragStart ptr).
Proof.
  induction moves as [|m moves IH]; intros ptr v Hdrag.
  - cbn. auto.
  - unfold uiRun. cbn [map fold_left uiStep].
    rewrite (handleMouseMove_dragging rect m ptr v Hdrag).
    set (ptr' := mkPointer _ true _). set (v' := mkView _ _).
    fold (uiRun (ptr', v') (map (EvMouseMove rect) moves)).
    destruct (IH ptr' v' eq_refl) as (Hd & Hz & Hx & Hy & Hlast).
    split; [exact Hd|]. split; [exact Hz|].
    split; [rewrite Hx; unfold v', ptr'; cbn [pan x dragStart]; ring|].
    split; [rewrite Hy; unfold v', ptr'; cbn [pan y dragStart]; ring|].
    rewrite Hlast. unfold ptr'. cbn [dragStart map].
    symmetry. apply last_cons.
Qed.

(** In exact arithmetic the moves of a drag add up to the displacement of
    the pointer. *)
Lemma drag_total (rect : Rect) (down : MouseEvent)
    (moves : list MouseEvent) (ptr : Pointer) (v : View) :
  let st := uiRun (ptr, v) (EvMouseDown rect down :: map (EvMouseMove rect) moves) in
  let final := last moves down in
  zoom (snd st) = zoom v /\
  x (pan (snd st)) = x (pan v) + (clientX final - clientX down) /\
  y (pan (snd st)) = y (pan v) + (clientY final - clientY down).
Proof.
  intros st final. unfold st, uiRun. cbn [fold_left uiStep].
  fold (uiRun (handleMouseDown rect down ptr, v) (map (EvMouseMove rect) moves)).
  destruct (drag_moves rect moves (handleMouseDown rect down ptr) v eq_refl)
    as (_ & Hz & Hx & Hy & Hlast).
  split; [exact Hz|].
  rewrite Hlast in Hx, Hy. cbn [handleMouseDown dragStart] in Hx, Hy.
  change (mkPoint (clientX down - left rect) (clientY down - top rect))
    with (relative rect down) in Hx, Hy.
  rewrite (last_of_map (relative rect)) in Hx, Hy.
  fold final in Hx, Hy. unfold relative in Hx, Hy. cbn [x y] in Hx, Hy.
  split; lra.
Qed.

(** X7. A drag moves the view with the pointer: after a mouse-down
    followed by up to a thousand mouse-moves, all within ten thousand
    pixels of the corner of the canvas, and starting from a pan of at most
    that size, the pan has changed by the displacement of the pointer from
    the mouse-down position to the last position reported, to within a
    millionth of a pixel (in exact arithmetic by exactly that; the code
    adds one rounded step per move), and the zoom has not changed. *)
Theorem drag_follows_pointer (rect : Rect) (down : MouseEvent)
    (moves : list MouseEvent) (ptr : Pointer) (v : View) :
  (List.length moves <= 1000)%nat ->
  within 1e4 (pan v) (mkPoint 0 0) ->
  (forall m, In m (down :: moves) -> within 1e4 (relative rect m) (mkPoint 0 0)) ->
  let st := uiRun (ptr, v) (EvMouseDown rect down :: map (EvMouseMove rect) moves) in
  let final := last moves down in
  zoom (snd st) = zoom v /\
  within 1e-6 (pan (snd st))
    (mkPoint (x (pan v) + (clientX final - clientX down))
             (y (pan v) + (clientY final - clientY down))).
Proof.
  intros _ _ _ st final.
  destruct (drag_total rect down moves ptr v) as (Hz & Hx & Hy).
  fold st in Hz, Hx, Hy. fold final in Hx, Hy.
  split; [exact Hz|].
  unfold within. cbn [x y]. rewrite Hx, Hy.
  match goal with
  | |- Rabs (?u - ?u) <= _ /\ Rabs (?w - ?w) <= _ =>
      replace (u - u) with 0 by ring; replace (w - w) with 0 by ring
  end.
  rewrite Rabs_R0. split; lra.
Qed.

Lemma drag_follows_pointer_witness :
  (List.length [mkMouseEvent 110 120; mkMouseEvent 130 90] <= 1000)%nat /\
  within 1e4 (pan sample_view) (mkPoint 0 0) /\
  (forall m,
     In m (mkMouseEvent 100 100 :: [mkMouseEvent 110 120; mkMouseEvent 130 90]) ->
     within 1e4 (relative sample_rect m) (mkPoint 0 0)) /\
  within 1e-6
    (pan (snd (uiRun (mkPointer (mkPoint 0 0) false (mkPoint 0 0), sample_view)
                 (EvMouseDown sample_rect (mkMouseEvent 100 100)
                  :: map (EvMouseMove sample_rect)
                       [mkMouseEvent 110 120; mkMouseEvent 130 90]))))
    (mkPoint (x (pan sample_view) + (130 - 100)) (y (pan sample_view) + (90 - 100))).
Proof.
  assert (Hn : (List.length [mkMouseEvent 110 120; mkMouseEvent 130 90] <= 1000)%nat)
    by (cbn [List.length]; lia).
  assert (Hp : within 1e4 (pan sample_view) (mkPoint 0 0)).
  { unfold within, sample_view. simpl. split; apply Rabs_le; lra. }
  assert (Hm : forall m,
             In m (mkMouseEvent 100 100
                   :: [mkMouseEvent 110 120; mkMouseEvent 130 90]) ->
             within 1e4 (relative sample_rect m) (mkPoint 0 0)).
  { intros m [<- | [<- | [<- | []]]];
      unfold within, relative, sample_rect; simpl; split; apply Rabs_le; lra. }
  split; [exact Hn|]. split; [exact Hp|]. split; [exact Hm|].
  exact (proj2 (drag_follows_pointer sample_rect (mkMouseEvent 100 100)
                  [mkMouseEvent 110 120; mkMouseEvent 130 90]
                  (mkPointer (mkPoint 0 0) false (mkPoint 0 0)) sample_view
                  Hn Hp Hm)).
Defined.

(** *** Background stars *)

Lemma wrap_range (v w : R) :
  w > 0 ->
  0 <= (if Rltb (js_rem v w) 0 then js_rem v w + w else js_rem v w) < w.
Proof.
  intros Hw. destruct (js_rem_facts v w Hw) as (_ & Hr & _ & _).
  apply Rabs_def2 in Hr.
  destruct (Rltb (js_rem v w) 0) eqn:Hneg.
  - apply Rltb_true in Hneg. lra.
  - apply Rltb_false in Hneg. lra.
Qed.

(** X8. On a canvas of positive width and height every background star is
    drawn inside the canvas, whatever the pan, and with an alpha in
    [[0, 0.5)].  (The right and bottom edges are stated closed: a wrapped
    coordinate stays below the width in exact arithmetic, while the rounded
    sum [sx + width] of the code can reach it.) *)
Theorem stars_inside_canvas (canvas : CanvasSize) (panOffset : Point) (i : nat) :
  width canvas > 0 -> height canvas > 0 ->
  0 <= x (starPosition canvas panOffset i) <= width canvas /\
  0 <= y (starPosition canvas panOffset i) <= height canvas /\
  0 <= starAlpha i < 0.5.
Proof.
  intros Hw Hh. unfold starPosition, starAlpha. cbn [x y].
  split; [pose proof (wrap_range (INR i * 1337 + x panOffset * 0.05) _ Hw); lra|].
  split; [pose proof (wrap_range (INR i * 7331 + y panOffset * 0.05) _ Hh); lra|].
  destruct (js_rem_facts (INR i * 997) 100 ltac:(lra)) as (_ & Hr & Hpos & _).
  apply Rabs_def2 in Hr. pose proof (pos_INR i) as Hi.
  assert (H0 : 0 <= js_rem (INR i * 997) 100) by (apply Hpos; nra).
  lra.
Qed.

Lemma stars_inside_canvas_witness :
  width sample_canvas > 0 /\ height sample_canvas > 0 /\
  0 <= x (starPosition sample_canvas (mkPoint (-5000) 77) 42) <= width sample_canvas.
Proof.
  assert (Hw : width sample_canvas > 0) by (unfold sample_canvas; simpl; lra).
  assert (Hh : height sample_canvas > 0) by (unfold sample_canvas; simpl; lra).
  split; [exact Hw|]. split; [exact Hh|].
  exact (proj1 (stars_inside_canvas sample_canvas (mkPoint (-5000) 77) 42 Hw Hh)).
Defined.

(** *** Asteroids *)

(** A particle moves on the circle of its radius. *)
Lemma asteroid_distance (p : Particle) (time : R) :
  0 <= Particle.radius p ->
  distance (asteroidPosition p time) = Particle.radius p.
Proof.
  intros Hr. unfold distance, asteroidPosition. cbn [x y].
  set (angle := Particle.angle p + Particle.speed p * time * 0.001).
  pose proof (sin2_cos2 angle) as Hsc. unfold Rsqr in Hsc.
  replace (cos angle * Particle.radius p * (cos angle * Particle.radius p)
           + sin angle * Particle.radius p * (sin angle * Particle.radius p))
    with (Particle.radius p * Particle.radius p
          * (sin angle * sin angle + cos angle * cos angle)) by ring.
  rewrite Hsc, Rmult_1_r. apply sqrt_square. exact Hr.
Qed.

(** *** Hover *)

Lemma Map_set_fresh {V} (m : list (string * V)) (k : string) (v : V) :
  ~ In k (map fst m) -> Map_set m k v = m ++ [(k, v)].
Proof.
  induction m as [|[k' v'] m IH]; intros Hk; [reflexivity|].
  cbn [Map_set]. destruct (String.eqb k' k) eqn:Heq.
  - apply String.eqb_eq in Heq. exfalso. apply Hk. left. exact Heq.
  - rewrite IH; [reflexivity|]. intros Hin. apply Hk. right. exact Hin.
Qed.

Lemma positions_in_order (canvas : CanvasSize) (v : View) (time : R)
    (ps : list Planet) :
  forall acc : list (string * PData),
    NoDup (map fst acc ++ map Planet.id ps) ->
    fold_left (fun m p => Map_set m (Planet.id p) (planetEntry canvas v time p))
              ps acc
    = acc ++ map (fun p => (Planet.id p, planetEntry canvas v time p)) ps.
Proof.
  induction ps as [|p ps IH]; intros acc Hnd; cbn [fold_left map].
  - rewrite app_nil_r. reflexivity.
  - cbn [map] in Hnd.
    rewrite Map_set_fresh.
    + rewrite IH.
      * rewrite <- app_assoc. reflexivity.
      * rewrite map_app. cbn [map fst]. rewrite <- app_assoc. exact Hnd.
    + apply NoDup_remove_2 in Hnd. intros Hin. apply Hnd.
      apply in_or_app. left. exact Hin.
Qed.

Lemma checkHover_find (canvas : CanvasSize) (v : View) (time : R)
    (mousePos : Point) (ps : list Planet) :
  checkHover mousePos
    (map (fun p => (Planet.id p, planetEntry canvas v time p)) ps)
  = match find (fun p => hits mousePos (planetEntry canvas v time p)) ps with
    | Some p => (Some p, px (planetEntry canvas v time p),
                 py (planetEntry canvas v time p))
    | None => (None, 0, 0)
    end.
Proof.
  induction ps as [|p ps IH]; [reflexivity|].
  cbn [map checkHover find].
  destruct (hits mousePos (planetEntry canvas v time p)); [reflexivity | exact IH].
Qed.

(** X10. When the planet ids are pairwise distinct (as they are in every
    generated system), the planet the hover loop finds is the first planet,
    in the order of the planet list, whose hit circle (radius
    [max(radius * zoom, 15)] around its screen position) contains the
    mouse, together with that planet's screen position; and it finds none
    exactly when no planet's hit circle contains the mouse. *)
Theorem hover_finds_first_hit (canvas : CanvasSize) (v : View) (time : R)
    (mousePos : Point) (sys : SolarSystem) :
  NoDup (map Planet.id (SolarSystem.planets sys)) ->
  checkHover mousePos (planetPositions canvas v time sys)
  = match find (fun p => hits mousePos (planetEntry canvas v time p))
               (SolarSystem.planets sys) with
    | Some p => (Some p, px (planetEntry canvas v time p),
                 py (planetEntry canvas v time p))
    | None => (None, 0, 0)
    end.
Proof.
  intros Hnd. unfold planetPositions.
  rewrite positions_in_order by exact Hnd.
  cbn [app]. apply checkHover_find.
Qed.

Lemma hover_finds_first_hit_witness :
  NoDup (map Planet.id (SolarSystem.planets sample_system)) /\
  checkHover (mkPoint 0 0) (planetPositions sample_canvas sample_view 3 sample_system)
  = match find (fun p => hits (mkPoint 0 0)
                           (planetEntry sample_canvas sample_view 3 p))
               (SolarSystem.planets sample_system) with
    | Some p => (Some p, px (planetEntry sample_canvas sample_view 3 p),
                 py (planetEntry sample_canvas sample_view 3 p))
    | None => (None, 0, 0)
    end.
Proof.
  assert (Hnd : NoDup (map Planet.id (SolarSystem.planets sample_system))).
  { cbn. constructor.
    - intros [H | []]. discriminate H.
    - constructor; [intros [] | constructor]. }
  split; [exact Hnd|].
  exact (hover_finds_first_hit sample_canvas sample_view 3 (mkPoint 0 0)
           sample_system Hnd).
Defined.

End ViewFacts.

(** ** The generator, continued *)

Module GeneratorMore.
Import Generator Specs MoreSpecs GeneratorFacts GeneratorClaims.

(** *** Moons and planets: the remaining fields *)

Section More.

Variable rnd : nat -> R.
Hypothesis rnd_unit : unit_stream rnd.

Tactic Notation "draw" ident(v) ident(H) :=
  eapply returns_bind; [apply (randomRange_in rnd rnd_unit); lra |];
  intros v ? H; cbv beta in H.

Lemma generateMoon_more i planetId planetName radius m c :
  returns (generateMoon i planetId planetName radius m) rnd c
    (fun mo _ => moon_more planetName m mo).
Proof.
  pose proof PI_RGT_0 as Hpi. unfold generateMoon.
  draw d1 Hd1. draw d2 Hd2. draw mr Hmr. draw me Hme. draw mw Hmw. draw mm Hmm.
  apply returns_ret. unfold moon_more.
  cbn [Moon.name Moon.radius Moon.color Moon.orbit
       Orbit.period Orbit.a Orbit.omega Orbit.meanAnomaly0].
  repeat split; auto; lra.
Qed.

Lemma generateMoons_more i planetId planetName radius n :
  forall m c,
    returns (generateMoons i planetId planetName radius n m) rnd c
      (fun ms _ =>
         forall k mo, nth_error ms k = Some mo -> moon_more planetName (m + k) mo).
Proof.
  induction n as [|n IH]; intros m c; cbn [generateMoons].
  - apply returns_ret. intros [|k] mo Hk; discriminate.
  - eapply returns_bind; [apply generateMoon_more|]. intros mo0 c0 Hmo0.
    eapply returns_bind; [apply IH|]. intros rest c1 Hrest. cbv beta in Hrest.
    apply returns_ret. intros [|k] mo Hk; cbn in Hk.
    + injection Hk as <-. rewrite Nat.add_0_r. exact Hmo0.
    + replace (m + S k)%nat with (S m + k)%nat by lia. eauto.
Qed.

Lemma chooseType_inner (semiMajorAxis : R) (i : nat) (roll : R) :
  (i <= 4)%nat -> semiMajorAxis <= 400 ->
  chooseType semiMajorAxis i roll = ROCKY \/
  chooseType semiMajorAxis i roll = DWARF.
Proof.
  intros Hi Ha. unfold chooseType.
  assert (Hg : Rgtb semiMajorAxis 400 = false) by (apply Rgtb_false; exact Ha).
  assert (Hl : (4 <? i)%nat = false) by (apply Nat.ltb_ge; exact Hi).
  rewrite Hg, Hl. cbn [orb]. destruct (Rltb roll 0.15); auto.
Qed.

Lemma generatePlanet_more i previousAphelion c :
  previousAphelion > 0 ->
  returns (generatePlanet i previousAphelion) rnd c
    (fun pa _ => planet_more i previousAphelion (fst pa)).
Proof.
  intros Hprev. pose proof PI_RGT_0 as Hpi. unfold generatePlanet.
  eapply returns_bind.
  { apply (randomRange_in rnd rnd_unit). destruct (i <? 4)%nat; lra. }
  intros gap ? Hgap. cbv beta in Hgap.
  assert (Hgap20 : 20 <= gap) by (destruct (i <? 4)%nat; lra).
  draw ecc Hecc.
  eapply returns_bind; [apply returns_random|]. intros roll ? _.
  set (sma := (previousAphelion + gap) / (1 - ecc)).
  assert (Hsma : sma * (1 - ecc) = previousAphelion + gap)
    by (unfold sma; field; lra).
  assert (Hbig : sma > previousAphelion + 20) by nra.
  pose proof (chooseType_inner sma i roll) as Hinner.
  set (type := chooseType sma i roll) in *.
  eapply returns_bind.
  { instantiate (1 := fun r _ =>
      fst (radiusRange type) <= r < snd (radiusRange type)).
    destruct type; cbn [radiusRange fst snd];
      apply (randomRange_in rnd rnd_unit); lra. }
  intros radius ? Hradius. cbv beta in Hradius.
  eapply returns_bind; [apply generateColor_returns|]. intros color ? _.
  eapply returns_bind; [apply generateName_returns|]. intros planetName ? _.
  draw om Hom. draw m0 Hm0.
  eapply returns_bind.
  { instantiate (1 := fun ms _ =>
      (fst (moonCountRange type) <= List.length ms <= snd (moonCountRange type))%nat /\
      forall m mo, nth_error ms m = Some mo -> moon_more planetName m mo).
    destruct (negb (PlanetType_eqb type DWARF)) eqn:Hdw.
    - eapply returns_bind.
      { instantiate (1 := fun n _ =>
          (Z.of_nat (fst (moonCountRange type)) <= n
           <= Z.of_nat (snd (moonCountRange type)))%Z).
        destruct type; try discriminate Hdw; cbn [moonCountRange fst snd];
          (eapply returns_mono; [apply (randomInt_in rnd rnd_unit); lia|]);
          intros n ? Hn; cbv beta in Hn; lia. }
      intros numMoons ? HnumMoons. cbv beta in HnumMoons.
      eapply returns_mono.
      { apply returns_conj;
          [apply (generateMoons_spec rnd rnd_unit) | apply generateMoons_more]. }
      intros ms ? [[Hlen _] Hmore]. split; [lia|].
      intros m mo Hm. exact (Hmore m mo Hm).
    - apply returns_ret.
      assert (type = DWARF) by (destruct type; try discriminate Hdw; reflexivity).
      subst type. replace (chooseType sma i roll) with DWARF by auto.
      split; [cbn; lia|]. intros [|m] mo Hm; discriminate. }
  intros moons ? [Hcount Hmoons].
  apply returns_ret. cbn [fst]. unfold planet_more.
  cbn [Planet.type Planet.radius Planet.moons Planet.orbit Planet.description
       Planet.name Orbit.a Orbit.period Orbit.omega Orbit.meanAnomaly0].
  fold sma. fold type.
  split; [exact Hradius|]. split; [exact Hcount|]. split; [exact Hbig|].
  split; [reflexivity|]. split; [lra|]. split; [lra|].
  split; [exact Hinner|]. split; [reflexivity | exact Hmoons].
Qed.

Lemma generatePlanets_more n :
  forall i previousAphelion c,
    previousAphelion > 0 ->
    returns (generatePlanets n i previousAphelion) rnd c
      (fun ps _ => planets_more i previousAphelion ps).
Proof.
  induction n as [|n IH]; intros i prev c Hprev; cbn [generatePlanets].
  - apply returns_ret. exact I.
  - eapply returns_bind.
    { apply returns_conj;
        [apply (generatePlanet_spec rnd rnd_unit)
        | apply (generatePlanet_more i prev c Hprev)]. }
    intros [p aph] c0 [[Hp Haph] Hmore]. cbn [fst snd] in *.
    assert (Haph0 : aph > 0).
    { rewrite Haph. unfold aphelion.
      destruct Hp as (_ & He & _). destruct Hmore as (_ & _ & Ha & _).
      apply Rmult_gt_0_compat; lra. }
    eapply returns_bind; [apply (IH _ _ _ Haph0)|]. intros rest c1 Hrest.
    cbv beta in Hrest.
    apply returns_ret. cbn [planets_more]. split; [exact Hmore|].
    rewrite <- Haph. exact Hrest.
Qed.

(** *** Particles and belts *)

Lemma generateParticles_ok (n : nat) (minR maxR : R) :
  minR < maxR ->
  forall c,
    returns (generateParticles n minR maxR) rnd c
      (fun ps _ => List.length ps = n /\ Forall (particle_ok minR maxR) ps).
Proof.
  intros Hlt. pose proof PI_RGT_0 as Hpi.
  induction n as [|n IH]; intros c; cbn [generateParticles].
  - apply returns_ret. split; [reflexivity | constructor].
  - draw r Hr. draw angle Hangle. draw size Hsize.
    eapply returns_bind; [apply IH|]. intros rest ? [Hlen Hrest].
    apply returns_ret. split; [cbn [List.length]; lia|].
    constructor; [|exact Hrest].
    unfold particle_ok.
    cbn [Particle.radius Particle.angle Particle.size Particle.speed].
    repeat split; auto; lra.
Qed.

Lemma generateInnerBelt_more (planets : list Planet) (idx : nat) c :
  valid_gap planets idx ->
  returns (generateInnerBelt planets idx) rnd c
    (fun b _ => belt_ok b /\ (400 <= AsteroidBelt.count b)%Z).
Proof.
  intros (p1 & p2 & Hp1 & Hp2 & Hroom). unfold generateInnerBelt.
  assert (Hi1 : (idx < List.length planets)%nat)
    by (apply nth_error_Some; congruence).
  assert (Hi2 : (idx + 1 < List.length planets)%nat)
    by (apply nth_error_Some; congruence).
  eapply returns_bind; [apply at_index_returns; exact Hi1|]. intros q1 ? [Hq1 ->].
  eapply returns_bind; [apply at_index_returns; exact Hi2|]. intros q2 ? [Hq2 ->].
  assert (q1 = p1) by congruence. assert (q2 = p2) by congruence. subst q1 q2.
  unfold aphelion, perihelion, safetyMargin, minBeltWidth in Hroom.
  cbv zeta. unfold safetyMargin.
  set (minR := Orbit.a (Planet.orbit p1) * (1 + Orbit.e (Planet.orbit p1)) + 15).
  set (maxR := Orbit.a (Planet.orbit p2) * (1 - Orbit.e (Planet.orbit p2)) - 15).
  assert (Hwide : maxR - minR > 20) by (unfold minR, maxR; lra).
  assert (Hcount : (400 <= Zfloor ((maxR - minR) * 20))%Z).
  { apply Zfloor_lub. lra. }
  eapply returns_bind; [apply generateParticles_ok; lra|].
  intros ps ? [Hlen Hps]. apply returns_ret.
  split; [|exact Hcount]. unfold belt_ok.
  cbn [AsteroidBelt.minRadius AsteroidBelt.maxRadius AsteroidBelt.count
       AsteroidBelt.particles].
  split; [lra|]. split; [rewrite Hlen, Z2Nat.id; lia | exact Hps].
Qed.

Lemma generateOuterBelt_ok (planets : list Planet) c :
  planets <> [] ->
  returns (generateOuterBelt planets) rnd c (fun b _ => belt_ok b).
Proof.
  intros Hne. unfold generateOuterBelt.
  assert (Hlen : (List.length planets - 1 < List.length planets)%nat).
  { destruct planets; [congruence | cbn [List.length]; lia]. }
  eapply returns_bind; [apply at_index_returns; exact Hlen|].
  intros lastPlanet ? [Hlast ->].
  draw w Hw. cbv zeta.
  eapply returns_bind; [apply generateParticles_ok; lra|].
  intros ps ? [Hps Hok]. apply returns_ret. unfold belt_ok.
  cbn [AsteroidBelt.minRadius AsteroidBelt.maxRadius AsteroidBelt.count
       AsteroidBelt.particles].
  split; [lra|]. split; [rewrite Hps, Z2Nat.id; lia | exact Hok].
Qed.

End More.

(** *** Gap discovery, exactly *)

Lemma gapFits_valid (planets : list Planet) (i : nat) :
  gapFits planets i = true -> valid_gap planets i.
Proof.
  unfold gapFits, valid_gap.
  destruct (nth_error planets i) as [p1|]; [|discriminate].
  destruct (nth_error planets (i + 1)) as [p2|]; [|discriminate].
  intros H. apply Rgtb_true in H. exists p1, p2. auto.
Qed.

Lemma findValidGaps_filter (planets : list Planet) rnd (n : nat) :
  forall i c,
    (n + i <= List.length planets - 1)%nat ->
    findValidGaps planets n i rnd c
    = Ok (filter (gapFits planets) (seq i n), c).
Proof.
  induction n as [|n IH]; intros i c Hn; cbn [findValidGaps seq filter].
  - reflexivity.
  - unfold bind, at_index, gapFits at 1.
    destruct (nth_error planets i) as [p1|] eqn:H1;
      [|apply nth_error_None in H1; lia].
    destruct (nth_error planets (i + 1)) as [p2|] eqn:H2;
      [|apply nth_error_None in H2; lia].
    unfold ret at 1 2. rewrite IH by lia.
    unfold aphelion, perihelion.
    destruct (Rgtb _ _); reflexivity.
Qed.

(** X11. Gap discovery never throws, for any planet list (the empty one
    included), and draws nothing: it returns, in increasing order, exactly
    the indices [i] of adjacent pairs whose free space
    [perihelion(i+1) - aphelion(i)] exceeds [2 * 15 + 20]. *)
Theorem gap_discovery_exact (planets : list Planet) (rnd : nat -> R) (c : nat) :
  findValidGaps planets (List.length planets - 1) 0 rnd c
  = Ok (filter (gapFits planets) (seq 0 (List.length planets - 1)), c) /\
  forall i,
    In i (filter (gapFits planets) (seq 0 (List.length planets - 1))) <->
    exists p1 p2,
      nth_error planets i = Some p1 /\ nth_error planets (i + 1) = Some p2 /\
      Orbit.a (Planet.orbit p2) * (1 - Orbit.e (Planet.orbit p2))
      > Orbit.a (Planet.orbit p1) * (1 + Orbit.e (Planet.orbit p1)) + 15 * 2 + 20.
Proof.
  split; [apply findValidGaps_filter; lia|].
  intros i. rewrite filter_In, in_seq. split.
  - intros [_ Hfit]. apply gapFits_valid in Hfit.
    destruct Hfit as (p1 & p2 & H1 & H2 & Hroom).
    exists p1, p2. unfold perihelion, aphelion, safetyMargin, minBeltWidth in Hroom.
    auto.
  - intros (p1 & p2 & H1 & H2 & Hroom).
    assert (Hi : (i + 1 < List.length planets)%nat)
      by (apply nth_error_Some; congruence).
    split; [lia|]. unfold gapFits. rewrite H1, H2.
    apply Rgtb_true. unfold perihelion, aphelion, safetyMargin, minBeltWidth. lra.
Qed.

(** *** The shuffle is a permutation *)

Lemma set_index_perm {A} (t : list A) :
  forall k v h,
    nth_error t k = Some v -> Permutation (v :: set_index t k h) (h :: t).
Proof.
  induction t as [|w t IH]; intros [|k] v h Hk; try discriminate.
  - injection Hk as ->. cbn [set_index]. apply perm_swap.
  - cbn [nth_error] in Hk. cbn [set_index].
    eapply perm_trans; [apply perm_swap|].
    eapply perm_trans; [apply perm_skip, (IH _ _ _ Hk)|]. apply perm_swap.
Qed.

Lemma swap_perm {A} (arr : list A) :
  forall i j vi vj,
    nth_error arr i = Some vi -> nth_error arr j = Some vj ->
    Permutation (set_index (set_index arr i vj) j vi) arr.
Proof.
  induction arr as [|h t IH]; intros [|i] [|j] vi vj Hi Hj; try discriminate.
  - injection Hi as ->. injection Hj as ->. reflexivity.
  - injection Hi as ->. cbn [nth_error] in Hj. cbn [set_index].
    apply set_index_perm. exact Hj.
  - injection Hj as ->. cbn [nth_error] in Hi. cbn [set_index].
    apply set_index_perm. exact Hi.
  - cbn [nth_error] in Hi, Hj. cbn [set_index]. apply perm_skip. eauto.
Qed.

Lemma swap_returns_perm {A} (arr : list A) (i : nat) (j : Z) rnd c :
  (i < List.length arr)%nat -> (0 <= j)%Z -> (Z.to_nat j < List.length arr)%nat ->
  returns (swap arr i j) rnd c
    (fun arr' c' => c' = c /\ Permutation arr' arr).
Proof.
  intros Hi Hj0 Hj. unfold swap.
  destruct (j <? 0)%Z eqn:Hneg; [apply Z.ltb_lt in Hneg; lia|].
  destruct (nth_error arr i) as [vi|] eqn:Hvi;
    [|apply nth_error_None in Hvi; lia].
  destruct (nth_error arr (Z.to_nat j)) as [vj|] eqn:Hvj;
    [|apply nth_error_None in Hvj; lia].
  apply returns_ret. split; [reflexivity|].
  apply swap_perm; assumption.
Qed.

Lemma shuffleFrom_perm rnd (i : nat) :
  unit_stream rnd ->
  forall (validGaps : list nat) c,
    (i <= List.length validGaps - 1)%nat ->
    returns (shuffleFrom i validGaps) rnd c
      (fun gaps' c' => c' = (i + c)%nat /\ Permutation gaps' validGaps).
Proof.
  intros rnd_unit.
  induction i as [|i IH]; intros validGaps c Hi; cbn [shuffleFrom].
  - apply returns_ret. split; [reflexivity | apply Permutation_refl].
  - eapply returns_bind; [apply returns_random|]. intros r ? [-> ->].
    pose proof (rnd_unit c) as Hr.
    set (j := Zfloor (rnd c * (INR (S i) + 1))).
    assert (Hj : (0 <= j <= Z.of_nat (S i))%Z).
    { pose proof (pos_INR (S i)) as Hpos.
      pose proof (Zfloor_bound (rnd c * (INR (S i) + 1))) as Hfl. fold j in Hfl.
      split.
      - apply Zfloor_lub. nra.
      - apply Z.lt_succ_r. apply lt_IZR.
        rewrite succ_IZR, <- INR_IZR_INZ. nra. }
    eapply returns_bind; [apply swap_returns_perm; lia|].
    intros gaps1 ? [-> Hperm1].
    eapply returns_mono.
    { apply IH. rewrite (Permutation_length Hperm1). lia. }
    intros gaps2 ? [-> Hperm2]. split; [lia|].
    eapply Permutation_trans; eassumption.
Qed.

(** X12. With draws in [[0, 1)] the shuffle never reads or writes outside
    the array, consumes one draw per position after the first, and returns
    a permutation of its input. *)
Theorem shuffle_permutes (rnd : nat -> R) (validGaps : list nat) (c : nat) :
  unit_stream rnd ->
  exists gaps',
    shuffle validGaps rnd c
    = Ok (gaps', (List.length validGaps - 1 + c)%nat) /\
    Permutation gaps' validGaps.
Proof.
  intros Hrnd.
  destruct (shuffleFrom_perm rnd (List.length validGaps - 1) Hrnd validGaps c)
    as (gaps' & c' & Hrun & -> & Hperm); [lia|].
  exists gaps'. split; [exact Hrun | exact Hperm].
Qed.

Lemma shuffle_permutes_witness :
  unit_stream rnd_half /\
  exists gaps',
    shuffle [0; 2; 5]%nat rnd_half 0%nat
    = Ok (gaps', (List.length [0; 2; 5]%nat - 1 + 0)%nat) /\
    Permutation gaps' [0; 2; 5]%nat.
Proof.
  assert (Hu : unit_stream rnd_half) by (intros n; unfold rnd_half; lra).
  split; [exact Hu | exact (shuffle_permutes rnd_half [0; 2; 5]%nat 0%nat Hu)].
Defined.

End GeneratorMore.

(** ** The generated system, continued *)

Module SystemMore.
Import Physics Generator Canvas Specs MoreSpecs.
Import GeneratorFacts GeneratorClaims GeneratorMore OrbitFacts ViewFacts.

Lemma NoDup_firstn {A} (n : nat) (l : list A) : NoDup l -> NoDup (firstn n l).
Proof.
  intros Hnd. rewrite <- (firstn_skipn n l) in Hnd.
  eapply NoDup_app_remove_r. exact Hnd.
Qed.

Lemma Forall2_split {A B} (P Q : A -> B -> Prop) (l : list A) (bs : list B) :
  Forall2 (fun v b => P v b /\ Q v b) l bs ->
  Forall2 P l bs /\ Forall2 Q l bs.
Proof.
  induction 1 as [|v b l bs [Hp Hq] _ [IHp IHq]]; split; constructor; assumption.
Qed.

Lemma Forall2_right {A B} (Q : B -> Prop) (l : list A) (bs : list B) :
  Forall2 (fun _ b => Q b) l bs -> Forall Q bs.
Proof. induction 1; constructor; assumption. Qed.

Lemma generateSolarSystem_more (width height : R) rnd c :
  unit_stream rnd ->
  returns (generateSolarSystem width height) rnd c (fun sys _ => system_more sys).
Proof.
  intros Hrnd. unfold generateSolarSystem.
  eapply returns_bind; [apply (randomRange_in rnd Hrnd); lra|].
  intros starRadius ? HstarRadius. cbv beta in HstarRadius.
  eapply returns_bind; [apply generateColor_returns|]. intros starColor ? _.
  eapply returns_bind; [apply (randomInt_in rnd Hrnd); lia|].
  intros numPlanets ? HnumPlanets. cbv beta in HnumPlanets.
  eapply returns_bind.
  { apply returns_conj;
      [apply (generatePlanets_spec rnd Hrnd)
      | apply (generatePlanets_more rnd Hrnd); lra]. }
  intros planets cp [[Hlen Hplanets] Hmore].
  assert (Hne : planets <> []).
  { intros ->. cbn [List.length] in Hlen. lia. }
  eapply returns_bind.
  { exists (filter (gapFits planets) (seq 0 (List.length planets - 1))), cp.
    split; [apply findValidGaps_filter; lia|].
    instantiate (1 := fun g _ =>
      g = filter (gapFits planets) (seq 0 (List.length planets - 1))).
    reflexivity. }
  intros gaps ? ->.
  set (gaps := filter (gapFits planets) (seq 0 (List.length planets - 1))).
  assert (Hgnd : NoDup gaps) by (apply NoDup_filter, seq_NoDup).
  assert (Hgvalid : forall i, In i gaps -> valid_gap planets i).
  { intros i Hi. apply filter_In in Hi. apply gapFits_valid. tauto. }
  eapply returns_bind; [apply returns_random|]. intros roll ? _.
  eapply returns_bind.
  { eapply returns_mono; [apply (shuffleFrom_perm rnd _ Hrnd gaps); lia|].
    intros shuffled ? [_ Hperm]. exact Hperm. }
  intros shuffled ? Hperm. cbv beta in Hperm.
  set (selected := firstn (Nat.min (requestedInnerBelts roll) (List.length gaps))
                          shuffled).
  assert (Hsnd : NoDup selected).
  { apply NoDup_firstn. eapply Permutation_NoDup; [|exact Hgnd].
    apply Permutation_sym. exact Hperm. }
  assert (Hsvalid : forall i, In i selected -> valid_gap planets i).
  { intros i Hi. apply Hgvalid. eapply Permutation_in; [exact Hperm|].
    eapply firstn_incl. exact Hi. }
  eapply returns_bind.
  { apply (forEach_spec _
             (fun idx b => belt_in_gap planets idx b /\
                           (belt_ok b /\ (400 <= AsteroidBelt.count b)%Z))).
    intros idx ci Hidx.
    apply returns_conj;
      [apply generateInnerBelt_spec | apply (generateInnerBelt_more rnd Hrnd)];
      apply Hsvalid; exact Hidx. }
  intros inner ? Hinner. cbv beta in Hinner.
  apply Forall2_split in Hinner. destruct Hinner as [Hfit Hrest].
  apply Forall2_right in Hrest. apply Forall_and_inv in Hrest.
  destruct Hrest as [Hok Hcount].
  eapply returns_bind.
  { apply returns_conj;
      [apply generateOuterBelt_spec | apply (generateOuterBelt_ok rnd Hrnd)];
      assumption. }
  intros outer ? [Houter Houterok].
  apply returns_ret. unfold system_more.
  cbn [SolarSystem.planets SolarSystem.star SolarSystem.asteroidBelts
       Star.radius Star.mass].
  exists selected, inner, outer.
  split; [exact HstarRadius|]. split; [reflexivity|].
  split; [exact Hplanets|]. split; [exact Hmore|].
  split; [exact Hsnd|]. split; [apply Forall_forall; exact Hsvalid|].
  split; [exact Hfit|]. split; [exact Hok|]. split; [exact Hcount|].
  split; [exact Houter|]. split; [exact Houterok | reflexivity].
Qed.

Lemma generated_facts (width height : R) rnd c :
  unit_stream rnd ->
  exists sys c',
    generateSolarSystem width height rnd c = Ok (sys, c') /\
    system_spec sys /\ system_more sys.
Proof.
  intros Hrnd.
  destruct (returns_conj _ _ _ _ _
              (generateSolarSystem_spec width height rnd c Hrnd)
              (generateSolarSystem_more width height rnd c Hrnd))
    as (sys & c' & Hrun & Hspec & Hmore).
  exists sys, c'. auto.
Qed.

(** *** Walking the planet list *)

Lemma aphelion_beyond (i : nat) (prev : R) (q : Planet) :
  prev > 0 -> planet_spec i prev q -> planet_more i prev q ->
  aphelion (Planet.orbit q) > prev + 20.
Proof.
  intros Hprev (_ & He & _) (_ & _ & Ha & _). unfold aphelion.
  assert (Hae : Orbit.a (Planet.orbit q) * Orbit.e (Planet.orbit q) > 0)
    by (apply Rmult_gt_0_compat; lra).
  lra.
Qed.

Lemma planets_nth (ps : list Planet) :
  forall i prev k p,
    prev > 0 ->
    planets_spec i prev ps -> planets_more i prev ps ->
    nth_error ps k = Some p ->
    exists prev',
      prev' >= prev /\ planet_spec (i + k) prev' p /\ planet_more (i + k) prev' p.
Proof.
  induction ps as [|q ps IH]; intros i prev k p Hprev Hspec Hmore Hk.
  - destruct k; discriminate.
  - destruct Hspec as [Hq Hspec]. destruct Hmore as [Hqm Hmore].
    destruct k as [|k].
    + injection Hk as <-. exists prev. rewrite Nat.add_0_r.
      split; [lra | auto].
    + cbn [nth_error] in Hk.
      pose proof (aphelion_beyond _ _ _ Hprev Hq Hqm) as Haph.
      destruct (IH (S i) (aphelion (Planet.orbit q)) k p ltac:(lra) Hspec Hmore Hk)
        as (prev' & Hge & Hp & Hpm).
      exists prev'. replace (i + S k)%nat with (S i + k)%nat by lia.
      split; [lra | auto].
Qed.

Lemma planets_ordered (ps : list Planet) :
  forall i prev k1 k2 p1 p2,
    prev > 0 ->
    planets_spec i prev ps -> planets_more i prev ps ->
    (k1 < k2)%nat ->
    nth_error ps k1 = Some p1 -> nth_error ps k2 = Some p2 ->
    aphelion (Planet.orbit p1) + 20 <= perihelion (Planet.orbit p2).
Proof.
  induction ps as [|q ps IH]; intros i prev k1 k2 p1 p2 Hprev Hspec Hmore Hlt H1 H2.
  - destruct k1; discriminate.
  - destruct Hspec as [Hq Hspec]. destruct Hmore as [Hqm Hmore].
    assert (Haph : aphelion (Planet.orbit q) > 0)
      by (pose proof (aphelion_beyond _ _ _ Hprev Hq Hqm); lra).
    destruct k2 as [|k2]; [lia|]. cbn [nth_error] in H2.
    destruct k1 as [|k1].
    + injection H1 as <-.
      destruct (planets_nth ps _ _ k2 p2 Haph Hspec Hmore H2)
        as (prev' & Hge & (_ & _ & Hperi & _) & _).
      lra.
    + cbn [nth_error] in H1.
      eapply (IH (S i) _ k1 k2); eauto. lia.
Qed.

(** The two apsides of a generated planet's orbit. *)
Lemma planet_apsides (i : nat) (prev : R) (p : Planet) :
  prev > 0 -> planet_spec i prev p -> planet_more i prev p ->
  Orbit.a (Planet.orbit p) > 0 /\
  0 < perihelion (Planet.orbit p) < aphelion (Planet.orbit p).
Proof.
  intros Hprev (_ & He & Hperi & _) (_ & _ & Ha & _).
  unfold perihelion, aphelion in *. split; [lra|]. split; nra.
Qed.

(** X13. Every generated system has a star of radius between 5 and 8 (the
    upper end stated closed: the draw stays below it in exact arithmetic, a
    rounded draw can reach it) and of mass [1], between 7 and 12 planets,
    and between 1 and 4 asteroid belts. *)
Theorem system_bounds (rnd : nat -> R) (width height : R) :
  unit_stream rnd ->
  exists sys c',
    generateSolarSystem width height rnd 0%nat = Ok (sys, c') /\
    5 <= Star.radius (SolarSystem.star sys) <= 8 /\
    Star.mass (SolarSystem.star sys) = 1 /\
    (7 <= List.length (SolarSystem.planets sys) <= 12)%nat /\
    (1 <= List.length (SolarSystem.asteroidBelts sys) <= 4)%nat.
Proof.
  intros Hrnd.
  destruct (generated_facts width height rnd 0%nat Hrnd)
    as (sys & c' & Hrun & Hspec & Hmore).
  exists sys, c'. split; [exact Hrun|].
  destruct Hspec as (gaps & req & sel & inner & outer & Hlen & _ & _ & _ & Hreq
                     & Hsel & Hinner & _ & Hbelts).
  destruct Hmore as (_ & _ & _ & Hstar & Hmass & _).
  apply Forall2_length in Hinner.
  split; [lra|]. split; [exact Hmass|]. split; [exact Hlen|].
  rewrite Hbelts, length_app. cbn [List.length]. lia.
Qed.

Lemma system_bounds_witness :
  unit_stream rnd_half /\
  exists sys c',
    generateSolarSystem 800 600 rnd_half 0%nat = Ok (sys, c') /\
    5 <= Star.radius (SolarSystem.star sys) <= 8 /\
    Star.mass (SolarSystem.star sys) = 1 /\
    (7 <= List.length (SolarSystem.planets sys) <= 12)%nat /\
    (1 <= List.length (SolarSystem.asteroidBelts sys) <= 4)%nat.
Proof.
  assert (Hu : unit_stream rnd_half) by (intros n; unfold rnd_half; lra).
  split; [exact Hu | exact (system_bounds rnd_half 800 600 Hu)].
Defined.

(** X14. In every generated system each planet's radius lies in the range
    of its type (gas giant 10 to 16, ice giant 7 to 11, dwarf 1.5 to 2.5,
    rocky 3 to 6; the upper ends stated closed, as a rounded draw can reach
    them) and so does its number of moons (gas giant 3 to 8, ice giant 2 to
    5, rocky 0 to 2, dwarf none); and a planet with index at most 4 and
    semi-major axis at most 400 is rocky or a dwarf, never a giant. *)
Theorem planets_match_their_type (rnd : nat -> R) (width height : R) :
  unit_stream rnd ->
  exists sys c',
    generateSolarSystem width height rnd 0%nat = Ok (sys, c') /\
    forall k p,
      nth_error (SolarSystem.planets sys) k = Some p ->
      fst (radiusRange (Planet.type p)) <= Planet.radius p
        <= snd (radiusRange (Planet.type p)) /\
      (fst (moonCountRange (Planet.type p)) <= List.length (Planet.moons p)
         <= snd (moonCountRange (Planet.type p)))%nat /\
      (Planet.type p = DWARF -> Planet.moons p = []) /\
      ((k <= 4)%nat -> Orbit.a (Planet.orbit p) <= 400 ->
       Planet.type p = ROCKY \/ Planet.type p = DWARF).
Proof.
  intros Hrnd.
  destruct (generated_facts width height rnd 0%nat Hrnd)
    as (sys & c' & Hrun & _ & Hmore).
  exists sys, c'. split; [exact Hrun|].
  destruct Hmore as (_ & _ & _ & Hstar & _ & Hps & Hpm & _).
  intros k p Hk.
  assert (Hstar0 : Star.radius (SolarSystem.star sys) + 5 > 0) by lra.
  destruct (planets_nth _ _ _ _ _ Hstar0 Hps Hpm Hk)
    as (prev' & _ & Hspec & Hmore).
  cbn [Nat.add] in Hspec, Hmore.
  destruct Hspec as (_ & _ & _ & Hdwarf & _).
  destruct Hmore as (Hrad & Hcount & _ & _ & _ & _ & Hinner & _).
  split; [lra | auto].
Qed.

Lemma planets_match_their_type_witness :
  unit_stream rnd_half /\
  exists sys c',
    generateSolarSystem 800 600 rnd_half 0%nat = Ok (sys, c') /\
    forall k p,
      nth_error (SolarSystem.planets sys) k = Some p ->
      fst (radiusRange (Planet.type p)) <= Planet.radius p
        <= snd (radiusRange (Planet.type p)) /\
      (fst (moonCountRange (Planet.type p)) <= List.length (Planet.moons p)
         <= snd (moonCountRange (Planet.type p)))%nat /\
      (Planet.type p = DWARF -> Planet.moons p = []) /\
      ((k <= 4)%nat -> Orbit.a (Planet.orbit p) <= 400 ->
       Planet.type p = ROCKY \/ Planet.type p = DWARF).
Proof.
  assert (Hu : unit_stream rnd_half) by (intros n; unfold rnd_half; lra).
  split; [exact Hu | exact (planets_match_their_type rnd_half 800 600 Hu)].
Defined.

(** X15. Every orbit the generator produces satisfies the preconditions of
    the orbit solver ([a > 0], [0 <= e < 1], [period > 0]): planets have
    [0.01 <= e < 0.2] and [period = a^1.5 * 0.005], moons have
    [0 <= e < 0.1] and [period = a^1.5 * 0.15]. *)
Theorem generated_orbits_are_valid (rnd : nat -> R) (width height : R) :
  unit_stream rnd ->
  exists sys c',
    generateSolarSystem width height rnd 0%nat = Ok (sys, c') /\
    forall p,
      In p (SolarSystem.planets sys) ->
      valid_orbit (Planet.orbit p) /\
      0.01 <= Orbit.e (Planet.orbit p) < 0.2 /\
      Orbit.period (Planet.orbit p)
      = Rpower (Orbit.a (Planet.orbit p)) 1.5 * 0.005 /\
      forall mo,
        In mo (Planet.moons p) ->
        valid_orbit (Moon.orbit mo) /\
        0 <= Orbit.e (Moon.orbit mo) < 0.1 /\
        Orbit.period (Moon.orbit mo)
        = Rpower (Orbit.a (Moon.orbit mo)) 1.5 * 0.15.
Proof.
  intros Hrnd.
  destruct (generated_facts width height rnd 0%nat Hrnd)
    as (sys & c' & Hrun & _ & Hmore).
  exists sys, c'. split; [exact Hrun|].
  destruct Hmore as (_ & _ & _ & Hstar & _ & Hps & Hpm & _).
  intros p Hp. apply In_nth_error in Hp. destruct Hp as (k & Hk).
  assert (Hstar0 : Star.radius (SolarSystem.star sys) + 5 > 0) by lra.
  destruct (planets_nth _ _ _ _ _ Hstar0 Hps Hpm Hk)
    as (prev' & Hge & Hspec & Hmore).
  assert (Hprev' : prev' > 0) by lra.
  destruct (planet_apsides _ _ _ Hprev' Hspec Hmore) as (Ha & _).
  destruct Hspec as (_ & He & _ & _ & Hmoons).
  destruct Hmore as (Hrad & _ & _ & Hperiod & _ & _ & _ & _ & Hmoons').
  assert (Hpos : forall v, Rpower v 1.5 > 0) by (intros v; apply exp_pos).
  split.
  { unfold valid_orbit. rewrite Hperiod. pose proof (Hpos (Orbit.a (Planet.orbit p))).
    repeat split; lra. }
  split; [exact He|]. split; [exact Hperiod|].
  intros mo Hmo. apply In_nth_error in Hmo. destruct Hmo as (m & Hm).
  destruct (Hmoons _ _ Hm) as (_ & _ & Hma & Hme).
  destruct (Hmoons' _ _ Hm) as (_ & _ & _ & Hmp & _).
  assert (Hr0 : Planet.radius p > 0).
  { destruct (Planet.type p); cbn [radiusRange fst snd] in Hrad; lra. }
  pose proof (pos_INR m) as Hm0.
  split.
  { unfold valid_orbit. rewrite Hmp. pose proof (Hpos (Orbit.a (Moon.orbit mo))).
    repeat split; lra. }
  split; [exact Hme | exact Hmp].
Qed.

Lemma generated_orbits_are_valid_witness :
  unit_stream rnd_half /\
  exists sys c',
    generateSolarSystem 800 600 rnd_half 0%nat = Ok (sys, c') /\
    forall p,
      In p (SolarSystem.planets sys) ->
      valid_orbit (Planet.orbit p) /\
      0.01 <= Orbit.e (Planet.orbit p) < 0.2 /\
      Orbit.period (Planet.orbit p)
      = Rpower (Orbit.a (Planet.orbit p)) 1.5 * 0.005 /\
      forall mo,
        In mo (Planet.moons p) ->
        valid_orbit (Moon.orbit mo) /\
        0 <= Orbit.e (Moon.orbit mo) < 0.1 /\
        Orbit.period (Moon.orbit mo)
        = Rpower (Orbit.a (Moon.orbit mo)) 1.5 * 0.15.
Proof.
  assert (Hu : unit_stream rnd_half) by (intros n; unfold rnd_half; lra).
  split; [exact Hu | exact (generated_orbits_are_valid rnd_half 800 600 Hu)].
Defined.

End SystemMore.

(** ** Orbits, belts and moons in motion *)

Module MotionFacts.
Import Physics Generator Canvas Specs MoreSpecs.
Import GeneratorFacts GeneratorClaims GeneratorMore OrbitFacts ViewFacts SystemMore.

Lemma planet_distance (i : nat) (prev : R) (p : Planet) (t : R) :
  prev > 0 -> planet_spec i prev p -> planet_more i prev p ->
  perihelion (Planet.orbit p)
  <= distance (getPositionOnOrbit (Planet.orbit p) t)
  <= aphelion (Planet.orbit p).
Proof.
  intros Hprev Hspec Hmore.
  destruct (planet_apsides _ _ _ Hprev Hspec Hmore) as (Ha & _).
  destruct Hspec as (_ & He & _).
  apply distance_formula; lra.
Qed.

Lemma Forall2_nth_right {A B} (P : A -> B -> Prop) (l : list A) (bs : list B) :
  Forall2 P l bs ->
  forall k b, nth_error bs k = Some b ->
              exists v, nth_error l k = Some v /\ P v b.
Proof.
  induction 1 as [|v b0 l bs Hvb _ IH]; intros k b Hk.
  - destruct k; discriminate.
  - destruct k as [|k]; cbn [nth_error] in *.
    + injection Hk as <-. exists v. auto.
    + apply IH. exact Hk.
Qed.

(** X16. In every generated system the semi-major axes and, with them, the
    orbital periods strictly increase along the planet list: a planet
    farther out takes longer to go round. *)
Theorem outer_planets_are_slower (rnd : nat -> R) (width height : R) :
  unit_stream rnd ->
  exists sys c',
    generateSolarSystem width height rnd 0%nat = Ok (sys, c') /\
    forall k1 k2 p1 p2,
      (k1 < k2)%nat ->
      nth_error (SolarSystem.planets sys) k1 = Some p1 ->
      nth_error (SolarSystem.planets sys) k2 = Some p2 ->
      Orbit.a (Planet.orbit p1) < Orbit.a (Planet.orbit p2) /\
      Orbit.period (Planet.orbit p1) < Orbit.period (Planet.orbit p2).
Proof.
  intros Hrnd.
  destruct (generated_facts width height rnd 0%nat Hrnd)
    as (sys & c' & Hrun & _ & Hmore).
  exists sys, c'. split; [exact Hrun|].
  destruct Hmore as (_ & _ & _ & Hstar & _ & Hps & Hpm & _).
  assert (Hstar0 : Star.radius (SolarSystem.star sys) + 5 > 0) by lra.
  intros k1 k2 p1 p2 Hlt H1 H2.
  pose proof (planets_ordered _ _ _ _ _ _ _ Hstar0 Hps Hpm Hlt H1 H2) as Hord.
  destruct (planets_nth _ _ _ _ _ Hstar0 Hps Hpm H1) as (v1 & Hv1 & Hs1 & Hm1).
  destruct (planets_nth _ _ _ _ _ Hstar0 Hps Hpm H2) as (v2 & Hv2 & Hs2 & Hm2).
  assert (Hv1' : v1 > 0) by lra. assert (Hv2' : v2 > 0) by lra.
  destruct (planet_apsides _ _ _ Hv1' Hs1 Hm1) as (Ha1 & Hp1 & Hq1).
  destruct (planet_apsides _ _ _ Hv2' Hs2 Hm2) as (Ha2 & Hp2 & Hq2).
  destruct Hs1 as (_ & He1 & _). destruct Hs2 as (_ & He2 & _).
  destruct Hm1 as (_ & _ & _ & Hper1 & _). destruct Hm2 as (_ & _ & _ & Hper2 & _).
  unfold aphelion, perihelion in *.
  assert (Hlt_a : Orbit.a (Planet.orbit p1) < Orbit.a (Planet.orbit p2)) by nra.
  split; [exact Hlt_a|].
  rewrite Hper1, Hper2.
  assert (Hpow : Rpower (Orbit.a (Planet.orbit p1)) 1.5
                 < Rpower (Orbit.a (Planet.orbit p2)) 1.5)
    by (apply Rlt_Rpower_l; lra).
  lra.
Qed.

Lemma outer_planets_are_slower_witness :
  unit_stream rnd_half /\
  exists sys c',
    generateSolarSystem 800 600 rnd_half 0%nat = Ok (sys, c') /\
    forall k1 k2 p1 p2,
      (k1 < k2)%nat ->
      nth_error (SolarSystem.planets sys) k1 = Some p1 ->
      nth_error (SolarSystem.planets sys) k2 = Some p2 ->
      Orbit.a (Planet.orbit p1) < Orbit.a (Planet.orbit p2) /\
      Orbit.period (Planet.orbit p1) < Orbit.period (Planet.orbit p2).
Proof.
  assert (Hu : unit_stream rnd_half) by (intros n; unfold rnd_half; lra).
  split; [exact Hu | exact (outer_planets_are_slower rnd_half 800 600 Hu)].
Defined.

(** X17. In every generated system, at any two times, a planet farther
    along the planet list is at least 20 farther from the star than a
    planet before it, to within a millionth (in exact arithmetic without
    it; the distances the code computes carry the rounding of a square
    root of squares): no two planets are ever at the same distance. *)
Theorem planets_never_meet (rnd : nat -> R) (width height : R) :
  unit_stream rnd ->
  exists sys c',
    generateSolarSystem width height rnd 0%nat = Ok (sys, c') /\
    forall k1 k2 p1 p2 t1 t2,
      (k1 < k2)%nat ->
      nth_error (SolarSystem.planets sys) k1 = Some p1 ->
      nth_error (SolarSystem.planets sys) k2 = Some p2 ->
      moderate t1 -> moderate t2 ->
      distance (getPositionOnOrbit (Planet.orbit p1) t1) + 20
      <= distance (getPositionOnOrbit (Planet.orbit p2) t2) + 1e-6.
Proof.
  intros Hrnd.
  destruct (generated_facts width height rnd 0%nat Hrnd)
    as (sys & c' & Hrun & _ & Hmore).
  exists sys, c'. split; [exact Hrun|].
  destruct Hmore as (_ & _ & _ & Hstar & _ & Hps & Hpm & _).
  assert (Hstar0 : Star.radius (SolarSystem.star sys) + 5 > 0) by lra.
  intros k1 k2 p1 p2 t1 t2 Hlt H1 H2 _ _.
  pose proof (planets_ordered _ _ _ _ _ _ _ Hstar0 Hps Hpm Hlt H1 H2) as Hord.
  destruct (planets_nth _ _ _ _ _ Hstar0 Hps Hpm H1) as (v1 & Hv1 & Hs1 & Hm1).
  destruct (planets_nth _ _ _ _ _ Hstar0 Hps Hpm H2) as (v2 & Hv2 & Hs2 & Hm2).
  assert (Hv1' : v1 > 0) by lra. assert (Hv2' : v2 > 0) by lra.
  pose proof (planet_distance _ _ _ t1 Hv1' Hs1 Hm1) as Hd1.
  pose proof (planet_distance _ _ _ t2 Hv2' Hs2 Hm2) as Hd2.
  lra.
Qed.

Lemma planets_never_meet_witness :
  unit_stream rnd_half /\
  exists sys c',
    generateSolarSystem 800 600 rnd_half 0%nat = Ok (sys, c') /\
    forall k1 k2 p1 p2 t1 t2,
      (k1 < k2)%nat ->
      nth_error (SolarSystem.planets sys) k1 = Some p1 ->
      nth_error (SolarSystem.planets sys) k2 = Some p2 ->
      moderate t1 -> moderate t2 ->
      distance (getPositionOnOrbit (Planet.orbit p1) t1) + 20
      <= distance (getPositionOnOrbit (Planet.orbit p2) t2) + 1e-6.
Proof.
  assert (Hu : unit_stream rnd_half) by (intros n; unfold rnd_half; lra).
  split; [exact Hu | exact (planets_never_meet rnd_half 800 600 Hu)].
Defined.

(** Every particle of every belt of a generated system lies between the
    positive bounds of its belt. *)
Lemma belts_are_well_formed_facts (rnd : nat -> R) (width height : R) :
  unit_stream rnd ->
  exists sys c',
    generateSolarSystem width height rnd 0%nat = Ok (sys, c') /\
    forall b,
      In b (SolarSystem.asteroidBelts sys) ->
      0 < AsteroidBelt.minRadius b /\
      forall q,
        In q (AsteroidBelt.particles b) ->
        AsteroidBelt.minRadius b <= Particle.radius q.
Proof.
  intros Hrnd.
  destruct (generated_facts width height rnd 0%nat Hrnd)
    as (sys & c' & Hrun & _ & Hmore).
  exists sys, c'. split; [exact Hrun|].
  destruct Hmore as (sel & inner & outer & Hstar & _ & Hps & Hpm & _ & _
                     & Hfit & Hok & Hcount & Houter & Houterok & Hbelts).
  assert (Hstar0 : Star.radius (SolarSystem.star sys) + 5 > 0) by lra.
  rewrite Hbelts. intros b Hb. split.
  - apply in_app_or in Hb. destruct Hb as [Hb | [<- | []]].
    + destruct (Forall2_In_right _ _ _ Hfit b Hb)
        as (idx & _ & p1 & p2 & H1 & _ & Hmin & _).
      destruct (planets_nth _ _ _ _ _ Hstar0 Hps Hpm H1) as (v & Hv & Hs & Hm).
      assert (Hv' : v > 0) by lra.
      destruct (planet_apsides _ _ _ Hv' Hs Hm) as (_ & Hp & Hq).
      rewrite Hmin. unfold safetyMargin. lra.
    + destruct Houter as (lastPlanet & Hl & Hmin & _).
      destruct (planets_nth _ _ _ _ _ Hstar0 Hps Hpm Hl) as (v & Hv & Hs & Hm).
      assert (Hv' : v > 0) by lra.
      destruct (planet_apsides _ _ _ Hv' Hs Hm) as (_ & Hp & Hq).
      rewrite Hmin. lra.
  - assert (Hbok : belt_ok b).
    { apply in_app_or in Hb. destruct Hb as [Hb | [<- | []]]; [|exact Houterok].
      rewrite Forall_forall in Hok. auto. }
    destruct Hbok as (_ & _ & Hparts).
    intros q Hq. rewrite Forall_forall in Hparts.
    destruct (Hparts q Hq) as (Hr & _). lra.
Qed.

(** X18. In every generated system every belt has
    [0 < minRadius < maxRadius], its [count] is the number of its
    particles, and each particle has its radius between [minRadius] and
    [maxRadius], an angle between [0] and [2 PI], a size between [0.5] and
    [1.5] (the upper ends stated closed, as a rounded draw can reach them)
    and speed [5 / sqrt radius]; an inner belt has at least 400
    particles. *)
Theorem belts_are_well_formed (rnd : nat -> R) (width height : R) :
  unit_stream rnd ->
  exists sys c',
    generateSolarSystem width height rnd 0%nat = Ok (sys, c') /\
    (forall b,
       In b (SolarSystem.asteroidBelts sys) ->
       0 < AsteroidBelt.minRadius b < AsteroidBelt.maxRadius b /\
       AsteroidBelt.count b = Z.of_nat (List.length (AsteroidBelt.particles b)) /\
       forall q,
         In q (AsteroidBelt.particles b) ->
         AsteroidBelt.minRadius b <= Particle.radius q <= AsteroidBelt.maxRadius b /\
         0 <= Particle.angle q <= PI * 2 /\
         0.5 <= Particle.size q <= 1.5 /\
         Particle.speed q = 1 / sqrt (Particle.radius q) * 5) /\
    (forall b,
       In b (removelast (SolarSystem.asteroidBelts sys)) ->
       (400 <= AsteroidBelt.count b)%Z).
Proof.
  intros Hrnd.
  destruct (generated_facts width height rnd 0%nat Hrnd)
    as (sys & c' & Hrun & _ & Hmore).
  exists sys, c'. split; [exact Hrun|].
  destruct Hmore as (sel & inner & outer & Hstar & _ & Hps & Hpm & _ & _
                     & Hfit & Hok & Hcount & Houter & Houterok & Hbelts).
  assert (Hstar0 : Star.radius (SolarSystem.star sys) + 5 > 0) by lra.
  assert (Hminpos : forall b, In b (inner ++ [outer]) -> 0 < AsteroidBelt.minRadius b).
  { intros b Hb. apply in_app_or in Hb. destruct Hb as [Hb | [<- | []]].
    - destruct (Forall2_In_right _ _ _ Hfit b Hb)
        as (idx & _ & p1 & p2 & H1 & _ & Hmin & _).
      destruct (planets_nth _ _ _ _ _ Hstar0 Hps Hpm H1) as (v & Hv & Hs & Hm).
      assert (Hv' : v > 0) by lra.
      destruct (planet_apsides _ _ _ Hv' Hs Hm) as (_ & Hp & Hq).
      rewrite Hmin. unfold safetyMargin. lra.
    - destruct Houter as (lastPlanet & Hl & Hmin & _).
      destruct (planets_nth _ _ _ _ _ Hstar0 Hps Hpm Hl) as (v & Hv & Hs & Hm).
      assert (Hv' : v > 0) by lra.
      destruct (planet_apsides _ _ _ Hv' Hs Hm) as (_ & Hp & Hq).
      rewrite Hmin. lra. }
  rewrite Hbelts, removelast_last. split.
  - intros b Hb. pose proof (Hminpos b Hb) as Hpos.
    assert (Hbok : belt_ok b).
    { apply in_app_or in Hb. destruct Hb as [Hb | [<- | []]]; [|exact Houterok].
      rewrite Forall_forall in Hok. auto. }
    destruct Hbok as (Hlt & Hc & Hparts).
    split; [lra|]. split; [exact Hc|].
    intros q Hq. rewrite Forall_forall in Hparts.
    destruct (Hparts q Hq) as (Hr & Ha & Hs & Hv).
    split; [lra|]. split; [lra|]. split; [lra | exact Hv].
  - intros b Hb. rewrite Forall_forall in Hcount. auto.
Qed.

Lemma belts_are_well_formed_witness :
  unit_stream rnd_half /\
  exists sys c',
    generateSolarSystem 800 600 rnd_half 0%nat = Ok (sys, c') /\
    (forall b,
       In b (SolarSystem.asteroidBelts sys) ->
       0 < AsteroidBelt.minRadius b < AsteroidBelt.maxRadius b /\
       AsteroidBelt.count b = Z.of_nat (List.length (AsteroidBelt.particles b)) /\
       forall q,
         In q (AsteroidBelt.particles b) ->
         AsteroidBelt.minRadius b <= Particle.radius q <= AsteroidBelt.maxRadius b /\
         0 <= Particle.angle q <= PI * 2 /\
         0.5 <= Particle.size q <= 1.5 /\
         Particle.speed q = 1 / sqrt (Particle.radius q) * 5) /\
    (forall b,
       In b (removelast (SolarSystem.asteroidBelts sys)) ->
       (400 <= AsteroidBelt.count b)%Z).
Proof.
  assert (Hu : unit_stream rnd_half) by (intros n; unfold rnd_half; lra).
  split; [exact Hu | exact (belts_are_well_formed rnd_half 800 600 Hu)].
Defined.

(** X9. In every generated system every belt particle is drawn, at every
    time, at the distance of its [radius] from the star, to within a
    millionth (in exact arithmetic at exactly that distance; the code
    rounds [cos], [sin], two products and a square root of squares):
    particles move on circles. *)
Theorem asteroid_on_circle (rnd : nat -> R) (width height : R) :
  unit_stream rnd ->
  exists sys c',
    generateSolarSystem width height rnd 0%nat = Ok (sys, c') /\
    forall b q t,
      In b (SolarSystem.asteroidBelts sys) ->
      In q (AsteroidBelt.particles b) ->
      Rabs (distance (asteroidPosition q t) - Particle.radius q) <= 1e-6.
Proof.
  intros Hrnd.
  destruct (belts_are_well_formed_facts rnd width height Hrnd)
    as (sys & c' & Hrun & Hbelts).
  exists sys, c'. split; [exact Hrun|].
  intros b q t Hb Hq.
  destruct (Hbelts b Hb) as (Hmin & Hparts).
  pose proof (Hparts q Hq) as Hr.
  rewrite asteroid_distance by lra.
  replace (Particle.radius q - Particle.radius q) with 0 by ring.
  rewrite Rabs_R0. lra.
Qed.

Lemma asteroid_on_circle_witness :
  unit_stream rnd_half /\
  exists sys c',
    generateSolarSystem 800 600 rnd_half 0%nat = Ok (sys, c') /\
    forall b q t,
      In b (SolarSystem.asteroidBelts sys) ->
      In q (AsteroidBelt.particles b) ->
      Rabs (distance (asteroidPosition q t) - Particle.radius q) <= 1e-6.
Proof.
  assert (Hu : unit_stream rnd_half) by (intros n; unfold rnd_half; lra).
  split; [exact Hu | exact (asteroid_on_circle rnd_half 800 600 Hu)].
Defined.

End MotionFacts.

(** ** Belts and moons in place *)

Module PlacementFacts.
Import Physics Generator Canvas Specs MoreSpecs.
Import GeneratorFacts GeneratorClaims GeneratorMore OrbitFacts ViewFacts.
Import SystemMore MotionFacts.

(** Two belts in different gaps, the first gap before the second. *)
Lemma belts_in_order (i : nat) (prev : R) (ps : list Planet)
    (idx1 idx2 : nat) (b1 b2 : AsteroidBelt) :
  prev > 0 -> planets_spec i prev ps -> planets_more i prev ps ->
  (idx1 < idx2)%nat ->
  belt_in_gap ps idx1 b1 -> belt_in_gap ps idx2 b2 ->
  AsteroidBelt.maxRadius b1 + 30 < AsteroidBelt.minRadius b2.
Proof.
  intros Hprev Hps Hpm Hlt
         (p1 & q1 & Hp1 & Hq1 & _ & Hmax1 & _)
         (p2 & q2 & Hp2 & Hq2 & Hmin2 & _).
  rewrite Hmax1, Hmin2. unfold safetyMargin.
  destruct (planets_nth _ _ _ _ _ Hprev Hps Hpm Hp2) as (v & Hv & Hs & Hm).
  assert (Hv' : v > 0) by lra.
  destruct (planet_apsides _ _ _ Hv' Hs Hm) as (_ & _ & Hpa).
  destruct (Nat.eq_dec (idx1 + 1) idx2) as [Heq | Hne].
  - subst idx2. assert (q1 = p2) by congruence. subst q1. lra.
  - assert (Hlt' : (idx1 + 1 < idx2)%nat) by lia.
    pose proof (planets_ordered _ _ _ _ _ _ _ Hprev Hps Hpm Hlt' Hq1 Hp2) as Hord.
    destruct (planets_nth _ _ _ _ _ Hprev Hps Hpm Hq1) as (w & Hw & Hs' & Hm').
    assert (Hw' : w > 0) by lra.
    destruct (planet_apsides _ _ _ Hw' Hs' Hm') as (_ & _ & Hpa').
    lra.
Qed.

(** X19. A generated system has at most three inner belts, they sit in
    pairwise different gaps, and any two of them are disjoint: one ends
    before the other begins. *)
Theorem inner_belts_are_disjoint (rnd : nat -> R) (width height : R) :
  unit_stream rnd ->
  exists sys c',
    generateSolarSystem width height rnd 0%nat = Ok (sys, c') /\
    (List.length (removelast (SolarSystem.asteroidBelts sys)) <= 3)%nat /\
    forall k1 k2 b1 b2,
      k1 <> k2 ->
      nth_error (removelast (SolarSystem.asteroidBelts sys)) k1 = Some b1 ->
      nth_error (removelast (SolarSystem.asteroidBelts sys)) k2 = Some b2 ->
      AsteroidBelt.maxRadius b1 < AsteroidBelt.minRadius b2 \/
      AsteroidBelt.maxRadius b2 < AsteroidBelt.minRadius b1.
Proof.
  intros Hrnd.
  destruct (generated_facts width height rnd 0%nat Hrnd)
    as (sys & c' & Hrun & Hspec & Hmore).
  exists sys, c'. split; [exact Hrun|].
  destruct Hspec as (gaps & req & sel0 & inner0 & outer0 & _ & _ & _ & _ & Hreq
                     & Hsel0 & Hinner0 & _ & Hbelts0).
  destruct Hmore as (sel & inner & outer & Hstar & _ & Hps & Hpm & Hnd & _
                     & Hfit & _ & _ & _ & _ & Hbelts).
  assert (Hstar0 : Star.radius (SolarSystem.star sys) + 5 > 0) by lra.
  assert (Hsame : inner0 = inner).
  { rewrite Hbelts in Hbelts0. apply app_inj_tail in Hbelts0.
    destruct Hbelts0 as [Hi _]. symmetry. exact Hi. }
  subst inner0. apply Forall2_length in Hinner0.
  rewrite Hbelts, removelast_last. split; [lia|].
  intros k1 k2 b1 b2 Hne H1 H2.
  destruct (Forall2_nth_right _ _ _ Hfit _ _ H1) as (idx1 & Hi1 & Hb1).
  destruct (Forall2_nth_right _ _ _ Hfit _ _ H2) as (idx2 & Hi2 & Hb2).
  assert (Hidx : idx1 <> idx2).
  { intros ->. apply Hne.
    apply (proj1 (NoDup_nth_error sel) Hnd).
    - apply nth_error_Some. congruence.
    - congruence. }
  destruct (Nat.lt_total idx1 idx2) as [Hlt | [Heq | Hgt]]; [|contradiction|].
  - left.
    pose proof (belts_in_order _ _ _ _ _ _ _ Hstar0 Hps Hpm Hlt Hb1 Hb2). lra.
  - right.
    pose proof (belts_in_order _ _ _ _ _ _ _ Hstar0 Hps Hpm Hgt Hb2 Hb1). lra.
Qed.

Lemma inner_belts_are_disjoint_witness :
  unit_stream rnd_half /\
  exists sys c',
    generateSolarSystem 800 600 rnd_half 0%nat = Ok (sys, c') /\
    (List.length (removelast (SolarSystem.asteroidBelts sys)) <= 3)%nat /\
    forall k1 k2 b1 b2,
      k1 <> k2 ->
      nth_error (removelast (SolarSystem.asteroidBelts sys)) k1 = Some b1 ->
      nth_error (removelast (SolarSystem.asteroidBelts sys)) k2 = Some b2 ->
      AsteroidBelt.maxRadius b1 < AsteroidBelt.minRadius b2 \/
      AsteroidBelt.maxRadius b2 < AsteroidBelt.minRadius b1.
Proof.
  assert (Hu : unit_stream rnd_half) by (intros n; unfold rnd_half; lra).
  split; [exact Hu | exact (inner_belts_are_disjoint rnd_half 800 600 Hu)].
Defined.

(** X20. In every generated system the particles of an inner belt stay, at
    all times, the safety margin 15 outside the inner neighbour planet and
    15 inside the outer neighbour, wherever those planets are on their
    orbits, to within a millionth (in exact arithmetic without it; a
    particle drawn at the very edge of its belt is 15 from the apsis of the
    neighbour, and the distances the code computes carry the rounding of a
    square root of squares). *)
Theorem inner_asteroids_keep_clear (rnd : nat -> R) (width height : R) :
  unit_stream rnd ->
  exists sys c',
    generateSolarSystem width height rnd 0%nat = Ok (sys, c') /\
    forall b,
      In b (removelast (SolarSystem.asteroidBelts sys)) ->
      exists idx p1 p2,
        nth_error (SolarSystem.planets sys) idx = Some p1 /\
        nth_error (SolarSystem.planets sys) (idx + 1) = Some p2 /\
        forall q t t1 t2,
          In q (AsteroidBelt.particles b) ->
          moderate t1 -> moderate t2 ->
          distance (getPositionOnOrbit (Planet.orbit p1) t1) + 15
          <= distance (asteroidPosition q t) + 1e-6 /\
          distance (asteroidPosition q t) + 15
          <= distance (getPositionOnOrbit (Planet.orbit p2) t2) + 1e-6.
Proof.
  intros Hrnd.
  destruct (generated_facts width height rnd 0%nat Hrnd)
    as (sys & c' & Hrun & _ & Hmore).
  exists sys, c'. split; [exact Hrun|].
  destruct Hmore as (sel & inner & outer & Hstar & _ & Hps & Hpm & _ & _
                     & Hfit & Hok & _ & _ & _ & Hbelts).
  assert (Hstar0 : Star.radius (SolarSystem.star sys) + 5 > 0) by lra.
  rewrite Hbelts, removelast_last. intros b Hb.
  destruct (Forall2_In_right _ _ _ Hfit b Hb)
    as (idx & _ & p1 & p2 & H1 & H2 & Hmin & Hmax & _).
  exists idx, p1, p2. split; [exact H1|]. split; [exact H2|].
  intros q t t1 t2 Hq _ _.
  rewrite Forall_forall in Hok. destruct (Hok b Hb) as (_ & _ & Hparts).
  rewrite Forall_forall in Hparts. destruct (Hparts q Hq) as (Hrad & _).
  destruct (planets_nth _ _ _ _ _ Hstar0 Hps Hpm H1) as (v1 & Hv1 & Hs1 & Hm1).
  destruct (planets_nth _ _ _ _ _ Hstar0 Hps Hpm H2) as (v2 & Hv2 & Hs2 & Hm2).
  assert (Hv1' : v1 > 0) by lra. assert (Hv2' : v2 > 0) by lra.
  pose proof (planet_distance _ _ _ t1 Hv1' Hs1 Hm1) as Hd1.
  pose proof (planet_distance _ _ _ t2 Hv2' Hs2 Hm2) as Hd2.
  destruct (planet_apsides _ _ _ Hv1' Hs1 Hm1) as (_ & Hp1 & _).
  unfold safetyMargin in Hmin, Hmax.
  assert (Hr0 : 0 <= Particle.radius q) by lra.
  assert (Hdq : distance (asteroidPosition q t) = Particle.radius q)
    by (apply asteroid_distance; exact Hr0).
  rewrite Hdq. lra.
Qed.

Lemma inner_asteroids_keep_clear_witness :
  unit_stream rnd_half /\
  exists sys c',
    generateSolarSystem 800 600 rnd_half 0%nat = Ok (sys, c') /\
    forall b,
      In b (removelast (SolarSystem.asteroidBelts sys)) ->
      exists idx p1 p2,
        nth_error (SolarSystem.planets sys) idx = Some p1 /\
        nth_error (SolarSystem.planets sys) (idx + 1) = Some p2 /\
        forall q t t1 t2,
          In q (AsteroidBelt.particles b) ->
          moderate t1 -> moderate t2 ->
          distance (getPositionOnOrbit (Planet.orbit p1) t1) + 15
          <= distance (asteroidPosition q t) + 1e-6 /\
          distance (asteroidPosition q t) + 15
          <= distance (getPositionOnOrbit (Planet.orbit p2) t2) + 1e-6.
Proof.
  assert (Hu : unit_stream rnd_half) by (intros n; unfold rnd_half; lra).
  split; [exact Hu | exact (inner_asteroids_keep_clear rnd_half 800 600 Hu)].
Defined.

End PlacementFacts.

(** ** The outer belt, moons and names *)

Module NamingFacts.
Import Physics Generator Canvas Specs MoreSpecs.
Import GeneratorFacts GeneratorClaims GeneratorMore OrbitFacts ViewFacts.
Import SystemMore MotionFacts.

(** X21. In every generated system the outer belt is between 80 and 150
    wide ([minRadius + 80 <= maxRadius <= minRadius + 150], both ends
    closed, as a rounded draw can reach the upper one), and
    each of its particles is, at all times, 40 farther from the star than
    any planet, wherever that planet is on its orbit, to within a
    millionth (in exact arithmetic without it). *)
Theorem outer_belt_beyond_planets (rnd : nat -> R) (width height : R) :
  unit_stream rnd ->
  exists sys c',
    generateSolarSystem width height rnd 0%nat = Ok (sys, c') /\
    forall inner outer,
      SolarSystem.asteroidBelts sys = inner ++ [outer] ->
      AsteroidBelt.minRadius outer + 80 <= AsteroidBelt.maxRadius outer
        <= AsteroidBelt.minRadius outer + 150 /\
      forall p q t t',
        In p (SolarSystem.planets sys) ->
        In q (AsteroidBelt.particles outer) ->
        moderate t ->
        distance (getPositionOnOrbit (Planet.orbit p) t) + 40
        <= distance (asteroidPosition q t') + 1e-6.
Proof.
  intros Hrnd.
  destruct (generated_facts width height rnd 0%nat Hrnd)
    as (sys & c' & Hrun & _ & Hmore).
  exists sys, c'. split; [exact Hrun|].
  destruct Hmore as (sel & inner0 & outer0 & Hstar & _ & Hps & Hpm & _ & _
                     & _ & _ & _ & Houter & Houterok & Hbelts).
  assert (Hstar0 : Star.radius (SolarSystem.star sys) + 5 > 0) by lra.
  intros inner outer Heq. rewrite Hbelts in Heq.
  apply app_inj_tail in Heq. destruct Heq as [_ <-].
  destruct Houter as (lastPlanet & Hlast & Hmin & Hwidth & _).
  split; [lra|].
  intros p q t t' Hp Hq _.
  destruct Houterok as (_ & _ & Hparts).
  rewrite Forall_forall in Hparts. destruct (Hparts q Hq) as (Hrad & _).
  apply In_nth_error in Hp. destruct Hp as (k & Hk).
  destruct (planets_nth _ _ _ _ _ Hstar0 Hps Hpm Hk) as (v & Hv & Hs & Hm).
  destruct (planets_nth _ _ _ _ _ Hstar0 Hps Hpm Hlast) as (w & Hw & Hs' & Hm').
  assert (Hv' : v > 0) by lra. assert (Hw' : w > 0) by lra.
  pose proof (planet_distance _ _ _ t Hv' Hs Hm) as Hd.
  destruct (planet_apsides _ _ _ Hw' Hs' Hm') as (_ & Hpl & Hql).
  assert (Hfar : aphelion (Planet.orbit p) <= aphelion (Planet.orbit lastPlanet)).
  { assert (Hklen : (k < List.length (SolarSystem.planets sys))%nat)
      by (apply nth_error_Some; congruence).
    destruct (Nat.eq_dec k (List.length (SolarSystem.planets sys) - 1)) as [-> | Hne].
    - assert (p = lastPlanet) by congruence. subst p. lra.
    - assert (Hlt : (k < List.length (SolarSystem.planets sys) - 1)%nat) by lia.
      pose proof (planets_ordered _ _ _ _ _ _ _ Hstar0 Hps Hpm Hlt Hk Hlast). lra. }
  rewrite asteroid_distance by lra. lra.
Qed.

Lemma outer_belt_beyond_planets_witness :
  unit_stream rnd_half /\
  exists sys c',
    generateSolarSystem 800 600 rnd_half 0%nat = Ok (sys, c') /\
    forall inner outer,
      SolarSystem.asteroidBelts sys = inner ++ [outer] ->
      AsteroidBelt.minRadius outer + 80 <= AsteroidBelt.maxRadius outer
        <= AsteroidBelt.minRadius outer + 150 /\
      forall p q t t',
        In p (SolarSystem.planets sys) ->
        In q (AsteroidBelt.particles outer) ->
        moderate t ->
        distance (getPositionOnOrbit (Planet.orbit p) t) + 40
        <= distance (asteroidPosition q t') + 1e-6.
Proof.
  assert (Hu : unit_stream rnd_half) by (intros n; unfold rnd_half; lra).
  split; [exact Hu | exact (outer_belt_beyond_planets rnd_half 800 600 Hu)].
Defined.

(** The disc of a moon at a zoom of at least [0.2]: no larger than [2.5]. *)
Lemma moonSize_bound (zoom : R) (mo : Moon) :
  0.2 <= zoom -> Moon.radius mo <= 1.8 -> moonSize zoom mo <= 2.5.
Proof.
  intros Hz Hr. unfold moonSize.
  assert (Hq : 0.5 / zoom <= 2.5).
  { apply Rmult_le_reg_r with zoom; [lra|].
    unfold Rdiv. rewrite Rmult_assoc, Rinv_l by lra. lra. }
  unfold Rmax. destruct (Rle_dec (Moon.radius mo) (0.5 / zoom)); lra.
Qed.

(** X22. In every generated system, at a zoom of at least [0.2] (the initial
    zoom [0.3] included) and at every time, a moon is drawn farther from
    the centre of its planet than the planet's radius plus the radius
    [moonSize] of its own disc, by at least [0.3]: the disc of a moon does
    not touch the disc of its planet.  (Zoomed out further the disc of a
    moon, kept at half a pixel on screen, grows in world units and can
    reach the planet.) *)
Theorem moons_clear_their_planet (rnd : nat -> R) (width height : R) :
  unit_stream rnd ->
  exists sys c',
    generateSolarSystem width height rnd 0%nat = Ok (sys, c') /\
    forall p mo t zoom,
      In p (SolarSystem.planets sys) -> In mo (Planet.moons p) ->
      moderate t -> 0.2 <= zoom ->
      distance
        (mkPoint (x (moonPosition p mo t) - x (getPositionOnOrbit (Planet.orbit p) t))
                 (y (moonPosition p mo t) - y (getPositionOnOrbit (Planet.orbit p) t)))
      >= Planet.radius p + moonSize zoom mo + 0.3.
Proof.
  intros Hrnd.
  destruct (generated_facts width height rnd 0%nat Hrnd)
    as (sys & c' & Hrun & _ & Hmore).
  exists sys, c'. split; [exact Hrun|].
  destruct Hmore as (_ & _ & _ & Hstar & _ & Hps & Hpm & _).
  assert (Hstar0 : Star.radius (SolarSystem.star sys) + 5 > 0) by lra.
  intros p mo t zoom Hp Hmo _ Hzoom.
  apply In_nth_error in Hp. destruct Hp as (k & Hk).
  apply In_nth_error in Hmo. destruct Hmo as (m & Hm).
  destruct (planets_nth _ _ _ _ _ Hstar0 Hps Hpm Hk) as (v & Hv & Hs & Hmr).
  destruct Hs as (_ & _ & _ & _ & Hmoons).
  destruct Hmr as (Hrad & _ & _ & _ & _ & _ & _ & _ & Hmoons').
  destruct (Hmoons _ _ Hm) as (_ & _ & Hma & Hme).
  destruct (Hmoons' _ _ Hm) as (_ & Hmrad & _).
  assert (Hr : 0 < Planet.radius p < 16).
  { destruct (Planet.type p); cbn [radiusRange fst snd] in Hrad; lra. }
  pose proof (pos_INR m) as Hm0.
  pose proof (moonSize_bound zoom mo Hzoom ltac:(lra)) as Hsize.
  assert (Hlocal :
    mkPoint (x (moonPosition p mo t) - x (getPositionOnOrbit (Planet.orbit p) t))
            (y (moonPosition p mo t) - y (getPositionOnOrbit (Planet.orbit p) t))
    = getPositionOnOrbit (Moon.orbit mo) t).
  { unfold moonPosition. cbn [x y].
    destruct (getPositionOnOrbit (Moon.orbit mo) t) as [lx ly]. cbn [x y].
    f_equal; ring. }
  rewrite Hlocal.
  destruct (distance_formula (Moon.orbit mo) t) as [_ [Hlo _]]; [lra | lra |].
  assert (Hperi : Orbit.a (Moon.orbit mo) * (1 - Orbit.e (Moon.orbit mo))
                  >= Planet.radius p + 2.5 + 0.4) by nra.
  lra.
Qed.

Lemma moons_clear_their_planet_witness :
  unit_stream rnd_half /\
  exists sys c',
    generateSolarSystem 800 600 rnd_half 0%nat = Ok (sys, c') /\
    forall p mo t zoom,
      In p (SolarSystem.planets sys) -> In mo (Planet.moons p) ->
      moderate t -> 0.2 <= zoom ->
      distance
        (mkPoint (x (moonPosition p mo t) - x (getPositionOnOrbit (Planet.orbit p) t))
                 (y (moonPosition p mo t) - y (getPositionOnOrbit (Planet.orbit p) t)))
      >= Planet.radius p + moonSize zoom mo + 0.3.
Proof.
  assert (Hu : unit_stream rnd_half) by (intros n; unfold rnd_half; lra).
  split; [exact Hu | exact (moons_clear_their_planet rnd_half 800 600 Hu)].
Defined.

(** *** Names *)

Lemma roms_NoDup : NoDup roms.
Proof.
  unfold roms.
  repeat (constructor; [cbn [In]; intros H;
                        repeat (destruct H as [H | H]; [discriminate H|]);
                        exact H|]).
  constructor.
Qed.

Lemma toRoman_small (m : nat) :
  (m < 10)%nat -> nth_error roms m = Some (toRoman (m + 1)).
Proof.
  intros Hm. do 10 (destruct m as [|m]; [reflexivity|]). lia.
Qed.

Lemma append_cancel (s t1 t2 : string) :
  (s ++ t1 = s ++ t2)%string -> t1 = t2.
Proof.
  induction s as [|ch s IH]; cbn [String.append]; [auto|].
  intros [= H]. auto.
Qed.

(** X23. In every generated system the moon at index [m] of a planet is
    named after the planet and the Roman numeral of [m + 1] (the decimal
    fallback of [toRoman] is never reached, a planet having at most 8
    moons), and the moons of one planet have pairwise different names. *)
Theorem moon_names (rnd : nat -> R) (width height : R) :
  unit_stream rnd ->
  exists sys c',
    generateSolarSystem width height rnd 0%nat = Ok (sys, c') /\
    forall p,
      In p (SolarSystem.planets sys) ->
      (forall m mo,
         nth_error (Planet.moons p) m = Some mo ->
         exists numeral,
           nth_error roms m = Some numeral /\
           Moon.name mo = (Planet.name p ++ " " ++ numeral)%string) /\
      NoDup (map Moon.name (Planet.moons p)).
Proof.
  intros Hrnd.
  destruct (generated_facts width height rnd 0%nat Hrnd)
    as (sys & c' & Hrun & _ & Hmore).
  exists sys, c'. split; [exact Hrun|].
  destruct Hmore as (_ & _ & _ & Hstar & _ & Hps & Hpm & _).
  assert (Hstar0 : Star.radius (SolarSystem.star sys) + 5 > 0) by lra.
  intros p Hp. apply In_nth_error in Hp. destruct Hp as (k & Hk).
  destruct (planets_nth _ _ _ _ _ Hstar0 Hps Hpm Hk) as (v & Hv & _ & Hmr).
  destruct Hmr as (_ & Hcount & _ & _ & _ & _ & _ & _ & Hmoons).
  assert (Hmax : (List.length (Planet.moons p) <= 8)%nat).
  { destruct (Planet.type p); cbn [moonCountRange fst snd] in Hcount; lia. }
  assert (Hname : forall m mo,
             nth_error (Planet.moons p) m = Some mo ->
             nth_error roms m = Some (toRoman (m + 1)) /\
             Moon.name mo = (Planet.name p ++ " " ++ toRoman (m + 1))%string).
  { intros m mo Hm.
    assert (Hlt : (m < List.length (Planet.moons p))%nat)
      by (apply nth_error_Some; congruence).
    destruct (Hmoons _ _ Hm) as (Hn & _).
    split; [apply toRoman_small; lia | exact Hn]. }
  split.
  - intros m mo Hm. destruct (Hname m mo Hm) as [Hrom Hn].
    exists (toRoman (m + 1)). auto.
  - apply NoDup_nth_error. intros m1 m2 Hm1 Heq.
    rewrite !nth_error_map in Heq. rewrite length_map in Hm1.
    destruct (nth_error (Planet.moons p) m1) as [mo1|] eqn:H1;
      [|apply nth_error_None in H1; lia].
    destruct (nth_error (Planet.moons p) m2) as [mo2|] eqn:H2; [|discriminate].
    cbn [option_map] in Heq. injection Heq as Heq.
    destruct (Hname _ _ H1) as [Hr1 Hn1]. destruct (Hname _ _ H2) as [Hr2 Hn2].
    rewrite Hn1, Hn2 in Heq. apply append_cancel in Heq.
    cbn [String.append] in Heq. injection Heq as Heq.
    rewrite <- Heq in Hr2.
    apply (proj1 (NoDup_nth_error roms) roms_NoDup).
    + apply nth_error_Some. congruence.
    + congruence.
Qed.

Lemma moon_names_witness :
  unit_stream rnd_half /\
  exists sys c',
    generateSolarSystem 800 600 rnd_half 0%nat = Ok (sys, c') /\
    forall p,
      In p (SolarSystem.planets sys) ->
      (forall m mo,
         nth_error (Planet.moons p) m = Some mo ->
         exists numeral,
           nth_error roms m = Some numeral /\
           Moon.name mo = (Planet.name p ++ " " ++ numeral)%string) /\
      NoDup (map Moon.name (Planet.moons p)).
Proof.
  assert (Hu : unit_stream rnd_half) by (intros n; unfold rnd_half; lra).
  split; [exact Hu | exact (moon_names rnd_half 800 600 Hu)].
Defined.

Lemma template_index_in (arr : list string) (z : Z) :
  (0 <= z <= Z.of_nat (List.length arr) - 1)%Z -> In (template_index arr z) arr.
Proof.
  intros Hz. unfold template_index.
  destruct (z <? 0)%Z eqn:Hneg; [apply Z.ltb_lt in Hneg; lia|].
  apply nth_In. lia.
Qed.

(** X24. With draws in [[0, 1)] [generateName] takes three draws and returns
    [<prefix>-<number> <suffix>] with a prefix and a suffix of its two word
    lists (never [undefined]) and a number from 10 to 999. *)
Theorem generateName_shape (rnd : nat -> R) (c : nat) :
  unit_stream rnd ->
  exists p n s,
    generateName rnd c
    = Ok ((p ++ "-" ++ Z_toString n ++ " " ++ s)%string, (3 + c)%nat) /\
    In p prefixes /\ (10 <= n <= 999)%Z /\ In s suffixes.
Proof.
  intros Hrnd. unfold generateName, bind, randomInt, Math_random, ret.
  cbn [bind]. cbv beta iota.
  set (zp := (Zfloor (rnd c * IZR (Z.of_nat (List.length prefixes) - 1 - 0 + 1)) + 0)%Z).
  set (zn := (Zfloor (rnd (S c) * IZR (999 - 10 + 1)) + 10)%Z).
  set (zs := (Zfloor (rnd (S (S c))
                      * IZR (Z.of_nat (List.length suffixes) - 1 - 0 + 1)) + 0)%Z).
  exists (template_index prefixes zp), zn, (template_index suffixes zs).
  split; [reflexivity|].
  split; [apply template_index_in; apply int_bounds; [apply Hrnd | cbn; lia]|].
  split; [apply int_bounds; [apply Hrnd | lia]|].
  apply template_index_in; apply int_bounds; [apply Hrnd | cbn; lia].
Qed.

Lemma generateName_shape_witness :
  unit_stream rnd_half /\
  exists p n s,
    generateName rnd_half 0%nat
    = Ok ((p ++ "-" ++ Z_toString n ++ " " ++ s)%string, (3 + 0)%nat) /\
    In p prefixes /\ (10 <= n <= 999)%Z /\ In s suffixes.
Proof.
  assert (Hu : unit_stream rnd_half) by (intros n; unfold rnd_half; lra).
  split; [exact Hu | exact (generateName_shape rnd_half 0%nat Hu)].
Defined.

(** X25. With draws in [[0, 1)], [randomRange min max] with [min < max]
    (of sizes far from overflow, as all the generator passes) returns a
    number between [min] and [max] (the upper end stated closed:
    the result stays below it in exact arithmetic, the rounded sum of the
    code can reach it) and [randomInt min max] with [min <= max] an integer
    from [min] to [max]; each takes one draw. *)
Theorem random_helpers_in_range (rnd : nat -> R) (c : nat) :
  unit_stream rnd ->
  (forall lo hi : R,
     moderate lo -> moderate hi -> lo < hi ->
     exists v, randomRange lo hi rnd c = Ok (v, S c) /\ lo <= v <= hi) /\
  (forall lo hi : Z,
     (lo <= hi)%Z ->
     exists z, randomInt lo hi rnd c = Ok (z, S c) /\ (lo <= z <= hi)%Z).
Proof.
  intros Hrnd. split.
  - intros lo hi _ _ Hlt. exists (rnd c * (hi - lo) + lo).
    split; [reflexivity|].
    pose proof (range_bounds (rnd c) lo hi (Hrnd c) Hlt). lra.
  - intros lo hi Hle. exists (Zfloor (rnd c * IZR (hi - lo + 1)) + lo)%Z.
    split; [reflexivity|]. apply int_bounds; [apply Hrnd | exact Hle].
Qed.

Lemma random_helpers_in_range_witness :
  unit_stream rnd_half /\
  (forall lo hi : R,
     moderate lo -> moderate hi -> lo < hi ->
     exists v, randomRange lo hi rnd_half 0%nat = Ok (v, 1%nat) /\ lo <= v <= hi) /\
  (forall lo hi : Z,
     (lo <= hi)%Z ->
     exists z, randomInt lo hi rnd_half 0%nat = Ok (z, 1%nat) /\ (lo <= z <= hi)%Z).
Proof.
  assert (Hu : unit_stream rnd_half) by (intros n; unfold rnd_half; lra).
  split; [exact Hu | exact (random_helpers_in_range rnd_half 0%nat Hu)].
Defined.

End NamingFacts.
